(** * BrowserPilot: the instruction execution engine of [GPTSeleniumAgent]

    A shallow embedding of [browserpilot/agents/gpt_selenium_agent.py]:
    the safety gate ([_check_danger], [_is_potentially_dangerous]), the
    failure context extractor ([__get_relevant_part_of_stack_trace]), the
    replay path ([__run_compiled_instructions]), the step loop
    ([__step_through_instructions]), [run] and the constructor.

    Python text is modelled as [string], a character standing for the
    code point of its number (0 to 255); Python integers as [Z], Python
    lists as [list].  The instruction compiler, the language
    model behind it and the browser are collaborators of the engine: they
    enter as an interface the engine calls.

    A call of the engine is a function from the machine (the state of the
    compiler and of the browser) to a reply: how the call ended, the
    machine it left, and the events it gave rise to, in order.  The events
    are the calls of [step], [retry] and [save_compiled_instructions],
    every [exec] of generated code, the warning [_check_danger] logs
    before [sys.exit(1)], the [pdb] breakpoint, and the teardown
    [env.driver.quit()].  The [logging.info] calls leave no event.  An
    exception is an outcome that skips whatever follows it; the only
    handler is the bare [except] of the step loop. *)

From Stdlib Require Import String Ascii List ZArith Lia Bool Arith DecimalString.
From Stdlib Require Import Permutation DecimalNat.
Import ListNotations.
Open Scope string_scope.

(** ** Python built-ins used by the engine *)

Module Py.

(** The newline character, written [\n] in the source. *)
Definition nl : string := String (ascii_of_nat 10) "".

Fixpoint drop (n : nat) (s : string) : string :=
  match n, s with
  | O, _ => s
  | S _, EmptyString => EmptyString
  | S k, String _ t => drop k t
  end.

(** [sub in s]. *)
Fixpoint contains (sub s : string) : bool :=
  prefix sub s ||
  match s with
  | EmptyString => false
  | String _ t => contains sub t
  end.

(** The leftmost occurrence of [sep] in [s]: the text before it and the
    text after it ([s.partition(sep)] without the middle component), or
    [None] when [sep] does not occur. *)
Fixpoint cut (sep s : string) : option (string * string) :=
  if prefix sep s then Some (EmptyString, drop (String.length sep) s)
  else match s with
       | EmptyString => None
       | String c t =>
           match cut sep t with
           | Some (a, b) => Some (String c a, b)
           | None => None
           end
       end.

(** [s.split(sep)] for a non-empty [sep] (the engine only passes literal,
    non-empty separators; Python raises ValueError on an empty one).  The
    occurrences are taken left to right without overlap; every cut removes
    at least one character, so [length s] rounds are enough. *)
Fixpoint split_from (rounds : nat) (sep s : string) : list string :=
  match cut sep s with
  | None => [s]
  | Some (a, b) =>
      match rounds with
      | O => [s]
      | S k => a :: split_from k sep b
      end
  end.

Definition split (sep s : string) : list string :=
  split_from (String.length s) sep s.

(** [s.replace(old, new)] for a non-empty [old] (the engine only passes
    literal, non-empty patterns): every occurrence, left to right, without
    overlap. *)
Fixpoint replace_from (rounds : nat) (old new s : string) : string :=
  match cut old s with
  | None => s
  | Some (a, b) =>
      match rounds with
      | O => s
      | S k => a ++ new ++ replace_from k old new b
      end
  end.

Definition replace (old new s : string) : string :=
  replace_from (String.length s) old new s.

(** [sep.join(ls)]. *)
Definition join (sep : string) (ls : list string) : string :=
  String.concat sep ls.

(** [s.endswith(suffix)]. *)
Definition endswith (s suffix : string) : bool :=
  (String.length suffix <=? String.length s)%nat &&
  (drop (String.length s - String.length suffix) s =? suffix).

(** [ls[lo:hi]] for constants [0 <= lo <= hi]. *)
Definition slice {A : Type} (lo hi : nat) (ls : list A) : list A :=
  firstn (hi - lo) (skipn lo ls).

(** [ls[i]]: a negative index counts from the end; out of range is an
    IndexError, rendered as [None]. *)
Definition index {A : Type} (ls : list A) (i : Z) : option A :=
  let n := Z.of_nat (List.length ls) in
  if (0 <=? i)%Z then nth_error ls (Z.to_nat i)
  else if (0 <=? n + i)%Z then nth_error ls (Z.to_nat (n + i))
  else None.

(** [c.isspace()], for the characters up to 255: what [str.strip]
    removes. *)
Definition is_space (c : ascii) : bool :=
  let n := nat_of_ascii c in
  ((9 <=? n) && (n <=? 13) || (28 <=? n) && (n <=? 32) ||
   (n =? 133) || (n =? 160))%nat.

(** The white space [int] skips at both ends of its argument: the
    separators 28 to 31 are not part of it. *)
Definition is_int_space (c : ascii) : bool :=
  let n := nat_of_ascii c in
  ((9 <=? n) && (n <=? 13) || (n =? 32) || (n =? 133) || (n =? 160))%nat.

Fixpoint lstrip_of (space : ascii -> bool) (s : string) : string :=
  match s with
  | EmptyString => EmptyString
  | String c t => if space c then lstrip_of space t else s
  end.

Fixpoint rstrip_of (space : ascii -> bool) (s : string) : string :=
  match s with
  | EmptyString => EmptyString
  | String c t =>
      let r := rstrip_of space t in
      if space c && (r =? EmptyString) then EmptyString else String c r
  end.

(** [s.lstrip()], [s.rstrip()] and [s.strip()]. *)
Definition lstrip : string -> string := lstrip_of is_space.
Definition rstrip : string -> string := rstrip_of is_space.
Definition strip (s : string) : string := rstrip (lstrip s).

Definition digit_val (c : ascii) : option Z :=
  let n := nat_of_ascii c in
  if ((48 <=? n) && (n <=? 57))%nat then Some (Z.of_nat (n - 48)) else None.

(** Decimal digits, with single underscores allowed between two digits. *)
Fixpoint digits (acc : Z) (after_digit : bool) (s : string) : option Z :=
  match s with
  | EmptyString => if after_digit then Some acc else None
  | String c t =>
      if (c =? "_")%char then
        if after_digit then digits acc false t else None
      else
        match digit_val c with
        | Some d => digits (10 * acc + d) true t
        | None => None
        end
  end.

(** [int(s)] in base ten; [None] is a ValueError. *)
Definition int (s : string) : option Z :=
  match rstrip_of is_int_space (lstrip_of is_int_space s) with
  | String "+" t => digits 0 false t
  | String "-" t => option_map Z.opp (digits 0 false t)
  | t => digits 0 false t
  end.

End Py.

(** ** The safety gate *)

Definition blacklisted_libraries : list string :=
  ["shutil"; "requests"; "urllib"].

(** [_is_potentially_dangerous]: [true] is a rejection. *)
Definition is_potentially_dangerous (code_str : string) : bool :=
  if Py.contains "import " code_str then true
  else existsb (fun library => Py.contains library code_str)
               blacklisted_libraries.

(** ** The collaborators of the engine *)

(** What [step] and [retry] return: the dictionary with the keys
    [instruction] and [action_output]. *)
Record StepResult : Type := mkStep {
  instruction : string;
  action_output : string
}.

(** Modelled from the spec: the instruction compiler ([InstructionCompiler],
    imported from [.compilers.instruction_compiler], not part of the
    sources at hand).  [C] is its state; the engine reads the three
    attributes and calls the three methods. *)
Record Compiler (C : Type) : Type := mkCompiler {
  create : string -> C;
  instructions_queue : C -> list string;
  use_compiled : C -> bool;
  compiled_instructions : C -> list string;
  step : C -> StepResult * C;
  retry : string -> C -> StepResult * C;
  save_compiled_instructions : string -> C -> C
}.

Arguments create {C}.
Arguments instructions_queue {C}.
Arguments use_compiled {C}.
Arguments compiled_instructions {C}.
Arguments step {C}.
Arguments retry {C}.
Arguments save_compiled_instructions {C}.

(** Modelled from the spec: what the interface section says of the
    compiler.  [step] dequeues the instruction at the front of the queue
    and returns it; [retry] regenerates an action for the current
    instruction and leaves the queue alone. *)
Record CompilerLaws {C : Type} (ic : Compiler C) : Prop := mkLaws {
  step_dequeues : forall c i q,
    instructions_queue ic c = i :: q ->
    instruction (fst (step ic c)) = i /\
    instructions_queue ic (snd (step ic c)) = q;
  retry_keeps_queue : forall feedback c,
    instructions_queue ic (snd (retry ic feedback c)) =
    instructions_queue ic c
}.

(** The outcome of [exec(code, globals(), ldict)]: the code ran to its end,
    or it raised, in which case [traceback.format_exc()] yields the text
    carried here.  Either way the browser has moved on. *)
Inductive ExecResult (W : Type) : Type :=
| Finished (w : W)
| Raised (format_exc : string) (w : W).

Arguments Finished {W}.
Arguments Raised {W}.

(** The browser and everything else generated code can reach through
    [env].  [W] is its state.  Generated code is taken to act on the
    browser only, not on the compiler; closing the session is taken to
    succeed. *)
Record Browser (W : Type) : Type := mkBrowser {
  chrome : string -> string -> bool -> W;
  exec : string -> W -> ExecResult W;
  driver_quit : W -> W
}.

Arguments chrome {W}.
Arguments exec {W}.
Arguments driver_quit {W}.

(** ** Exceptions, observable events and the engine monad *)

Inductive Exn : Type :=
| SystemExit (code : Z)
| AssertionError (message : string)
| IndexError
| ValueError
| ExecError (format_exc : string).

Inductive Event : Type :=
| EvChrome
| EvStep (r : StepResult)
| EvRetry (feedback : string) (r : StepResult)
| EvExec (code : string) (succeeded : bool)
| EvDanger (code : string)
| EvBreakpoint
| EvSave (file : string)
| EvQuit.

(** How a call ends: it returns, it is left by an exception, or the
    model's loop bound was too small for the loop to finish. *)
Inductive Result (A : Type) : Type :=
| Returns (a : A)
| Raises (e : Exn)
| OutOfFuel.

Arguments Returns {A}.
Arguments Raises {A}.
Arguments OutOfFuel {A}.

Record Machine (C W : Type) : Type := mkMachine {
  compiler : C;
  world : W
}.

Arguments mkMachine {C W}.
Arguments compiler {C W}.
Arguments world {C W}.

Record Reply (C W A : Type) : Type := mkReply {
  outcome : Result A;
  final : Machine C W;
  events : list Event
}.

Arguments mkReply {C W A}.
Arguments outcome {C W A}.
Arguments final {C W A}.
Arguments events {C W A}.

Definition EngineM (C W A : Type) : Type := Machine C W -> Reply C W A.

Definition ret {C W A : Type} (a : A) : EngineM C W A :=
  fun m => mkReply (Returns a) m [].

Definition raise {C W A : Type} (e : Exn) : EngineM C W A :=
  fun m => mkReply (Raises e) m [].

Definition emit {C W : Type} (e : Event) : EngineM C W unit :=
  fun m => mkReply (Returns tt) m [e].

Definition bind {C W A B : Type} (x : EngineM C W A) (k : A -> EngineM C W B)
  : EngineM C W B :=
  fun m =>
    let r := x m in
    match outcome r with
    | Returns a =>
        let r' := k a (final r) in
        mkReply (outcome r') (final r') (events r ++ events r')%list
    | Raises e => mkReply (Raises e) (final r) (events r)
    | OutOfFuel => mkReply OutOfFuel (final r) (events r)
    end.

Declare Scope engine_scope.
Delimit Scope engine_scope with engine.
Notation "x <- c ;; k" := (bind c (fun x => k))
  (at level 100, c at next level, right associativity) : engine_scope.
Notation "c ;; k" := (bind c (fun _ => k))
  (at level 100, right associativity) : engine_scope.

(** An [Exn + A] computed without effects, raised or returned. *)
Definition lift {C W A : Type} (x : Exn + A) : EngineM C W A :=
  match x with
  | inl e => raise e
  | inr a => ret a
  end.

(** ** The failure context extractor *)

Definition class_name : string := "GPTSeleniumAgent".

Record StackTraceResult : Type := mkTrace {
  stack_trace : string;
  line_num : Z
}.

(** The two lines of the trace the engine keeps, with the class name
    replaced. *)
Definition trimmed_trace (format_exc : string) : string :=
  let stack_trace := Py.slice 3 5 (Py.split Py.nl format_exc) in
  let stack_trace := Py.join Py.nl stack_trace in
  Py.replace class_name "env" stack_trace.

(** [__get_relevant_part_of_stack_trace], as a function of what
    [traceback.format_exc()] returns. *)
Definition get_relevant_part_of_stack_trace (format_exc : string)
  : Exn + StackTraceResult :=
  let stack_trace := trimmed_trace format_exc in
  match nth_error (Py.split "line " stack_trace) 1 with
  | None => inl IndexError
  | Some after =>
      match Py.int (hd EmptyString (Py.split "," after)) with
      | None => inl ValueError
      | Some n => inr (mkTrace stack_trace n)
      end
  end.

(** The lines of the action the line number is looked up in. *)
Definition action_lines (action : string) : list string :=
  Py.split Py.nl (Py.replace (Py.nl ++ Py.nl) Py.nl action).

(** The text [problem_instruction] of the handler. *)
Definition problem_instruction (action : string) (line_num : Z)
  : Exn + string :=
  match Py.index (action_lines action) (line_num - 1) with
  | None => inl IndexError
  | Some line => inr (Py.nl ++ "Failed on line: " ++ line ++ Py.nl)
  end.

(** Code fences are removed from every action before it is used. *)
Definition strip_fences (action : string) : string :=
  Py.replace "```" "" action.

(** ** The engine *)

Record Agent : Type := mkAgent {
  instruction_output_file : option string;
  debug : bool
}.

Section Engine.

Context {C W : Type}.
Variable ic : Compiler C.
Variable br : Browser W.

Local Open Scope engine_scope.
Local Abbreviation M := (EngineM C W).

Definition compiler_step : M StepResult :=
  fun m =>
    let (r, c) := step ic (compiler m) in
    mkReply (Returns r) (mkMachine c (world m)) [EvStep r].

Definition compiler_retry (feedback : string) : M StepResult :=
  fun m =>
    let (r, c) := retry ic feedback (compiler m) in
    mkReply (Returns r) (mkMachine c (world m)) [EvRetry feedback r].

Definition compiler_save (file : string) : M unit :=
  fun m =>
    mkReply (Returns tt)
      (mkMachine (save_compiled_instructions ic file (compiler m)) (world m))
      [EvSave file].

(** [exec(code, globals(), ldict)] under [try]: [None] when the code ran
    to its end, the text of the trace when it raised. *)
Definition try_exec (code : string) : M (option string) :=
  fun m =>
    match exec br code (world m) with
    | Finished w =>
        mkReply (Returns None) (mkMachine (compiler m) w) [EvExec code true]
    | Raised tb w =>
        mkReply (Returns (Some tb)) (mkMachine (compiler m) w)
          [EvExec code false]
    end.

(** [exec(code, globals(), ldict)] outside any [try]. *)
Definition exec_code (code : string) : M unit :=
  r <- try_exec code ;;
  match r with
  | None => ret tt
  | Some tb => raise (ExecError tb)
  end.

(** [exec("env.driver.quit()", globals(), ldict)]: session teardown. *)
Definition quit : M unit :=
  fun m =>
    mkReply (Returns tt) (mkMachine (compiler m) (driver_quit br (world m)))
      [EvQuit].

(** [_check_danger]: [sys.exit(1)] on a rejection. *)
Definition check_danger (action_str : string) : M unit :=
  if is_potentially_dangerous action_str then
    emit (EvDanger action_str) ;; raise (SystemExit 1)
  else ret tt.

(** [__run_compiled_instructions]. *)
Definition run_compiled_instructions (instructions : string) : M unit :=
  check_danger instructions ;;
  exec_code instructions ;;
  quit.

(** The [except] branch of the step loop: it returns the action the next
    attempt runs. *)
Definition recover (agent : Agent) (action format_exc : string) : M string :=
  stack_trace_result <- lift (get_relevant_part_of_stack_trace format_exc) ;;
  problem <- lift (problem_instruction action
                     (line_num stack_trace_result)) ;;
  (if debug agent then emit EvBreakpoint else ret tt) ;;
  step <- compiler_retry (problem ++ stack_trace stack_trace_result) ;;
  ret (strip_fences (action_output step)).

(** [while attempts < 3], with [remaining = 3 - attempts]. *)
Fixpoint attempt_evals (agent : Agent) (remaining : nat) (action : string)
  : M unit :=
  match remaining with
  | O => ret tt
  | S k =>
      r <- try_exec action ;;
      match r with
      | None => ret tt
      | Some format_exc =>
          action' <- recover agent action format_exc ;;
          attempt_evals agent k action'
      end
  end.

Definition max_attempts : nat := 3.

(** The body of [while self.instruction_compiler.instructions_queue]. *)
Definition loop_body (agent : Agent) : M unit :=
  step <- compiler_step ;;
  let action := strip_fences (action_output step) in
  check_danger action ;;
  attempt_evals agent max_attempts action.

(** The outer loop; [fuel] bounds the number of iterations. *)
Fixpoint drain (agent : Agent) (fuel : nat) : M unit :=
  fun m =>
    match instructions_queue ic (compiler m) with
    | [] => ret tt m
    | _ :: _ =>
        match fuel with
        | O => mkReply OutOfFuel m []
        | S k => (loop_body agent ;; drain agent k) m
        end
    end.

(** [__step_through_instructions]. *)
Definition step_through_instructions (agent : Agent) (fuel : nat) : M unit :=
  drain agent fuel ;;
  match instruction_output_file agent with
  | Some file =>
      if (file =? "")%string then ret tt else compiler_save file
  | None => ret tt
  end ;;
  quit.

(** [run]. *)
Definition run (agent : Agent) (fuel : nat) : M unit :=
  fun m =>
    let should_use_compiled := use_compiled ic (compiler m) in
    let compiled := compiled_instructions ic (compiler m) in
    if should_use_compiled &&
       match compiled with [] => false | _ :: _ => true end
    then
      let instructions := compiled_instructions ic (compiler m) in
      let instructions := strip_fences (Py.join Py.nl instructions) in
      run_compiled_instructions instructions m
    else step_through_instructions agent fuel m.

(** What a call of the constructor leaves behind. *)
Record Built : Type := mkBuilt {
  built : Exn + (Agent * Machine C W);
  init_events : list Event
}.

(** [__init__]: the assertion, then the browser session, then the
    compiler. *)
Definition init (instructions chromedriver_path user_data_dir : string)
  (headless debug : bool) (instruction_output_file : option string) : Built :=
  if match instruction_output_file with
     | None => true
     | Some file => Py.endswith file ".yaml"
     end
  then
    let driver := chrome br chromedriver_path user_data_dir headless in
    mkBuilt
      (inr (mkAgent instruction_output_file debug,
            mkMachine (create ic instructions) driver))
      [EvChrome]
  else
    mkBuilt
      (inl (AssertionError
              "Instruction output file must be a YAML file or None."))
      [].

End Engine.

(** ** A scripted compiler and browser, for concrete runs *)

Module Bench.

(** Modelled from the spec: a stand-in for [InstructionCompiler] (not part
    of the sources at hand) that keeps the queue as the interface section
    says: [step] takes the instruction at the front, [retry] answers for
    the instruction taken last.  This is its state. *)
Record Desk : Type := mkDesk {
  queue : list string;
  caching : bool;
  plan : list string;
  current : string;
  tries : nat;
  saved_to : list string
}.

(** The scripted language model: an instruction lists, separated by [|],
    the action of the first attempt, of the first retry, and so on; the
    last one is repeated. *)
Definition script (instr : string) (attempt : nat) : string :=
  let texts := Py.split "|" instr in
  nth attempt texts (last texts EmptyString).

Definition desk_step (d : Desk) : StepResult * Desk :=
  match queue d with
  | [] => (mkStep EmptyString EmptyString, d)
  | i :: q =>
      let a := script i 0 in
      (mkStep i a,
       mkDesk q (caching d) (plan d ++ [a])%list i 0 (saved_to d))
  end.

Definition desk_retry (feedback : string) (d : Desk) : StepResult * Desk :=
  let a := script (current d) (S (tries d)) in
  (mkStep (current d) a,
   mkDesk (queue d) (caching d) (removelast (plan d) ++ [a])%list
     (current d) (S (tries d)) (saved_to d)).

Definition desk_save (file : string) (d : Desk) : Desk :=
  mkDesk (queue d) (caching d) (plan d) (current d) (tries d)
    (file :: saved_to d).

Definition desk_create (instructions : string) : Desk :=
  mkDesk (Py.split Py.nl instructions) false [] EmptyString 0 [].

Definition desk : Compiler Desk :=
  mkCompiler Desk desk_create queue caching plan desk_step desk_retry
    desk_save.

(** The state of the scripted browser: the code run so far and whether the
    session is open. *)
Record Tab : Type := mkTab {
  ran : list string;
  open : bool
}.

Definition dq : string := String (ascii_of_nat 34) "".

(** The 1-based number of the first line of [lines] that mentions
    [missing], counting from [n]. *)
Fixpoint first_bad (n : nat) (lines : list string) : option nat :=
  match lines with
  | [] => None
  | l :: rest =>
      if Py.contains "missing" l then Some n else first_bad (S n) rest
  end.

Definition decimal (n : nat) : string :=
  DecimalString.NilEmpty.string_of_uint (Nat.to_uint n).

(** The text [traceback.format_exc()] gives when line [n] of the code
    passed to [exec] names something undefined. *)
Definition name_error_trace (n : nat) : string :=
  "Traceback (most recent call last):" ++ Py.nl ++
  "  File " ++ dq ++ "/app/browserpilot/agents/gpt_selenium_agent.py" ++ dq
    ++ ", line 182, in __step_through_instructions" ++ Py.nl ++
  "    exec(action, globals(), ldict)" ++ Py.nl ++
  "  File " ++ dq ++ "<string>" ++ dq ++ ", line " ++ decimal n
    ++ ", in <module>" ++ Py.nl ++
  "NameError: name 'missing' is not defined" ++ Py.nl.

(** The scripted browser: code that mentions [missing] raises at the first
    line that does; any other code runs to its end. *)
Definition tab_exec (code : string) (t : Tab) : ExecResult Tab :=
  match first_bad 1 (Py.split Py.nl code) with
  | Some n => Raised (name_error_trace n) t
  | None => Finished (mkTab (ran t ++ [code])%list (open t))
  end.

Definition tab : Browser Tab :=
  mkBrowser Tab (fun _ _ _ => mkTab [] true) tab_exec
    (fun t => mkTab (ran t) false).

Definition start (instrs : list string) : Machine Desk Tab :=
  mkMachine (mkDesk instrs false [] EmptyString 0 []) (mkTab [] true).

Definition cached (actions : list string) : Machine Desk Tab :=
  mkMachine (mkDesk [] true actions EmptyString 0 []) (mkTab [] true).

Definition plain : Agent := mkAgent None false.

End Bench.

(** ** Notions the properties are stated with *)

(** [sub] occurs in [s]. *)
Definition occurs (sub s : string) : Prop :=
  exists pre post, s = pre ++ sub ++ post.

(** The occurrence of [sep] at the end of [pre] in [s] is the leftmost
    one. *)
Definition leftmost (sep pre s : string) : Prop :=
  forall p q, s = p ++ sep ++ q -> String.length pre <= String.length p.

(** What the gate looks for in a piece of code: the keyword of an import
    statement followed by a space, or one of the three denied names. *)
Definition flagged (code : string) : Prop :=
  occurs "import " code \/
  exists name, In name ["shutil"; "requests"; "urllib"] /\ occurs name code.

(** Following the spec's words, not the code: a module-import statement.
    In code written one statement to a line, a line is an import
    statement exactly when, after its indentation, it begins with the
    keyword [import] or the keyword [from]; a keyword ends where a name
    could not go on. *)
Definition name_char (c : ascii) : bool :=
  let n := nat_of_ascii c in
  ((48 <=? n) && (n <=? 57) || (65 <=? n) && (n <=? 90) ||
   (97 <=? n) && (n <=? 122) || (n =? 95))%nat.

Definition begins_with_keyword (keyword line : string) : bool :=
  prefix keyword line &&
  match Py.drop (String.length keyword) line with
  | EmptyString => true
  | String c _ => negb (name_char c)
  end.

Definition spec_import_statement (line : string) : bool :=
  let statement := Py.lstrip line in
  begins_with_keyword "import" statement ||
  begins_with_keyword "from" statement.

(** Following the spec's words, not the code: the text contains a
    module-import statement or a denylisted name. *)
Definition spec_rejects (code : string) : bool :=
  existsb spec_import_statement (Py.split Py.nl code) ||
  existsb (fun name => Py.contains name code) ["shutil"; "requests"; "urllib"].

(** Kinds of events. *)
Definition is_step (e : Event) : bool :=
  match e with EvStep _ => true | _ => false end.

Definition is_retry (e : Event) : bool :=
  match e with EvRetry _ _ => true | _ => false end.

Definition is_exec (e : Event) : bool :=
  match e with EvExec _ _ => true | _ => false end.

Definition is_danger (e : Event) : bool :=
  match e with EvDanger _ => true | _ => false end.

Definition is_quit (e : Event) : bool :=
  match e with EvQuit => true | _ => false end.

Definition count (kind : Event -> bool) (evs : list Event) : nat :=
  List.length (filter kind evs).

(** How often the compiler was asked to retry, how many pieces of code were
    executed, how often the session was closed. *)
Definition retries : list Event -> nat := count is_retry.
Definition executions : list Event -> nat := count is_exec.
Definition teardowns : list Event -> nat := count is_quit.

(** The instructions [step] handed out, in the order of the calls. *)
Fixpoint stepped (evs : list Event) : list string :=
  match evs with
  | [] => []
  | EvStep r :: rest => instruction r :: stepped rest
  | _ :: rest => stepped rest
  end.

(** The events the turns of the step loop can give rise to. *)
Definition of_loop (e : Event) : bool :=
  match e with
  | EvStep _ | EvRetry _ _ | EvExec _ _ | EvDanger _ | EvBreakpoint => true
  | EvChrome | EvSave _ | EvQuit => false
  end.

(** Neither a teardown nor a rejection among the events. *)
Definition calm (evs : list Event) : Prop :=
  forall e, In e evs -> is_quit e = false /\ is_danger e = false.

(** A reply with earlier events put in front. *)
Definition after {C W A : Type} (evs : list Event) (r : Reply C W A)
  : Reply C W A :=
  mkReply (outcome r) (final r) (evs ++ events r)%list.

(** The state of the browser an execution leaves, however it ended. *)
Definition landing {W : Type} (x : ExecResult W) : W :=
  match x with
  | Finished w => w
  | Raised _ w => w
  end.

(** A computation that does not close a session it finds open; [closed]
    says which states of the browser are those of a closed session. *)
Definition keeps_open {C W A : Type} (closed : W -> Prop)
  (x : EngineM C W A) : Prop :=
  forall m, ~ closed (world m) -> ~ closed (world (final (x m))).

(** How a piece of the step loop can end: without teardown, and with a
    rejection only as the very last event, under [sys.exit(1)]. *)
Inductive loop_ending {A : Type} : Result A -> list Event -> Prop :=
| ending_returns a evs :
    calm evs -> loop_ending (Returns a) evs
| ending_exit code evs :
    calm evs -> is_potentially_dangerous code = true ->
    loop_ending (Raises (SystemExit 1)) (evs ++ [EvDanger code])%list
| ending_raises e evs :
    calm evs -> (forall n, e <> SystemExit n) ->
    loop_ending (Raises e) evs
| ending_fuel evs :
    calm evs -> loop_ending OutOfFuel evs.

(** How [run] can end: a normal return has the teardown as its last
    event; every other ending is one of the loop's. *)
Inductive run_ending {A : Type} : Result A -> list Event -> Prop :=
| run_returns a evs :
    calm evs -> run_ending (Returns a) (evs ++ [EvQuit])%list
| run_stops o evs :
    (forall a, o <> Returns a) -> loop_ending o evs -> run_ending o evs.

Section Scenarios.

Context {C W : Type}.
Variable ic : Compiler C.
Variable br : Browser W.
Variable agent : Agent.

(** [failing k a m a' m' evs]: starting with the action [a] in the machine
    [m], [k] actions in a row fail when executed; each failure yields a
    diagnostic, with which the compiler is asked for the next action.
    [a'] is the action generated last, [m'] the machine it is to run in,
    [evs] what was observed on the way. *)
Inductive failing : nat -> string -> Machine C W -> string -> Machine C W ->
                    list Event -> Prop :=
| failing_none a m : failing 0 a m a m []
| failing_more k a m format_exc w trace problem r c a' m' evs :
    exec br a (world m) = Raised format_exc w ->
    get_relevant_part_of_stack_trace format_exc = inr trace ->
    problem_instruction a (line_num trace) = inr problem ->
    retry ic (problem ++ stack_trace trace) (compiler m) = (r, c) ->
    failing k (strip_fences (action_output r)) (mkMachine c w) a' m' evs ->
    failing (S k) a m a' m'
      (EvExec a false ::
       (if debug agent then [EvBreakpoint] else []) ++
       EvRetry (problem ++ stack_trace trace) r :: evs)%list.

(** [first_try n m m' evs]: from the machine [m] on, each of the next [n]
    actions the compiler generates passes the gate and runs to its end
    when it is executed for the first time.  [m'] is the machine after
    the last of them, [evs] what was observed on the way: for each action
    the call of [step] that gave it and its execution. *)
Inductive first_try : nat -> Machine C W -> Machine C W -> list Event ->
                      Prop :=
| first_try_none m : first_try 0 m m []
| first_try_more n m w m' evs :
    is_potentially_dangerous
      (strip_fences (action_output (fst (step ic (compiler m))))) = false ->
    exec br (strip_fences (action_output (fst (step ic (compiler m)))))
      (world m) = Finished w ->
    first_try n (mkMachine (snd (step ic (compiler m))) w) m' evs ->
    first_try (S n) m m'
      (EvStep (fst (step ic (compiler m))) ::
       EvExec (strip_fences (action_output (fst (step ic (compiler m)))))
         true :: evs).

(** A computation that ends whatever the fuel and leaves the queue of
    pending instructions as it found it. *)
Definition steady {A : Type} (x : EngineM C W A) : Prop :=
  forall m,
    outcome (x m) <> OutOfFuel /\
    instructions_queue ic (compiler (final (x m))) =
    instructions_queue ic (compiler m).

(** A computation whose every reply ends as a piece of the loop may. *)
Definition loop_like {A : Type} (x : EngineM C W A) : Prop :=
  forall m, loop_ending (outcome (x m)) (events (x m)).

(** A computation all of whose events are events of the loop. *)
Definition loop_events {A : Type} (x : EngineM C W A) : Prop :=
  forall m, Forall (fun e => of_loop e = true) (events (x m)).

End Scenarios.

(** ** More of the agent *)

(** *** [get]: the address handed to the driver *)

(** [s.startswith(p)]. *)
Definition startswith (s p : string) : bool := prefix p s.

(** The address [get] passes to [self.driver.get]. *)
Definition get_target (url : string) : string :=
  if negb (startswith url "http") then "http://" ++ url else url.

(** *** [retrieve_information]: sentences are indexed five at a time *)

(** [range(start, stop, step)] for a positive [step]; no more than
    [rounds] numbers are produced, and [stop] rounds are always enough. *)
Fixpoint range_from (rounds start stop step : nat) : list nat :=
  match rounds with
  | O => []
  | S k =>
      if (start <? stop)%nat
      then start :: range_from k (start + step) stop step
      else []
  end.

(** [range(0, stop, step)]. *)
Definition range0 (stop step : nat) : list nat := range_from stop 0 stop step.

(** The slices [sentences[i : i + 5]] the loop takes. *)
Definition sentence_groups (sentences : list string) : list (list string) :=
  map (fun i => Py.slice i (i + 5) sentences)
      (range0 (List.length sentences) 5).

(** The texts of the documents the loop appends to [docs]. *)
Definition sentence_docs (sentences : list string) : list string :=
  map (fun i => Py.join " " (Py.slice i (i + 5) sentences))
      (range0 (List.length sentences) 5).

(** *** [get_llm_response] *)

(** The values passed for [temperature] and [model]: a number written as
    in the source, or a text. *)
Inductive PyValue : Type :=
| PyFloat (literal : string)
| PyInt (n : Z)
| PyStr (s : string).

(** The arguments of [openai.Completion.create] that vary; [max_tokens],
    [top_p], the two penalties and [best_of] are the same in every call. *)
Record CompletionRequest : Type := mkRequest {
  req_model : PyValue;
  req_prompt : string;
  req_temperature : PyValue
}.

(** What [openai.Completion.create] does: it answers with the texts of
    its choices, it raises [RateLimitError], or it raises something
    else. *)
Inductive ApiResult : Type :=
| ApiResponse (choices : list string)
| ApiRateLimit (message : string)
| ApiError (message : string).

(** The completion service; [X] is its state. *)
Record Service (X : Type) : Type := mkService {
  completion_create : CompletionRequest -> X -> ApiResult * X
}.

Arguments completion_create {X}.

Inductive LlmEvent : Type :=
| LlmRequest (r : CompletionRequest)
| LlmSleep (seconds : Z).

(** How [get_llm_response] ends: with the text, with [IndexError] from
    the first of the choices, with the service's other exception, or with
    the recursion too deep for the model's bound. *)
Inductive LlmResult : Type :=
| LlmText (text : string)
| LlmIndexError
| LlmRaised (message : string)
| LlmTooDeep.

Definition default_temperature : PyValue := PyFloat "0.7".
Definition default_model : PyValue := PyStr "text-davinci-003".

(** [get_llm_response(prompt, temperature, model)]; [depth] bounds the
    recursion.  The recursive call passes [model] in the place of
    [temperature] and leaves [model] to its default. *)
Fixpoint get_llm_response {X : Type} (sv : Service X) (depth : nat)
  (prompt : string) (temperature model : PyValue) (s : X)
  : LlmResult * X * list LlmEvent :=
  match depth with
  | O => (LlmTooDeep, s, [])
  | S d =>
      let request := mkRequest model prompt temperature in
      match completion_create sv request s with
      | (ApiResponse [], s1) => (LlmIndexError, s1, [LlmRequest request])
      | (ApiResponse (text :: _), s1) => (LlmText text, s1, [LlmRequest request])
      | (ApiError message, s1) => (LlmRaised message, s1, [LlmRequest request])
      | (ApiRateLimit _, s1) =>
          let '(r, s2, evs) :=
            get_llm_response sv d prompt model default_model s1 in
          (r, s2, LlmRequest request :: LlmSleep 5 :: evs)
      end
  end.

(** [k] calls in a row are answered by [RateLimitError], the first of
    them made with [temperature] and [model] in the state [s]; [s'] is
    the state after the last of them, and [t'] and [m'] are the
    temperature and the model of the call that comes next. *)
Inductive rate_limited {X : Type} (sv : Service X) (prompt : string)
  : nat -> PyValue -> PyValue -> X -> PyValue -> PyValue -> X -> Prop :=
| limited_none t m s : rate_limited sv prompt 0 t m s t m s
| limited_more k t m s message s1 t' m' s' :
    completion_create sv (mkRequest m prompt t) s =
      (ApiRateLimit message, s1) ->
    rate_limited sv prompt k m default_model s1 t' m' s' ->
    rate_limited sv prompt (S k) t m s t' m' s'.

Definition llm_requests (evs : list LlmEvent) : list CompletionRequest :=
  flat_map (fun e => match e with LlmRequest r => [r] | LlmSleep _ => [] end)
           evs.

Definition llm_sleeps (evs : list LlmEvent) : list Z :=
  flat_map (fun e => match e with LlmSleep n => [n] | LlmRequest _ => [] end)
           evs.

(** *** [ask_llm_to_find_element]: the XPath handed to the driver *)

(** The double quote. *)
Definition quote : string := String (ascii_of_nat 34) "".

(** The response stripped, then with every double quote removed: the
    [value] of the lookup. *)
Definition xpath_of_response (response : string) : string :=
  Py.replace quote "" (Py.strip response).

(** *** [_clean_html]: attributes that are removed *)

Module Re.

(** The patterns of the agent: characters that stand for themselves, each
    of them possibly followed by a star. *)
Inductive Atom : Type :=
| Lit (c : ascii)
| Star (c : ascii).

Fixpoint parse (pattern : string) : list Atom :=
  match pattern with
  | EmptyString => []
  | String c rest =>
      match rest with
      | String "*" rest' => Star c :: parse rest'
      | _ => Lit c :: parse rest
      end
  end.

(** Some prefix of [s] matches [atoms]. *)
Fixpoint match_here (atoms : list Atom) (s : string) : bool :=
  match atoms with
  | [] => true
  | Lit c :: rest =>
      match s with
      | String d t => (c =? d)%char && match_here rest t
      | EmptyString => false
      end
  | Star c :: rest =>
      (fix star (s : string) : bool :=
         match_here rest s ||
         match s with
         | String d t => (c =? d)%char && star t
         | EmptyString => false
         end) s
  end.

(** [re.match(pattern, s)] finds a match. *)
Definition matches (pattern s : string) : bool :=
  match_here (parse pattern) s.

End Re.

(** The set [blacklisted_attributes], in the order it is written. *)
Definition blacklisted_attributes : list string :=
  ["style"; "ping"; "src"; "item*"; "aria*"; "js*"; "data-*"].

(** [del tag[attr]]: the attributes without [attr]; [None] when there is
    no attribute [attr] to delete. *)
Fixpoint del_key {V : Type} (attr : string) (attrs : list (string * V))
  : option (list (string * V)) :=
  match attrs with
  | [] => None
  | (k, v) :: rest =>
      if (attr =? k)%string then Some rest
      else option_map (cons (k, v)) (del_key attr rest)
  end.

(** The inner loop of [remove_blacklisted_attributes] for one attribute;
    [patterns] is the set in the order the loop meets it.  [inl attr]
    is a deletion of [attr] that finds it already gone. *)
Fixpoint delete_matching {V : Type} (patterns : list string) (attr : string)
  (attrs : list (string * V)) : string + list (string * V) :=
  match patterns with
  | [] => inr attrs
  | pattern :: rest =>
      if Re.matches pattern attr then
        match del_key attr attrs with
        | None => inl attr
        | Some attrs' => delete_matching rest attr attrs'
        end
      else delete_matching rest attr attrs
  end.

(** The outer loop, over the names in [tag.attrs.copy()]. *)
Fixpoint delete_all {V : Type} (patterns names : list string)
  (attrs : list (string * V)) : string + list (string * V) :=
  match names with
  | [] => inr attrs
  | attr :: rest =>
      match delete_matching patterns attr attrs with
      | inl k => inl k
      | inr attrs' => delete_all patterns rest attrs'
      end
  end.

(** [remove_blacklisted_attributes(tag, blacklisted_attributes)], on the
    attributes of the tag. *)
Definition remove_blacklisted_attributes {V : Type} (patterns : list string)
  (attrs : list (string * V)) : string + list (string * V) :=
  delete_all patterns (map fst attrs) attrs.

(** The beginnings of the attribute names the patterns match. *)
Definition blacklisted_stems : list string :=
  ["style"; "ping"; "src"; "ite"; "ari"; "j"; "data"].

Definition has_blacklisted_stem (attr : string) : bool :=
  existsb (fun stem => prefix stem attr) blacklisted_stems.

(** *** Further notions for the engine *)

Definition is_save (e : Event) : bool :=
  match e with EvSave _ => true | _ => false end.

(** What the step loop persists once the queue is drained:
    [if self.instruction_output_file], an empty name counting as none. *)
Definition persisted (agent : Agent) : list Event :=
  match instruction_output_file agent with
  | Some file => if (file =? "")%string then [] else [EvSave file]
  | None => []
  end.

(** The compiler once the step loop has persisted what it is to
    persist. *)
Definition persist {C : Type} (ic : Compiler C) (agent : Agent) (c : C) : C :=
  match instruction_output_file agent with
  | Some file =>
      if (file =? "")%string then c else save_compiled_instructions ic file c
  | None => c
  end.

(** [run] takes the replay path in the machine [m]. *)
Definition replays {C W : Type} (ic : Compiler C) (m : Machine C W) : bool :=
  use_compiled ic (compiler m) &&
  match compiled_instructions ic (compiler m) with
  | [] => false
  | _ :: _ => true
  end.

(** Every group but the last has exactly [n] members, and the last has
    between one and [n]. *)
Fixpoint full_but_last {A : Type} (n : nat) (groups : list (list A)) : Prop :=
  match groups with
  | [] => True
  | [g] => 1 <= List.length g <= n
  | g :: rest => List.length g = n /\ full_but_last n rest
  end.

(** The last character of a text. *)
Fixpoint last_char (s : string) : option ascii :=
  match s with
  | EmptyString => None
  | String c EmptyString => Some c
  | String _ t => last_char t
  end.

(** A text made of the character [c] only. *)
Fixpoint all_char (c : ascii) (s : string) : bool :=
  match s with
  | EmptyString => true
  | String d t => (c =? d)%char && all_char c t
  end.

(** The atoms of a pattern without stars. *)
Definition literal_atoms (stem : string) : list Re.Atom :=
  map Re.Lit (list_ascii_of_string stem).

(** How many of the patterns match the name of an attribute. *)
Definition match_count (patterns : list string) (attr : string) : nat :=
  List.length (filter (fun pattern => Re.matches pattern attr) patterns).

(** A completion service that answers from a script, one entry for each
    call, for concrete runs. *)
Definition scripted : Service (list ApiResult) :=
  mkService (list ApiResult)
    (fun _ script =>
       match script with
       | [] => (ApiError "script exhausted", [])
       | answer :: rest => (answer, rest)
       end).

(** The character [c] does not occur in [s]. *)
Fixpoint lacks (c : ascii) (s : string) : bool :=
  match s with
  | EmptyString => true
  | String d t => negb (c =? d)%char && lacks c t
  end.

(** [str(n)] for a natural number. *)
Definition str_of_nat (n : nat) : string :=
  NilEmpty.string_of_uint (Nat.to_uint n).

(** The line of a trace that stands for line [n] of the code passed to
    [exec]: the file is shown as [<string>], the frame as [<module>]. *)
Definition string_frame_line (n : nat) : string :=
  "  File " ++ quote ++ "<string>" ++ quote ++ ", line " ++ str_of_nat n ++
  ", in <module>".

(** What separates two lines of an action: a line break, or a line break
    and a blank line. *)
Definition line_gap (blank : bool) : string :=
  if blank then Py.nl ++ Py.nl else Py.nl.

(** *** [_clean_html]: the page as a tree *)

(** What the parser hands back: text, and tags with their attributes and
    their content. *)
#[local] Set Warnings "-register-all".
Inductive Node : Type :=
| Text (s : string)
| Tag (name : string) (attrs : list (string * string))
      (children : list Node).

(** The set [blacklisted_elements], in the order it is written. *)
Definition blacklisted_elements : list string :=
  ["head"; "title"; "meta"; "script"; "style"; "path"; "svg"; "br";
   "::marker"].

(** [find_all(True)]: the tags below a node and the node itself, in the
    order of the document, each with its attributes. *)
Fixpoint tags (n : Node) : list (string * list (string * string)) :=
  match n with
  | Text _ => []
  | Tag name attrs children => (name, attrs) :: flat_map tags children
  end.

(** [for tag in soup.find_all(name): tag.decompose()], seen from one
    node: the node and what is below it, without the tags called
    [name] and their content. *)
Fixpoint decompose_named (name : string) (n : Node) : list Node :=
  match n with
  | Text s => [Text s]
  | Tag t attrs children =>
      if (t =? name)%string then []
      else [Tag t attrs (flat_map (decompose_named name) children)]
  end.

(** The first loop of [_clean_html]; [names] is the set in the order the
    loop meets it. *)
Definition remove_elements (names : list string) (soup : list Node)
  : list Node :=
  fold_left (fun page name => flat_map (decompose_named name) page)
            names soup.

(** Apply [f] to the members of a list in turn, stopping at the first
    failure. *)
Fixpoint each {A B : Type} (f : A -> string + B) (l : list A)
  : string + list B :=
  match l with
  | [] => inr []
  | x :: rest =>
      match f x with
      | inl k => inl k
      | inr y =>
          match each f rest with
          | inl k => inl k
          | inr ys => inr (y :: ys)
          end
      end
  end.

(** The second loop of [_clean_html], seen from one node:
    [remove_blacklisted_attributes] on the node, then on what is below
    it. *)
Fixpoint clean_attributes (patterns : list string) (n : Node)
  : string + Node :=
  match n with
  | Text s => inr (Text s)
  | Tag t attrs children =>
      match remove_blacklisted_attributes patterns attrs with
      | inl k => inl k
      | inr attrs' =>
          match each (clean_attributes patterns) children with
          | inl k => inl k
          | inr children' => inr (Tag t attrs' children')
          end
      end
  end.

(** [_clean_html] on the parsed page; [names] and [patterns] are the two
    sets in the order the loops meet them. *)
Definition clean_html (names patterns : list string) (soup : list Node)
  : string + list Node :=
  each (clean_attributes patterns) (remove_elements names soup).

(** Induction on nodes that reaches the children of a tag. *)
Fixpoint Node_induction (P : Node -> Prop)
  (text : forall s, P (Text s))
  (tag : forall t attrs children, Forall P children ->
                                  P (Tag t attrs children))
  (n : Node) : P n :=
  match n with
  | Text s => text s
  | Tag t attrs children =>
      tag t attrs children
        ((fix all (l : list Node) : Forall P l :=
            match l with
            | [] => Forall_nil P
            | x :: rest =>
                Forall_cons x (Node_induction P text tag x) (all rest)
            end) children)
  end.

(** The attributes whose names begin with none of the stems. *)
Definition kept_attributes (attrs : list (string * string))
  : list (string * string) :=
  filter (fun kv => negb (has_blacklisted_stem (fst kv))) attrs.

(** A node with only the kept attributes on every tag. *)
Fixpoint cleaned (n : Node) : Node :=
  match n with
  | Text s => Text s
  | Tag t attrs children => Tag t (kept_attributes attrs) (map cleaned children)
  end.

(** A node and what is below it, without the tags whose names are among
    [names] and their content. *)
Fixpoint prune (names : list string) (n : Node) : list Node :=
  match n with
  | Text s => [Text s]
  | Tag t attrs children =>
      if existsb (String.eqb t) names then []
      else [Tag t attrs (flat_map (prune names) children)]
  end.

(** ** Facts about the Python built-ins *)

Lemma append_assoc (a b c : string) : (a ++ b) ++ c = a ++ (b ++ c).
Proof.
  induction a as [|x a IH]; simpl; [reflexivity | now rewrite IH].
Qed.

Lemma append_nil_r (a : string) : a ++ "" = a.
Proof.
  induction a as [|x a IH]; simpl; [reflexivity | now rewrite IH].
Qed.

Lemma length_append (a b : string) :
  String.length (a ++ b) = String.length a + String.length b.
Proof.
  induction a as [|x a IH]; simpl; [reflexivity | now rewrite IH].
Qed.

Lemma drop_append (a b : string) : Py.drop (String.length a) (a ++ b) = b.
Proof.
  induction a as [|x a IH]; simpl; [now destruct b | exact IH].
Qed.

Lemma prefix_iff (p s : string) :
  prefix p s = true <-> exists t, s = p ++ t.
Proof.
  revert s; induction p as [|x p IH]; intros s; simpl.
  - destruct s; split; intros; eauto.
  - destruct s as [|y s].
    + split; [discriminate | intros [t Ht]; discriminate].
    + simpl. destruct (ascii_dec x y) as [->|Hxy].
      * rewrite IH. split; intros [t Ht]; exists t.
        -- now rewrite Ht.
        -- now inversion Ht.
      * split; [discriminate | intros [t Ht]; inversion Ht; congruence].
Qed.

Lemma prefix_drop (p s : string) :
  prefix p s = true -> s = p ++ Py.drop (String.length p) s.
Proof.
  intros H. apply prefix_iff in H. destruct H as [t ->].
  now rewrite drop_append.
Qed.

Lemma prefix_nil (s : string) : prefix "" s = true.
Proof. now destruct s. Qed.

Lemma contains_iff (sub s : string) :
  Py.contains sub s = true <-> occurs sub s.
Proof.
  induction s as [|c s IH]; cbn [Py.contains].
  - rewrite orb_false_r, prefix_iff. split.
    + intros [t Ht]. now exists "", t.
    + intros [pre [post H]]. destruct pre; simpl in H.
      * now exists post.
      * discriminate.
  - rewrite orb_true_iff, prefix_iff, IH. split.
    + intros [[t Ht] | [pre [post H]]].
      * now exists "", t.
      * exists (String c pre), post. simpl. now rewrite H.
    + intros [pre [post H]]. destruct pre as [|x pre]; simpl in H.
      * left. now exists post.
      * right. inversion H. now exists pre, post.
Qed.

Lemma cut_some (sep s a b : string) :
  Py.cut sep s = Some (a, b) ->
  s = a ++ sep ++ b /\ leftmost sep a s.
Proof.
  revert a b; induction s as [|c s IH]; intros a b; cbn [Py.cut].
  - destruct (prefix sep "") eqn:Hp; [|discriminate].
    intros H; inversion H; subst; clear H.
    split.
    + now apply prefix_drop.
    + intros p q _. simpl. lia.
  - destruct (prefix sep (String c s)) eqn:Hp.
    + intros H; inversion H; subst; clear H.
      split.
      * now apply prefix_drop.
      * intros p q _. simpl. lia.
    + destruct (Py.cut sep s) as [[a' b']|] eqn:Hc; [|discriminate].
      intros H; inversion H; subst; clear H.
      destruct (IH a' b eq_refl) as [Hs Hl].
      split.
      * simpl. now rewrite <- Hs.
      * intros p q Hpq. destruct p as [|x p]; simpl in Hpq.
        -- assert (prefix sep (String c s) = true) as Habs
             by (apply prefix_iff; now exists q).
           congruence.
        -- inversion Hpq; subst. simpl.
           apply le_n_S. now apply Hl with q.
Qed.

Lemma cut_none (sep s : string) :
  Py.cut sep s = None -> Py.contains sep s = false.
Proof.
  induction s as [|c s IH]; cbn [Py.cut Py.contains].
  - destruct (prefix sep ""); [discriminate | reflexivity].
  - destruct (prefix sep (String c s)); [discriminate|].
    destruct (Py.cut sep s) as [[a b]|]; [discriminate|].
    intros _. now apply IH.
Qed.

(** ** The safety gate decides by substrings *)

Lemma dangerous_iff (code : string) :
  is_potentially_dangerous code = true <-> flagged code.
Proof.
  unfold is_potentially_dangerous, flagged, blacklisted_libraries.
  cbn [existsb In].
  destruct (Py.contains "import " code) eqn:Hi.
  - split; [intros _ | reflexivity]. left. now apply contains_iff.
  - rewrite orb_false_r, !orb_true_iff, !contains_iff. split.
    + intros [H | [H | H]]; right; eauto 6.
    + intros [H | [name [Hin H]]].
      * apply contains_iff in H. congruence.
      * destruct Hin as [<- | [<- | [<- | []]]]; auto.
Qed.

Lemma flagged_inside (pre code post : string) :
  flagged code -> flagged (pre ++ code ++ post).
Proof.
  assert (H : forall sub, occurs sub code -> occurs sub (pre ++ code ++ post)).
  { intros sub (a & b & ->). exists (pre ++ a), (b ++ post).
    now rewrite !append_assoc. }
  intros [Hi | (name & Hin & Hn)]; [left | right; exists name]; auto.
Qed.

(** C3, as the code has it.  The danger predicate rejects a text exactly
    when it is flagged: when the characters of the import keyword
    followed by one space, or one of shutil, requests, urllib, occur
    somewhere in it, and it accepts every other text.  Where they occur
    does not matter: a rejected text is rejected in whatever it is put
    into, and every part of an accepted text is accepted. *)
Theorem safety_gate_verdict (code : string) :
  (flagged code -> is_potentially_dangerous code = true) /\
  (~ flagged code -> is_potentially_dangerous code = false) /\
  (forall pre post,
     is_potentially_dangerous code = true ->
     is_potentially_dangerous (pre ++ code ++ post) = true) /\
  (forall pre part post,
     code = pre ++ part ++ post ->
     is_potentially_dangerous code = false ->
     is_potentially_dangerous part = false).
Proof.
  split; [apply dangerous_iff|]. split; [|split].
  - intros H. destruct (is_potentially_dangerous code) eqn:E; [|reflexivity].
    exfalso. now apply H, dangerous_iff.
  - intros pre post H. now apply dangerous_iff, flagged_inside, dangerous_iff.
  - intros pre part post -> H.
    destruct (is_potentially_dangerous part) eqn:E; [|reflexivity].
    rewrite <- H. symmetry.
    now apply dangerous_iff, flagged_inside, dangerous_iff.
Qed.

Lemma safety_gate_verdict_witness :
  is_potentially_dangerous "from os import path" = true /\
  is_potentially_dangerous "env.get('https://example.com')" = false /\
  is_potentially_dangerous "# import os" = true /\
  is_potentially_dangerous "env.click('b')" = false.
Proof.
  split; [|split; [|split]].
  - apply (proj1 (safety_gate_verdict "from os import path")).
    left. now exists "from os ", "path".
  - apply (proj1 (proj2 (safety_gate_verdict "env.get('https://example.com')"))).
    intros H. apply dangerous_iff in H. discriminate H.
  - apply (proj1 (proj2 (proj2 (safety_gate_verdict "import os"))) "# " "").
    reflexivity.
  - apply (proj2 (proj2 (proj2
             (safety_gate_verdict "env.get('a'); env.click('b')")))
             "env.get('a'); " "env.click('b')" ""); reflexivity.
Defined.

(** C3, as stated, fails in both directions: an import statement that
    has something other than a space after its keyword is accepted, and a
    comment that says import, in a text without any import statement or
    denied name, is rejected. *)
Lemma safety_gate_counterexample :
  (spec_rejects "from os import*" = true /\
   is_potentially_dangerous "from os import*" = false) /\
  (spec_rejects "# no import here" = false /\
   is_potentially_dangerous "# no import here" = true).
Proof. vm_compute. repeat split. Qed.

(** ** Facts about the engine *)

Section EngineFacts.

Context {C W : Type}.
Variable ic : Compiler C.
Variable br : Browser W.
Variable agent : Agent.

Lemma after_nil {A : Type} (r : Reply C W A) : after [] r = r.
Proof. now destruct r. Qed.

Lemma after_after {A : Type} (e1 e2 : list Event) (r : Reply C W A) :
  after e1 (after e2 r) = after (e1 ++ e2) r.
Proof. unfold after; simpl. now rewrite app_assoc. Qed.

Lemma bind_returns {A B : Type} (x : EngineM C W A)
  (k : A -> EngineM C W B) m a :
  outcome (x m) = Returns a ->
  bind x k m = after (events (x m)) (k a (final (x m))).
Proof. unfold bind, after. now intros ->. Qed.

Lemma bind_reply {A B : Type} (x : EngineM C W A)
  (k : A -> EngineM C W B) m a m1 e1 :
  x m = mkReply (Returns a) m1 e1 ->
  bind x k m = after e1 (k a m1).
Proof. unfold bind, after. now intros ->. Qed.

Lemma bind_raises {A B : Type} (x : EngineM C W A)
  (k : A -> EngineM C W B) m e m1 e1 :
  x m = mkReply (Raises e) m1 e1 ->
  bind x k m = mkReply (Raises e) m1 e1.
Proof. unfold bind. now intros ->. Qed.

Lemma events_bind {A B : Type} (x : EngineM C W A)
  (k : A -> EngineM C W B) (m : Machine C W) :
  events (bind x k m) =
  (events (x m) ++
   match outcome (x m) with
   | Returns a => events (k a (final (x m)))
   | _ => []
   end)%list.
Proof.
  unfold bind. destruct (outcome (x m)); cbn; now rewrite ?app_nil_r.
Qed.

Lemma outcome_bind {A B : Type} (x : EngineM C W A)
  (k : A -> EngineM C W B) (m : Machine C W) :
  outcome (bind x k m) =
  match outcome (x m) with
  | Returns a => outcome (k a (final (x m)))
  | Raises e => Raises e
  | OutOfFuel => OutOfFuel
  end.
Proof. unfold bind. now destruct (outcome (x m)). Qed.

Lemma final_bind {A B : Type} (x : EngineM C W A)
  (k : A -> EngineM C W B) (m : Machine C W) :
  final (bind x k m) =
  match outcome (x m) with
  | Returns a => final (k a (final (x m)))
  | _ => final (x m)
  end.
Proof. unfold bind. now destruct (outcome (x m)). Qed.

Lemma no_step_stepped (evs : list Event) :
  count is_step evs = 0 -> stepped evs = [].
Proof.
  unfold count. induction evs as [|e evs IH]; [reflexivity|].
  destruct e; cbn; try discriminate; exact IH.
Qed.

Lemma try_exec_finished code (m : Machine C W) w :
  exec br code (world m) = Finished w ->
  try_exec br code m =
  mkReply (Returns None) (mkMachine (compiler m) w) [EvExec code true].
Proof. unfold try_exec. now intros ->. Qed.

Lemma try_exec_raised code (m : Machine C W) format_exc w :
  exec br code (world m) = Raised format_exc w ->
  try_exec br code m =
  mkReply (Returns (Some format_exc)) (mkMachine (compiler m) w)
    [EvExec code false].
Proof. unfold try_exec. now intros ->. Qed.

Lemma check_danger_accepts code (m : Machine C W) :
  is_potentially_dangerous code = false ->
  check_danger code m = mkReply (Returns tt) m [].
Proof. unfold check_danger. now intros ->. Qed.

Lemma check_danger_rejects code (m : Machine C W) :
  is_potentially_dangerous code = true ->
  check_danger code m = mkReply (Raises (SystemExit 1)) m [EvDanger code].
Proof. unfold check_danger. now intros ->. Qed.

Lemma recover_returns action format_exc trace problem r c
  (m : Machine C W) :
  get_relevant_part_of_stack_trace format_exc = inr trace ->
  problem_instruction action (line_num trace) = inr problem ->
  retry ic (problem ++ stack_trace trace) (compiler m) = (r, c) ->
  recover ic agent action format_exc m =
  mkReply (Returns (strip_fences (action_output r)))
    (mkMachine c (world m))
    ((if debug agent then [EvBreakpoint] else []) ++
     [EvRetry (problem ++ stack_trace trace) r]).
Proof.
  intros Htrace Hproblem Hretry.
  unfold recover, bind, lift, compiler_retry, ret, emit.
  rewrite Htrace. cbn. rewrite Hproblem. cbn.
  destruct (debug agent); cbn; rewrite Hretry; reflexivity.
Qed.

Lemma attempt_evals_failing k a m a' m' evs :
  failing ic br agent k a m a' m' evs ->
  forall n,
    attempt_evals ic br agent (k + n) a m =
    after evs (attempt_evals ic br agent n a' m').
Proof.
  induction 1 as [a m | k a m tb w trace problem r c a' m' evs
                          Hexec Htrace Hproblem Hretry _ IH]; intros n.
  - now rewrite after_nil.
  - cbn [Nat.add attempt_evals].
    rewrite (bind_reply _ _ _ _ _ _ (try_exec_raised _ _ _ _ Hexec)).
    cbv beta iota.
    rewrite (bind_reply _ _ _ _ _ _
               (recover_returns a tb trace problem r c
                  (mkMachine (compiler m) w) Htrace Hproblem Hretry)).
    cbn [compiler world]. rewrite IH, !after_after.
    f_equal. cbn. now rewrite <- app_assoc.
Qed.

Lemma count_app kind (e1 e2 : list Event) :
  count kind (e1 ++ e2) = count kind e1 + count kind e2.
Proof. unfold count. now rewrite filter_app, length_app. Qed.

Lemma stepped_app (e1 e2 : list Event) :
  stepped (e1 ++ e2) = (stepped e1 ++ stepped e2)%list.
Proof.
  induction e1 as [|e e1 IH]; [reflexivity|].
  destruct e; cbn; now rewrite ?IH.
Qed.

Lemma calm_app (e1 e2 : list Event) : calm e1 -> calm e2 -> calm (e1 ++ e2).
Proof.
  intros H1 H2 e He. apply in_app_or in He. destruct He; auto.
Qed.

Lemma calm_nil : calm [].
Proof. intros e []. Qed.

Lemma calm_cons e evs :
  is_quit e = false -> is_danger e = false -> calm evs -> calm (e :: evs).
Proof. intros Hq Hd H x [<- | Hx]; auto. Qed.

Lemma calm_teardowns evs : calm evs -> teardowns evs = 0.
Proof.
  unfold teardowns, count. induction evs as [|e evs IH]; intros H.
  - reflexivity.
  - cbn. destruct (H e (or_introl eq_refl)) as [-> _].
    apply IH. intros x Hx. apply H. now right.
Qed.

Lemma calm_no_danger evs code : calm evs -> ~ In (EvDanger code) evs.
Proof. intros H Hin. now destruct (H _ Hin) as [_ Hd]. Qed.

(** What a run of failures looks like from outside. *)
Lemma failing_observed k a m a' m' evs :
  failing ic br agent k a m a' m' evs ->
  retries evs = k /\ executions evs = k /\ stepped evs = [] /\ calm evs.
Proof.
  induction 1 as [a m | k a m tb w trace problem r c a' m' evs
                          _ _ _ _ _ [IHr [IHe [IHs IHc]]]].
  - split; [|split; [|split]]; try reflexivity. apply calm_nil.
  - unfold retries, executions in *.
    change (EvExec a false
            :: (if debug agent then [EvBreakpoint] else []) ++
               EvRetry (problem ++ stack_trace trace) r :: evs)%list
      with ([EvExec a false] ++
            (if debug agent then [EvBreakpoint] else []) ++
            [EvRetry (problem ++ stack_trace trace) r] ++ evs)%list.
    rewrite !count_app, !stepped_app, IHr, IHe, IHs.
    destruct (debug agent); cbn;
      (split; [|split; [|split]]); try reflexivity;
      repeat (apply calm_cons; [reflexivity | reflexivity |]); exact IHc.
Qed.

Lemma failing_queue k a m a' m' evs :
  CompilerLaws ic ->
  failing ic br agent k a m a' m' evs ->
  instructions_queue ic (compiler m') = instructions_queue ic (compiler m).
Proof.
  intros L. induction 1 as [a m | k a m tb w trace problem r c a' m' evs
                                    _ _ _ Hretry _ IH].
  - reflexivity.
  - rewrite IH. cbn.
    pose proof (retry_keeps_queue ic L (problem ++ stack_trace trace)
                  (compiler m)) as Hq.
    now rewrite Hretry in Hq.
Qed.

Lemma compiler_step_reply (m : Machine C W) :
  compiler_step ic m =
  mkReply (Returns (fst (step ic (compiler m))))
    (mkMachine (snd (step ic (compiler m))) (world m))
    [EvStep (fst (step ic (compiler m)))].
Proof. unfold compiler_step. now destruct (step ic (compiler m)). Qed.

Lemma drain_next fuel (m : Machine C W) i q :
  instructions_queue ic (compiler m) = i :: q ->
  drain ic br agent (S fuel) m =
  bind (loop_body ic br agent) (fun _ => drain ic br agent fuel) m.
Proof. cbn [drain]. now intros ->. Qed.

Lemma drain_empty fuel (m : Machine C W) :
  instructions_queue ic (compiler m) = [] ->
  drain ic br agent fuel m = mkReply (Returns tt) m [].
Proof. destruct fuel; cbn [drain]; now intros ->. Qed.

(** One turn of the step loop in which the attempts end without an
    exception leaving the handler. *)
Lemma loop_body_attempts (m m' : Machine C W) evs :
  let r := fst (step ic (compiler m)) in
  let a := strip_fences (action_output r) in
  is_potentially_dangerous a = false ->
  attempt_evals ic br agent max_attempts a
    (mkMachine (snd (step ic (compiler m))) (world m)) =
  mkReply (Returns tt) m' evs ->
  loop_body ic br agent m = mkReply (Returns tt) m' (EvStep r :: evs).
Proof.
  intros r a Hgate Hattempts. unfold loop_body.
  rewrite (bind_reply _ _ _ _ _ _ (compiler_step_reply m)).
  rewrite (bind_reply _ _ _ _ _ _ (check_danger_accepts _ _ Hgate)).
  fold r a. rewrite Hattempts. reflexivity.
Qed.

(** *** Endings compose *)

Lemma loop_like_bind {A B : Type} (x : EngineM C W A)
  (k : A -> EngineM C W B) :
  loop_like x -> (forall a, loop_like (k a)) -> loop_like (bind x k).
Proof.
  intros Hx Hk m. unfold bind. pose proof (Hx m) as H.
  remember (outcome (x m)) as o eqn:Eo.
  remember (events (x m)) as ev eqn:Ev.
  destruct H as [a evs Hc | code evs Hc Hd | e evs Hc He | evs Hc]; cbn.
  - pose proof (Hk a (final (x m))) as H2.
    remember (outcome (k a (final (x m)))) as o2 eqn:Eo2.
    remember (events (k a (final (x m)))) as ev2 eqn:Ev2.
    destruct H2 as [b evs2 Hc2 | code evs2 Hc2 Hd | e evs2 Hc2 He | evs2 Hc2].
    + apply ending_returns. now apply calm_app.
    + rewrite app_assoc. apply ending_exit; [now apply calm_app | exact Hd].
    + apply ending_raises; [now apply calm_app | exact He].
    + apply ending_fuel. now apply calm_app.
  - now apply ending_exit.
  - now apply ending_raises.
  - now apply ending_fuel.
Qed.

Lemma steady_bind {A B : Type} (x : EngineM C W A)
  (k : A -> EngineM C W B) :
  steady ic x -> (forall a, steady ic (k a)) -> steady ic (bind x k).
Proof.
  intros Hx Hk m. unfold bind. destruct (Hx m) as [Ho Hq].
  destruct (outcome (x m)) as [a | e |]; cbn.
  - destruct (Hk a (final (x m))) as [Ho2 Hq2]. split; [exact Ho2|].
    now rewrite Hq2.
  - split; [discriminate | exact Hq].
  - contradiction.
Qed.

Lemma loop_like_ret {A : Type} (a : A) : loop_like (@ret C W A a).
Proof. intros m. apply ending_returns, calm_nil. Qed.

Lemma steady_ret {A : Type} (a : A) : steady ic (@ret C W A a).
Proof. intros m. split; [discriminate | reflexivity]. Qed.

Lemma steady_raise {A : Type} (e : Exn) : steady ic (@raise C W A e).
Proof. intros m. split; [discriminate | reflexivity]. Qed.

Lemma steady_emit (e : Event) : steady ic (@emit C W e).
Proof. intros m. split; [discriminate | reflexivity]. Qed.

Lemma steady_lift {A : Type} (x : Exn + A) : steady ic (@lift C W A x).
Proof. destruct x; [apply steady_raise | apply steady_ret]. Qed.

Lemma loop_like_lift {A : Type} (x : Exn + A) :
  (forall e, x = inl e -> forall n, e <> SystemExit n) ->
  loop_like (@lift C W A x).
Proof.
  intros H. destruct x as [e | a]; [|apply loop_like_ret].
  intros m. apply ending_raises; [apply calm_nil | now apply H].
Qed.

Lemma get_relevant_part_of_stack_trace_raises format_exc e :
  get_relevant_part_of_stack_trace format_exc = inl e ->
  e = IndexError \/ e = ValueError.
Proof.
  unfold get_relevant_part_of_stack_trace.
  destruct (nth_error _ 1) as [t|]; [|intros H; inversion H; now left].
  destruct (Py.int _); [discriminate|]. intros H; inversion H; now right.
Qed.

Lemma problem_instruction_raises action n e :
  problem_instruction action n = inl e -> e = IndexError.
Proof.
  unfold problem_instruction. destruct (Py.index _ _); [discriminate|].
  now intros H; inversion H.
Qed.

Lemma loop_like_try_exec code : loop_like (try_exec (C:=C) br code).
Proof.
  intros m. unfold try_exec. destruct (exec br code (world m)); cbn;
    apply ending_returns, calm_cons; try reflexivity; apply calm_nil.
Qed.

Lemma steady_try_exec code : steady ic (try_exec (C:=C) br code).
Proof.
  intros m. unfold try_exec. destruct (exec br code (world m)); cbn;
    (split; [discriminate | reflexivity]).
Qed.

Lemma loop_like_compiler_retry feedback :
  loop_like (compiler_retry (W:=W) ic feedback).
Proof.
  intros m. unfold compiler_retry. destruct (retry ic feedback (compiler m)).
  cbn. apply ending_returns, calm_cons; try reflexivity; apply calm_nil.
Qed.

Lemma steady_compiler_retry feedback :
  CompilerLaws ic -> steady ic (compiler_retry (W:=W) ic feedback).
Proof.
  intros L m. unfold compiler_retry.
  pose proof (retry_keeps_queue ic L feedback (compiler m)) as Hq.
  destruct (retry ic feedback (compiler m)). cbn in *.
  split; [discriminate | exact Hq].
Qed.

Lemma loop_like_breakpoint :
  loop_like (if debug agent then @emit C W EvBreakpoint else ret tt).
Proof.
  destruct (debug agent); [|apply loop_like_ret].
  intros m. apply ending_returns, calm_cons; try reflexivity; apply calm_nil.
Qed.

Lemma loop_like_recover action format_exc :
  loop_like (recover (W:=W) ic agent action format_exc).
Proof.
  unfold recover.
  apply loop_like_bind.
  { apply loop_like_lift. intros e He n.
    destruct (get_relevant_part_of_stack_trace_raises _ _ He); now subst. }
  intros trace. apply loop_like_bind.
  { apply loop_like_lift. intros e He n.
    rewrite (problem_instruction_raises _ _ _ He). discriminate. }
  intros problem. apply loop_like_bind; [apply loop_like_breakpoint|].
  intros _. apply loop_like_bind; [apply loop_like_compiler_retry|].
  intros r. apply loop_like_ret.
Qed.

Lemma steady_recover action format_exc :
  CompilerLaws ic ->
  steady ic (recover (W:=W) ic agent action format_exc).
Proof.
  intros L. unfold recover.
  apply steady_bind; [apply steady_lift|]. intros trace.
  apply steady_bind; [apply steady_lift|]. intros problem.
  apply steady_bind.
  { destruct (debug agent); [apply steady_emit | apply steady_ret]. }
  intros _. apply steady_bind; [now apply steady_compiler_retry|].
  intros r. apply steady_ret.
Qed.

Lemma loop_like_attempt_evals n action :
  loop_like (attempt_evals ic br agent n action).
Proof.
  revert action. induction n as [|n IH]; intros action; cbn [attempt_evals].
  - apply loop_like_ret.
  - apply loop_like_bind; [apply loop_like_try_exec|].
    intros [tb|]; [|apply loop_like_ret].
    apply loop_like_bind; [apply loop_like_recover | exact IH].
Qed.

Lemma steady_attempt_evals n action :
  CompilerLaws ic -> steady ic (attempt_evals ic br agent n action).
Proof.
  intros L. revert action.
  induction n as [|n IH]; intros action; cbn [attempt_evals].
  - apply steady_ret.
  - apply steady_bind; [apply steady_try_exec|].
    intros [tb|]; [|apply steady_ret].
    apply steady_bind; [now apply steady_recover | exact IH].
Qed.

Lemma loop_like_check_danger code : loop_like (@check_danger C W code).
Proof.
  intros m. unfold check_danger.
  destruct (is_potentially_dangerous code) eqn:Hd; cbn.
  - apply (ending_exit code []); [apply calm_nil | exact Hd].
  - apply ending_returns, calm_nil.
Qed.

Lemma steady_check_danger code : steady ic (@check_danger C W code).
Proof.
  intros m. unfold check_danger.
  destruct (is_potentially_dangerous code); cbn;
    (split; [discriminate | reflexivity]).
Qed.

Lemma loop_like_compiler_step : loop_like (compiler_step (W:=W) ic).
Proof.
  intros m. rewrite compiler_step_reply. cbn.
  apply ending_returns, calm_cons; try reflexivity; apply calm_nil.
Qed.

Lemma loop_like_loop_body : loop_like (loop_body ic br agent).
Proof.
  unfold loop_body. apply loop_like_bind; [apply loop_like_compiler_step|].
  intros r. apply loop_like_bind; [apply loop_like_check_danger|].
  intros _. apply loop_like_attempt_evals.
Qed.

Lemma loop_like_drain fuel : loop_like (drain ic br agent fuel).
Proof.
  induction fuel as [|fuel IH]; intros m; cbn [drain];
    destruct (instructions_queue ic (compiler m)).
  - apply ending_returns, calm_nil.
  - apply ending_fuel, calm_nil.
  - apply ending_returns, calm_nil.
  - apply loop_like_bind; [apply loop_like_loop_body | intros _; exact IH].
Qed.

(** One turn of the loop ends and takes exactly the front of the queue. *)
Lemma loop_body_dequeues (m : Machine C W) i q :
  CompilerLaws ic ->
  instructions_queue ic (compiler m) = i :: q ->
  outcome (loop_body ic br agent m) <> OutOfFuel /\
  instructions_queue ic (compiler (final (loop_body ic br agent m))) = q.
Proof.
  intros L Hq. unfold loop_body.
  rewrite (bind_reply _ _ _ _ _ _ (compiler_step_reply m)).
  destruct (step_dequeues ic L _ _ _ Hq) as [_ Hq'].
  set (a := strip_fences (action_output (fst (step ic (compiler m))))).
  assert (Hs : steady ic (bind (check_danger a)
                 (fun _ => attempt_evals ic br agent max_attempts a))).
  { apply steady_bind; [apply steady_check_danger|].
    intros _. now apply steady_attempt_evals. }
  destruct (Hs (mkMachine (snd (step ic (compiler m))) (world m)))
    as [Ho Hf].
  cbn [after outcome final]. split; [exact Ho|]. now rewrite Hf.
Qed.

(** With the compiler's laws the loop needs one unit of fuel for each
    pending instruction. *)
Lemma drain_terminates fuel (m : Machine C W) :
  CompilerLaws ic ->
  List.length (instructions_queue ic (compiler m)) <= fuel ->
  outcome (drain ic br agent fuel m) <> OutOfFuel.
Proof.
  intros L. revert m. induction fuel as [|fuel IH]; intros m Hlen.
  - destruct (instructions_queue ic (compiler m)) eqn:Hq; cbn in Hlen;
      [|lia]. rewrite (drain_empty _ _ Hq). discriminate.
  - destruct (instructions_queue ic (compiler m)) as [|i q] eqn:Hq.
    + rewrite (drain_empty _ _ Hq). discriminate.
    + rewrite (drain_next fuel m i q Hq).
      destruct (loop_body_dequeues m i q L Hq) as [Ho Hq'].
      unfold bind.
      destruct (outcome (loop_body ic br agent m)) as [u | e |];
        cbn; [|discriminate | contradiction].
      apply IH. rewrite Hq'. cbn in Hlen. lia.
Qed.

(** *** The replay path, case by case *)

Lemma replay_rejected code (m : Machine C W) :
  is_potentially_dangerous code = true ->
  run_compiled_instructions br code m =
  mkReply (Raises (SystemExit 1)) m [EvDanger code].
Proof.
  intros Hd. unfold run_compiled_instructions.
  now rewrite (bind_raises _ _ _ _ _ _ (check_danger_rejects _ _ Hd)).
Qed.

Lemma replay_finished code (m : Machine C W) w :
  is_potentially_dangerous code = false ->
  exec br code (world m) = Finished w ->
  run_compiled_instructions br code m =
  mkReply (Returns tt) (mkMachine (compiler m) (driver_quit br w))
    [EvExec code true; EvQuit].
Proof.
  intros Hd He. unfold run_compiled_instructions.
  rewrite (bind_reply _ _ _ _ _ _ (check_danger_accepts _ _ Hd)).
  unfold exec_code.
  unfold bind, try_exec, quit, after, ret. rewrite He. reflexivity.
Qed.

Lemma replay_raised code (m : Machine C W) format_exc w :
  is_potentially_dangerous code = false ->
  exec br code (world m) = Raised format_exc w ->
  run_compiled_instructions br code m =
  mkReply (Raises (ExecError format_exc)) (mkMachine (compiler m) w)
    [EvExec code false].
Proof.
  intros Hd He. unfold run_compiled_instructions.
  rewrite (bind_reply _ _ _ _ _ _ (check_danger_accepts _ _ Hd)).
  unfold exec_code.
  unfold bind, try_exec, quit, after, raise. rewrite He. reflexivity.
Qed.

Lemma run_ending_replay code (m : Machine C W) :
  run_ending (outcome (run_compiled_instructions br code m))
             (events (run_compiled_instructions br code m)).
Proof.
  destruct (is_potentially_dangerous code) eqn:Hd.
  - rewrite (replay_rejected _ _ Hd). cbn.
    apply run_stops; [discriminate|].
    apply (ending_exit code []); [apply calm_nil | exact Hd].
  - destruct (exec br code (world m)) as [w | tb w] eqn:He.
    + rewrite (replay_finished _ _ _ Hd He). cbn.
      apply (run_returns tt [EvExec code true]).
      apply calm_cons; try reflexivity. apply calm_nil.
    + rewrite (replay_raised _ _ _ _ Hd He). cbn.
      apply run_stops; [discriminate|].
      apply ending_raises; [|discriminate].
      apply calm_cons; try reflexivity. apply calm_nil.
Qed.

(** *** The end of the step loop: persistence, then teardown *)

Lemma save_then_quit (m : Machine C W) :
  exists saved m',
    bind (match instruction_output_file agent with
          | Some file =>
              if (file =? "")%string then ret tt else compiler_save ic file
          | None => ret tt
          end) (fun _ => quit br) m =
    mkReply (Returns tt) m' (saved ++ [EvQuit]) /\
    calm saved /\
    (forall file, In (EvSave file) saved ->
                  instruction_output_file agent = Some file) /\
    (saved = [] \/ exists file, saved = [EvSave file]).
Proof.
  destruct (instruction_output_file agent) as [file|].
  - destruct (file =? "")%string.
    + exists [], (mkMachine (compiler m) (driver_quit br (world m))).
      split; [reflexivity|]. split; [apply calm_nil|].
      split; [intros f [] | now left].
    + exists [EvSave file],
        (mkMachine (save_compiled_instructions ic file (compiler m))
                   (driver_quit br (world m))).
      split; [reflexivity|]. split; [|split].
      * apply calm_cons; try reflexivity. apply calm_nil.
      * intros f [Hf | []]. now inversion Hf.
      * right. now exists file.
  - exists [], (mkMachine (compiler m) (driver_quit br (world m))).
    split; [reflexivity|]. split; [apply calm_nil|].
    split; [intros f [] | now left].
Qed.

Lemma save_then_quit_machine (m : Machine C W) :
  bind (match instruction_output_file agent with
        | Some file =>
            if (file =? "")%string then ret tt else compiler_save ic file
        | None => ret tt
        end) (fun _ => quit br) m =
  mkReply (Returns tt)
    (mkMachine (persist ic agent (compiler m)) (driver_quit br (world m)))
    (persisted agent ++ [EvQuit]).
Proof.
  unfold persist, persisted.
  destruct (instruction_output_file agent) as [file|];
    [destruct (file =? "")%string|]; reflexivity.
Qed.

Lemma run_ending_bind {A B : Type} (x : EngineM C W A)
  (k : A -> EngineM C W B) :
  loop_like x ->
  (forall a m, run_ending (outcome (k a m)) (events (k a m))) ->
  forall m, run_ending (outcome (bind x k m)) (events (bind x k m)).
Proof.
  intros Hx Hk m. unfold bind. pose proof (Hx m) as H.
  remember (outcome (x m)) as o eqn:Eo.
  remember (events (x m)) as ev eqn:Ev.
  destruct H as [a evs Hc | code evs Hc Hd | e evs Hc He | evs Hc]; cbn.
  - pose proof (Hk a (final (x m))) as H2.
    remember (outcome (k a (final (x m)))) as o2 eqn:Eo2.
    remember (events (k a (final (x m)))) as ev2 eqn:Ev2.
    destruct H2 as [b evs2 Hc2 | o2 evs2 Hn H2].
    + rewrite app_assoc. apply run_returns. now apply calm_app.
    + apply run_stops; [exact Hn|].
      destruct H2 as [b evs2 Hc2 | code evs2 Hc2 Hd | e evs2 Hc2 He
                      | evs2 Hc2].
      * now elim (Hn b).
      * rewrite app_assoc.
        apply ending_exit; [now apply calm_app | exact Hd].
      * apply ending_raises; [now apply calm_app | exact He].
      * apply ending_fuel. now apply calm_app.
  - apply run_stops; [discriminate | now apply ending_exit].
  - apply run_stops; [discriminate | now apply ending_raises].
  - apply run_stops; [discriminate | now apply ending_fuel].
Qed.

Lemma run_ending_step_through fuel (m : Machine C W) :
  run_ending (outcome (step_through_instructions ic br agent fuel m))
             (events (step_through_instructions ic br agent fuel m)).
Proof.
  unfold step_through_instructions.
  apply run_ending_bind; [apply loop_like_drain|].
  intros _ m1. destruct (save_then_quit m1) as (saved & m' & -> & Hs & _).
  cbn. now apply run_returns.
Qed.

Lemma run_ending_run fuel (m : Machine C W) :
  run_ending (outcome (run ic br agent fuel m))
             (events (run ic br agent fuel m)).
Proof.
  unfold run.
  destruct (use_compiled ic (compiler m) &&
            match compiled_instructions ic (compiler m) with
            | [] => false
            | _ :: _ => true
            end).
  - apply run_ending_replay.
  - apply run_ending_step_through.
Qed.

Lemma step_through_terminates fuel (m : Machine C W) :
  CompilerLaws ic ->
  List.length (instructions_queue ic (compiler m)) <= fuel ->
  outcome (step_through_instructions ic br agent fuel m) <> OutOfFuel.
Proof.
  intros L Hlen. pose proof (drain_terminates fuel m L Hlen) as Hd.
  unfold step_through_instructions. unfold bind at 1.
  destruct (outcome (drain ic br agent fuel m)) as [u | e |];
    [|discriminate | contradiction].
  destruct (save_then_quit (final (drain ic br agent fuel m)))
    as (saved & m' & -> & _). cbn. discriminate.
Qed.

Lemma run_terminates fuel (m : Machine C W) :
  CompilerLaws ic ->
  List.length (instructions_queue ic (compiler m)) <= fuel ->
  outcome (run ic br agent fuel m) <> OutOfFuel.
Proof.
  intros L Hlen. unfold run.
  destruct (use_compiled ic (compiler m) &&
            match compiled_instructions ic (compiler m) with
            | [] => false
            | _ :: _ => true
            end).
  - pose proof (run_ending_replay
                  (strip_fences
                     (Py.join Py.nl (compiled_instructions ic (compiler m))))
                  m) as H.
    set (code := strip_fences _) in *.
    destruct (is_potentially_dangerous code) eqn:Hd.
    + rewrite (replay_rejected _ _ Hd). discriminate.
    + destruct (exec br code (world m)) as [w | tb w] eqn:He.
      * rewrite (replay_finished _ _ _ Hd He). discriminate.
      * rewrite (replay_raised _ _ _ _ Hd He). discriminate.
  - now apply step_through_terminates.
Qed.

(** *** The loop itself persists nothing *)

Lemma loop_events_bind {A B : Type} (x : EngineM C W A)
  (k : A -> EngineM C W B) :
  loop_events x -> (forall a, loop_events (k a)) -> loop_events (bind x k).
Proof.
  intros Hx Hk m. unfold bind. pose proof (Hx m) as H.
  destruct (outcome (x m)) as [a | e |]; cbn; [|exact H | exact H].
  apply Forall_app. split; [exact H | apply Hk].
Qed.

Lemma loop_events_ret {A : Type} (a : A) : loop_events (@ret C W A a).
Proof. intros m. constructor. Qed.

Lemma loop_events_lift {A : Type} (x : Exn + A) :
  loop_events (@lift C W A x).
Proof. destruct x; intros m; constructor. Qed.

Lemma loop_events_attempt_evals n action :
  loop_events (attempt_evals ic br agent n action).
Proof.
  revert action. induction n as [|n IH]; intros action; cbn [attempt_evals].
  - apply loop_events_ret.
  - apply loop_events_bind.
    { intros m. unfold try_exec.
      destruct (exec br action (world m)); repeat constructor. }
    intros [tb|]; [|apply loop_events_ret].
    apply loop_events_bind; [|exact IH].
    unfold recover.
    apply loop_events_bind; [apply loop_events_lift|]. intros trace.
    apply loop_events_bind; [apply loop_events_lift|]. intros problem.
    apply loop_events_bind.
    { intros m. destruct (debug agent); repeat constructor. }
    intros _. apply loop_events_bind; [|intros r; apply loop_events_ret].
    intros m. unfold compiler_retry.
    destruct (retry ic _ (compiler m)). repeat constructor.
Qed.

Lemma loop_events_drain fuel : loop_events (drain ic br agent fuel).
Proof.
  induction fuel as [|fuel IH]; intros m; cbn [drain];
    destruct (instructions_queue ic (compiler m)); try constructor.
  apply loop_events_bind; [|intros _; exact IH].
  unfold loop_body. apply loop_events_bind.
  { intros m1. rewrite compiler_step_reply. repeat constructor. }
  intros r. apply loop_events_bind; [|intros _; apply loop_events_attempt_evals].
  intros m1. unfold check_danger.
  destruct (is_potentially_dangerous _); repeat constructor.
Qed.

(** Whatever [run] persists, it persists to the configured destination. *)
Lemma run_saves_to_destination fuel (m : Machine C W) file :
  In (EvSave file) (events (run ic br agent fuel m)) ->
  instruction_output_file agent = Some file.
Proof.
  unfold run.
  destruct (use_compiled ic (compiler m) &&
            match compiled_instructions ic (compiler m) with
            | [] => false
            | _ :: _ => true
            end).
  - set (code := strip_fences _).
    destruct (is_potentially_dangerous code) eqn:Hd.
    + rewrite (replay_rejected _ _ Hd). intros [H | []]; discriminate.
    + destruct (exec br code (world m)) as [w | tb w] eqn:He.
      * rewrite (replay_finished _ _ _ Hd He).
        intros [H | [H | []]]; discriminate.
      * rewrite (replay_raised _ _ _ _ Hd He). intros [H | []]; discriminate.
  - unfold step_through_instructions. unfold bind at 1.
    pose proof (loop_events_drain fuel m) as Hloop.
    assert (Hno : ~ In (EvSave file) (events (drain ic br agent fuel m))).
    { intros Hin. rewrite Forall_forall in Hloop.
      now pose proof (Hloop _ Hin). }
    destruct (outcome (drain ic br agent fuel m)) as [u | e |];
      cbn; try (intros Hin; now elim Hno).
    destruct (save_then_quit (final (drain ic br agent fuel m)))
      as (saved & m' & -> & _ & Hsaved & _).
    cbn. intros Hin. apply in_app_or in Hin. destruct Hin as [Hin | Hin].
    + now elim Hno.
    + apply in_app_or in Hin. destruct Hin as [Hin | [Hin | []]].
      * now apply Hsaved.
      * discriminate.
Qed.

End EngineFacts.

(** ** The step loop: retries *)

(** C5.  An instruction at the front of the queue whose first [K] actions
    fail, with [K] below the budget of three attempts, and whose next
    action runs to its end: the turn of the loop asks the compiler to
    retry exactly [K] times, executes [K + 1] actions, calls [step] once,
    and the loop goes on with the rest of the queue, from which nothing
    was taken meanwhile. *)
Theorem retry_until_success {C W : Type} (ic : Compiler C) (br : Browser W)
  (agent : Agent) (K : nat) (i : string) (q : list string)
  (m m' : Machine C W) (a' : string) (evs : list Event) (w' : W) :
  CompilerLaws ic ->
  instructions_queue ic (compiler m) = i :: q ->
  let r := fst (step ic (compiler m)) in
  let a := strip_fences (action_output r) in
  is_potentially_dangerous a = false ->
  failing ic br agent K a
    (mkMachine (snd (step ic (compiler m))) (world m)) a' m' evs ->
  K < max_attempts ->
  exec br a' (world m') = Finished w' ->
  let seen := (EvStep r :: evs ++ [EvExec a' true])%list in
  let next := mkMachine (compiler m') w' in
  loop_body ic br agent m = mkReply (Returns tt) next seen /\
  (forall fuel,
     drain ic br agent (S fuel) m = after seen (drain ic br agent fuel next)) /\
  retries seen = K /\
  executions seen = S K /\
  stepped seen = [i] /\
  instruction r = i /\
  instructions_queue ic (compiler next) = q.
Proof.
  intros L Hq r a Hgate Hfail HK Hexec seen next.
  assert (Hbody : loop_body ic br agent m = mkReply (Returns tt) next seen).
  { apply loop_body_attempts; [exact Hgate|]. fold r a.
    replace max_attempts with (K + S (max_attempts - S K)) by lia.
    rewrite (attempt_evals_failing ic br agent _ _ _ _ _ _ Hfail).
    cbn [attempt_evals].
    rewrite (bind_reply _ _ _ _ _ _ (try_exec_finished br _ _ _ Hexec)).
    unfold after, ret. cbn. reflexivity. }
  destruct (failing_observed ic br agent _ _ _ _ _ _ Hfail)
    as [Hr [He [Hs _]]].
  destruct (step_dequeues ic L _ _ _ Hq) as [Hi Hq'].
  split; [exact Hbody|]. split.
  { intros fuel. rewrite (drain_next ic br agent fuel m i q Hq).
    now rewrite (bind_reply _ _ _ _ _ _ Hbody). }
  unfold seen, retries, executions in *.
  change (EvStep r :: evs ++ [EvExec a' true])%list
    with ([EvStep r] ++ evs ++ [EvExec a' true])%list.
  rewrite !count_app, !stepped_app, Hr, He, Hs. cbn.
  fold r in Hi.
  split; [lia|]. split; [lia|]. split; [now rewrite Hi|].
  split; [exact Hi|].
  rewrite (failing_queue ic br agent _ _ _ _ _ _ L Hfail). exact Hq'.
Qed.

Lemma bench_laws : CompilerLaws Bench.desk.
Proof.
  constructor.
  - intros c i q Hq. cbn in *. unfold Bench.desk_step. now rewrite Hq.
  - reflexivity.
Qed.

Lemma retry_until_success_witness :
  let m := Bench.start
             ["env.missing()|env.missing()|env.click('ok')"; "env.get('b')"] in
  let r := loop_body Bench.desk Bench.tab Bench.plain m in
  outcome r = Returns tt /\
  retries (events r) = 2 /\
  Bench.queue (compiler (final r)) = ["env.get('b')"].
Proof.
  intros m r.
  edestruct (retry_until_success Bench.desk Bench.tab Bench.plain 2
               "env.missing()|env.missing()|env.click('ok')"
               ["env.get('b')"] m)
    as (Hbody & _ & Hretries & _ & _ & _ & Hqueue).
  - exact bench_laws.
  - reflexivity.
  - reflexivity.
  - eapply failing_more;
      [reflexivity | reflexivity | reflexivity | reflexivity |].
    eapply failing_more;
      [reflexivity | reflexivity | reflexivity | reflexivity |].
    apply failing_none.
  - unfold max_attempts. lia.
  - reflexivity.
  - unfold r. rewrite Hbody. cbn [outcome events final compiler].
    split; [reflexivity|]. split; [exact Hretries | exact Hqueue].
Defined.

(** C1, as the code has it.  An instruction at the front of the queue whose
    actions fail three times in a row, each failure yielding a diagnostic:
    the turn of the loop executes exactly three actions, calls [step] once,
    takes nothing further from the queue, and returns; the loop goes on
    with the rest of the queue and no exception reaches the caller. *)
Theorem three_failures_move_on {C W : Type} (ic : Compiler C)
  (br : Browser W) (agent : Agent) (i : string) (q : list string)
  (m m' : Machine C W) (a' : string) (evs : list Event) :
  CompilerLaws ic ->
  instructions_queue ic (compiler m) = i :: q ->
  let r := fst (step ic (compiler m)) in
  let a := strip_fences (action_output r) in
  is_potentially_dangerous a = false ->
  failing ic br agent max_attempts a
    (mkMachine (snd (step ic (compiler m))) (world m)) a' m' evs ->
  let seen := EvStep r :: evs in
  loop_body ic br agent m = mkReply (Returns tt) m' seen /\
  (forall fuel,
     drain ic br agent (S fuel) m = after seen (drain ic br agent fuel m')) /\
  executions seen = max_attempts /\
  stepped seen = [i] /\
  instruction r = i /\
  instructions_queue ic (compiler m') = q.
Proof.
  intros L Hq r a Hgate Hfail seen.
  assert (Hbody : loop_body ic br agent m = mkReply (Returns tt) m' seen).
  { apply loop_body_attempts; [exact Hgate|]. fold r a.
    replace max_attempts with (max_attempts + 0) at 1 by lia.
    rewrite (attempt_evals_failing ic br agent _ _ _ _ _ _ Hfail).
    cbn [attempt_evals]. unfold after, ret. cbn. now rewrite app_nil_r. }
  destruct (failing_observed ic br agent _ _ _ _ _ _ Hfail)
    as [_ [He [Hs _]]].
  destruct (step_dequeues ic L _ _ _ Hq) as [Hi Hq'].
  fold r in Hi.
  split; [exact Hbody|]. split.
  { intros fuel. rewrite (drain_next ic br agent fuel m i q Hq).
    now rewrite (bind_reply _ _ _ _ _ _ Hbody). }
  unfold seen, executions in *.
  change (EvStep r :: evs) with ([EvStep r] ++ evs)%list.
  rewrite !count_app, !stepped_app, He, Hs. cbn.
  split; [reflexivity|]. split; [now rewrite Hi|]. split; [exact Hi|].
  rewrite (failing_queue ic br agent _ _ _ _ _ _ L Hfail). exact Hq'.
Qed.

Lemma three_failures_move_on_witness :
  let m := Bench.start ["env.missing()"; "env.get('b')"] in
  let r := loop_body Bench.desk Bench.tab Bench.plain m in
  outcome r = Returns tt /\
  executions (events r) = 3 /\
  Bench.queue (compiler (final r)) = ["env.get('b')"].
Proof.
  intros m r.
  edestruct (three_failures_move_on Bench.desk Bench.tab Bench.plain
               "env.missing()" ["env.get('b')"] m)
    as (Hbody & _ & Hexecs & _ & _ & Hqueue).
  - exact bench_laws.
  - reflexivity.
  - reflexivity.
  - unfold max_attempts.
    eapply failing_more;
      [reflexivity | reflexivity | reflexivity | reflexivity |].
    eapply failing_more;
      [reflexivity | reflexivity | reflexivity | reflexivity |].
    eapply failing_more;
      [reflexivity | reflexivity | reflexivity | reflexivity |].
    apply failing_none.
  - unfold r. rewrite Hbody. cbn [outcome events final compiler].
    split; [reflexivity|]. split; [exact Hexecs | exact Hqueue].
Defined.

(** C1, as stated, fails: with an instruction whose action fails three
    times and a second instruction behind it, [run] returns normally, the
    compiler has been asked to retry three times, not two, and the second
    instruction has been stepped and executed. *)
Lemma budget_exhausted_counterexample :
  let r := run Bench.desk Bench.tab Bench.plain 2
             (Bench.start ["env.missing()"; "env.get('b')"]) in
  outcome r = Returns tt /\
  retries (events r) = 3 /\
  stepped (events r) = ["env.missing()"; "env.get('b')"] /\
  In (EvExec "env.get('b')" true) (events r).
Proof.
  vm_compute. repeat split. do 8 right. now left.
Qed.

(** ** Session teardown *)

Lemma loop_ending_teardowns {A : Type} (o : Result A) evs :
  loop_ending o evs -> teardowns evs = 0.
Proof.
  intros [a e Hc | code e Hc Hd | x e Hc Hx | e Hc];
    try now apply calm_teardowns.
  unfold teardowns. rewrite count_app.
  change (count is_quit e) with (teardowns e).
  now rewrite (calm_teardowns e Hc).
Qed.

Lemma run_ending_teardowns {A : Type} (o : Result A) evs :
  run_ending o evs ->
  teardowns evs = match o with Returns _ => 1 | _ => 0 end.
Proof.
  intros [a e Hc | o' e Hn H].
  - unfold teardowns. rewrite count_app.
    change (count is_quit e) with (teardowns e).
    now rewrite (calm_teardowns e Hc).
  - rewrite (loop_ending_teardowns _ _ H).
    destruct o' as [a | x |]; [now elim (Hn a) | reflexivity | reflexivity].
Qed.

Section SessionFacts.

Context {C W : Type}.
Variable ic : Compiler C.
Variable br : Browser W.
Variable agent : Agent.
Variable closed : W -> Prop.
Hypothesis exec_keeps_open :
  forall code w, ~ closed w -> ~ closed (landing (exec br code w)).

Lemma keeps_open_bind {A B : Type} (x : EngineM C W A)
  (k : A -> EngineM C W B) :
  keeps_open closed x -> (forall a, keeps_open closed (k a)) ->
  keeps_open closed (bind x k).
Proof.
  intros Hx Hk m Hm. unfold bind. pose proof (Hx m Hm) as H.
  destruct (outcome (x m)) as [a | e |]; cbn [final]; [|exact H | exact H].
  now apply Hk.
Qed.

Lemma keeps_open_still {A : Type} (x : EngineM C W A) :
  (forall m, world (final (x m)) = world m) -> keeps_open closed x.
Proof. intros H m Hm. now rewrite H. Qed.

Lemma keeps_open_try_exec code : keeps_open closed (try_exec (C:=C) br code).
Proof.
  intros m Hm. unfold try_exec.
  pose proof (exec_keeps_open code (world m) Hm) as H.
  now destruct (exec br code (world m)).
Qed.

Lemma keeps_open_recover action format_exc :
  keeps_open closed (recover (W:=W) ic agent action format_exc).
Proof.
  assert (Hlift : forall (A : Type) (x : Exn + A),
             keeps_open closed (@lift C W A x))
    by (intros A x; apply keeps_open_still; intros m; now destruct x).
  unfold recover.
  apply keeps_open_bind; [apply Hlift|]. intros trace.
  apply keeps_open_bind; [apply Hlift|]. intros problem.
  apply keeps_open_bind;
    [apply keeps_open_still; intros m; now destruct (debug agent)|].
  intros _. apply keeps_open_bind; [|intros r; now apply keeps_open_still].
  apply keeps_open_still. intros m. unfold compiler_retry.
  now destruct (retry ic _ (compiler m)).
Qed.

Lemma keeps_open_attempt_evals n action :
  keeps_open closed (attempt_evals ic br agent n action).
Proof.
  revert action. induction n as [|n IH]; intros action; cbn [attempt_evals].
  - now apply keeps_open_still.
  - apply keeps_open_bind; [apply keeps_open_try_exec|].
    intros [tb|]; [|now apply keeps_open_still].
    apply keeps_open_bind; [apply keeps_open_recover | exact IH].
Qed.

Lemma keeps_open_check_danger code :
  keeps_open closed (@check_danger C W code).
Proof.
  apply keeps_open_still. intros m. unfold check_danger.
  now destruct (is_potentially_dangerous code).
Qed.

Lemma keeps_open_loop_body : keeps_open closed (loop_body ic br agent).
Proof.
  unfold loop_body. apply keeps_open_bind.
  { apply keeps_open_still. intros m. now rewrite compiler_step_reply. }
  intros r. apply keeps_open_bind; [apply keeps_open_check_danger|].
  intros _. apply keeps_open_attempt_evals.
Qed.

Lemma keeps_open_drain fuel : keeps_open closed (drain ic br agent fuel).
Proof.
  induction fuel as [|fuel IH]; intros m; cbn [drain];
    destruct (instructions_queue ic (compiler m)); try (intros H; exact H).
  apply keeps_open_bind; [apply keeps_open_loop_body | intros _; exact IH].
Qed.

(** Where [run] leaves the session: closed by the teardown when it
    returns, and as open as it was when it does not. *)
Lemma run_session (quit_closes : forall w, closed (driver_quit br w))
  fuel (m : Machine C W) :
  ~ closed (world m) ->
  let r := run ic br agent fuel m in
  match outcome r with
  | Returns _ => closed (world (final r))
  | _ => ~ closed (world (final r))
  end.
Proof.
  intros Hm r. unfold r, run.
  destruct (use_compiled ic (compiler m) &&
            match compiled_instructions ic (compiler m) with
            | [] => false
            | _ :: _ => true
            end).
  - set (code := strip_fences _).
    destruct (is_potentially_dangerous code) eqn:Hd.
    + now rewrite (replay_rejected br code m Hd).
    + pose proof (exec_keeps_open code (world m) Hm) as H.
      destruct (exec br code (world m)) as [w | tb w] eqn:He.
      * rewrite (replay_finished br code m w Hd He). apply quit_closes.
      * now rewrite (replay_raised br code m tb w Hd He).
  - unfold step_through_instructions.
    pose proof (keeps_open_drain fuel m Hm) as Hk.
    rewrite outcome_bind, final_bind.
    destruct (outcome (drain ic br agent fuel m)) as [u | e |];
      [|exact Hk | exact Hk].
    destruct (instruction_output_file agent) as [file|];
      [destruct (file =? "")%string|]; cbn; apply quit_closes.
Qed.

End SessionFacts.

(** C2, as the code has it.  With a compiler that obeys its laws and fuel
    for every pending instruction, [run] ends, and the session is closed
    exactly once when [run] returns normally, on either path, and not at
    all when [run] is left by an exception or by the exit of the process:
    the teardown is counted once, respectively not at all, and the
    session, open at the start and not closed by generated code, is
    closed after a return and still open after anything else. *)
Theorem teardown_once_on_return {C W : Type} (ic : Compiler C)
  (br : Browser W) (agent : Agent) (fuel : nat) (m : Machine C W) :
  CompilerLaws ic ->
  List.length (instructions_queue ic (compiler m)) <= fuel ->
  let r := run ic br agent fuel m in
  outcome r <> OutOfFuel /\
  teardowns (events r) = match outcome r with Returns _ => 1 | _ => 0 end /\
  forall closed : W -> Prop,
    (forall w, closed (driver_quit br w)) ->
    (forall code w, ~ closed w -> ~ closed (landing (exec br code w))) ->
    ~ closed (world m) ->
    match outcome r with
    | Returns _ => closed (world (final r))
    | _ => ~ closed (world (final r))
    end.
Proof.
  intros L Hlen r. split; [|split].
  - now apply run_terminates.
  - apply run_ending_teardowns, run_ending_run.
  - intros closed Hquit Hexec Hm. now apply run_session.
Qed.

Lemma teardown_once_on_return_witness :
  let r := run Bench.desk Bench.tab Bench.plain 2
             (Bench.start ["env.get('a')"; "env.missing()|env.click('b')"]) in
  outcome r = Returns tt /\ teardowns (events r) = 1 /\
  Bench.open (world (final r)) = false.
Proof.
  intros r.
  destruct (teardown_once_on_return Bench.desk Bench.tab Bench.plain 2
              (Bench.start ["env.get('a')"; "env.missing()|env.click('b')"])
              bench_laws) as (_ & H & Hc).
  - simpl. lia.
  - fold r in H, Hc. split; [reflexivity|]. split; [exact H|].
    apply (Hc (fun t => Bench.open t = false)).
    + reflexivity.
    + intros code w Hw. unfold Bench.tab, Bench.tab_exec. cbn [exec].
      destruct (Bench.first_bad 1 (Py.split Py.nl code)); exact Hw.
    + discriminate.
Defined.

(** C2, as stated, fails: a cached plan whose execution raises leaves
    [run] by that exception, and the session is never closed. *)
Lemma teardown_counterexample :
  let r := run Bench.desk Bench.tab Bench.plain 0
             (Bench.cached ["env.get('a')"; "env.missing()"]) in
  outcome r = Raises (ExecError (Bench.name_error_trace 2)) /\
  teardowns (events r) = 0 /\
  Bench.open (world (final r)) = true.
Proof. vm_compute. repeat split. Qed.

(** ** A rejection by the safety gate *)

Lemma loop_ending_danger {A : Type} (o : Result A) evs code :
  loop_ending o evs -> In (EvDanger code) evs ->
  is_potentially_dangerous code = true /\
  o = Raises (SystemExit 1) /\
  exists before, evs = (before ++ [EvDanger code])%list /\ calm before.
Proof.
  intros [a e Hc | code' e Hc Hd | x e Hc Hx | e Hc] Hin;
    try now elim (calm_no_danger _ code Hc).
  apply in_app_or in Hin. destruct Hin as [Hin | [Heq | []]].
  - now elim (calm_no_danger _ code Hc).
  - inversion Heq; subst. split; [exact Hd|]. split; [reflexivity|].
    now exists e.
Qed.

(** C8.  Whenever the gate rejects a piece of code in the course of
    [run], on either path, the call is left by [sys.exit(1)], the
    rejection is the last thing that happens (no execution, no retry and
    no further [step] follow it), and the session is never closed. *)
Theorem rejection_aborts_run {C W : Type} (ic : Compiler C) (br : Browser W)
  (agent : Agent) (fuel : nat) (m : Machine C W) (code : string) :
  let r := run ic br agent fuel m in
  In (EvDanger code) (events r) ->
  is_potentially_dangerous code = true /\
  check_danger code m = mkReply (Raises (SystemExit 1)) m [EvDanger code] /\
  outcome r = Raises (SystemExit 1) /\
  (exists before,
     events r = (before ++ [EvDanger code])%list /\ calm before) /\
  teardowns (events r) = 0.
Proof.
  intros r Hin. pose proof (run_ending_run ic br agent fuel m) as H.
  fold r in H.
  assert (Hl : loop_ending (outcome r) (events r)).
  { destruct H as [a e Hc | o e Hn Hl]; [|exact Hl].
    apply in_app_or in Hin. destruct Hin as [Hin | [Heq | []]].
    - now elim (calm_no_danger _ code Hc).
    - discriminate Heq. }
  destruct (loop_ending_danger _ _ _ Hl Hin) as (Hd & Ho & Hb).
  split; [exact Hd|]. split; [now apply check_danger_rejects|].
  split; [exact Ho|]. split; [exact Hb|].
  now apply loop_ending_teardowns with (o := outcome r).
Qed.

Lemma rejection_aborts_run_witness :
  let r := run Bench.desk Bench.tab (mkAgent (Some "plan.yaml") false) 3
             (Bench.start ["env.get('a')"; "import os"; "env.get('c')"]) in
  outcome r = Raises (SystemExit 1) /\
  teardowns (events r) = 0 /\
  stepped (events r) = ["env.get('a')"; "import os"] /\
  Bench.queue (compiler (final r)) = ["env.get('c')"].
Proof.
  intros r.
  destruct (rejection_aborts_run Bench.desk Bench.tab
              (mkAgent (Some "plan.yaml") false) 3
              (Bench.start ["env.get('a')"; "import os"; "env.get('c')"])
              "import os") as (_ & _ & Ho & _ & Ht).
  - vm_compute. do 3 right. now left.
  - fold r in Ho, Ht. split; [exact Ho|]. split; [exact Ht|].
    split; reflexivity.
Defined.

(** ** Removing code fences keeps what the gate looks for *)

Lemma occurs_append_l (sub a x : string) : occurs sub a -> occurs sub (a ++ x).
Proof.
  intros [pre [post ->]]. exists pre, (post ++ x).
  now rewrite !append_assoc.
Qed.

Lemma occurs_append_r (sub a b : string) : occurs sub b -> occurs sub (a ++ b).
Proof.
  intros [pre [post ->]]. exists (a ++ pre), post.
  now rewrite !append_assoc.
Qed.

Lemma prefix_before_fence (sub a x : string) :
  Py.contains "`" sub = false ->
  prefix sub (a ++ String "`" x) = true ->
  prefix sub a = true.
Proof.
  revert a. induction sub as [|c sub IH]; intros a Hfree Hp.
  - apply prefix_nil.
  - cbn [Py.contains] in Hfree. apply orb_false_iff in Hfree.
    destruct Hfree as [Hc Hfree]. cbn in Hc.
    destruct a as [|d a]; cbn in Hp |- *.
    + destruct (ascii_dec c "`") as [-> | Hne]; [|discriminate].
      cbn in Hc. rewrite prefix_nil in Hc. discriminate.
    + destruct (ascii_dec c d); [|discriminate]. now apply IH.
Qed.

Lemma contains_around_fence (sub a b : string) :
  Py.contains "`" sub = false ->
  Py.contains sub (a ++ "```" ++ b) = true ->
  Py.contains sub a = true \/ Py.contains sub b = true.
Proof.
  intros Hfree. induction a as [|d a IH]; intros H.
  - destruct sub as [|c sub].
    + right. apply contains_iff. now exists "", b.
    + right. cbn [Py.contains] in Hfree. apply orb_false_iff in Hfree.
      destruct Hfree as [Hc _]. cbn in Hc.
      assert (Hne : c <> "`"%char).
      { intros ->. cbn in Hc. rewrite prefix_nil in Hc. discriminate. }
      cbn in H.
      destruct (ascii_dec c "`") as [E | _]; [contradiction|].
      exact H.
  - change (String d a ++ "```" ++ b) with (String d (a ++ "```" ++ b)) in H.
    cbn [Py.contains] in H. apply orb_true_iff in H. destruct H as [H | H].
    + left. cbn [Py.contains]. apply orb_true_iff. left.
      apply (prefix_before_fence sub (String d a) ("``" ++ b) Hfree H).
    + destruct (IH H) as [Ha | Hb]; [left | now right].
      cbn [Py.contains]. apply orb_true_iff. now right.
Qed.

Lemma contains_replace_fences (sub : string) (n : nat) (s : string) :
  Py.contains "`" sub = false ->
  Py.contains sub s = true ->
  Py.contains sub (Py.replace_from n "```" "" s) = true.
Proof.
  intros Hfree. revert s. induction n as [|n IH]; intros s H;
    cbn [Py.replace_from];
    destruct (Py.cut "```" s) as [[a b]|] eqn:Hcut; try exact H.
  destruct (cut_some _ _ _ _ Hcut) as [Hs _]. rewrite Hs in H.
  apply contains_iff.
  destruct (contains_around_fence sub a b Hfree H) as [Ha | Hb].
  - apply occurs_append_l. now apply contains_iff.
  - apply occurs_append_r, occurs_append_r. apply contains_iff. now apply IH.
Qed.

Lemma flagged_strip_fences (code : string) :
  flagged code -> flagged (strip_fences code).
Proof.
  unfold strip_fences, Py.replace.
  intros [H | [name [Hin H]]].
  - left. apply contains_iff, contains_replace_fences; [reflexivity|].
    now apply contains_iff.
  - right. exists name. split; [exact Hin|].
    apply contains_iff, contains_replace_fences; [|now apply contains_iff].
    destruct Hin as [<- | [<- | [<- | []]]]; reflexivity.
Qed.

(** ** The replay path *)

(** C9, as the code has it.  With caching enabled and a non-empty cached
    plan in whose concatenation the import keyword followed by a space,
    or one of the three denied names, occurs, [run] ends by [sys.exit(1)]
    at the gate: the machine is untouched, nothing was executed, the
    session was not closed. *)
Theorem replay_is_gated {C W : Type} (ic : Compiler C) (br : Browser W)
  (agent : Agent) (fuel : nat) (m : Machine C W) :
  use_compiled ic (compiler m) = true ->
  compiled_instructions ic (compiler m) <> [] ->
  flagged (Py.join Py.nl (compiled_instructions ic (compiler m))) ->
  let code :=
    strip_fences (Py.join Py.nl (compiled_instructions ic (compiler m))) in
  let r := run ic br agent fuel m in
  r = mkReply (Raises (SystemExit 1)) m [EvDanger code] /\
  executions (events r) = 0 /\
  teardowns (events r) = 0.
Proof.
  intros Hu Hne Hf code r.
  assert (Hr : r = mkReply (Raises (SystemExit 1)) m [EvDanger code]).
  { unfold r, run. rewrite Hu.
    destruct (compiled_instructions ic (compiler m)) as [|x l] eqn:Hp;
      [contradiction|]. cbn [andb].
    apply replay_rejected. fold code.
    now apply dangerous_iff, flagged_strip_fences. }
  rewrite Hr. repeat split.
Qed.

Lemma replay_is_gated_witness :
  let r := run Bench.desk Bench.tab Bench.plain 0
             (Bench.cached ["env.get('a')"; "```import shutil```"]) in
  outcome r = Raises (SystemExit 1) /\
  executions (events r) = 0 /\
  Bench.ran (world (final r)) = [].
Proof.
  intros r.
  destruct (replay_is_gated Bench.desk Bench.tab Bench.plain 0
              (Bench.cached ["env.get('a')"; "```import shutil```"]))
    as (Hr & He & _).
  - reflexivity.
  - discriminate.
  - left. exists ("env.get('a')" ++ Py.nl ++ "```"), "shutil```".
    reflexivity.
  - fold r in Hr, He. rewrite Hr. repeat split.
Defined.

(** C9, as stated, fails: a cached plan that consists of an import
    statement written without a space after its keyword passes the gate
    and is executed. *)
Lemma replay_gate_counterexample :
  let m := Bench.cached ["from os import*"] in
  let r := run Bench.desk Bench.tab Bench.plain 0 m in
  spec_rejects
    (Py.join Py.nl (compiled_instructions Bench.desk (compiler m))) = true /\
  outcome r = Returns tt /\
  events r = [EvExec "from os import*" true; EvQuit].
Proof. vm_compute. repeat split. Qed.

(** C4, as the code has it.  [run] replays exactly when caching is enabled
    and the cached plan is not empty.  It then joins the cached actions in
    order, removes the code fences and puts the result before the gate,
    without ever calling [step] or [retry]: a rejected unit ends the
    process unexecuted; an accepted unit is executed once, and the
    session is closed after it if it ran to its end, while a failure
    leaves [run] at once.  In every other case [run] is the step loop. *)
Theorem replay_path {C W : Type} (ic : Compiler C) (br : Browser W)
  (agent : Agent) (fuel : nat) (m : Machine C W) :
  let plan := compiled_instructions ic (compiler m) in
  let code := strip_fences (Py.join Py.nl plan) in
  let r := run ic br agent fuel m in
  (use_compiled ic (compiler m) = true /\ plan <> [] ->
   stepped (events r) = [] /\
   retries (events r) = 0 /\
   (is_potentially_dangerous code = true ->
    r = mkReply (Raises (SystemExit 1)) m [EvDanger code]) /\
   (forall w,
      is_potentially_dangerous code = false ->
      exec br code (world m) = Finished w ->
      r = mkReply (Returns tt) (mkMachine (compiler m) (driver_quit br w))
            [EvExec code true; EvQuit]) /\
   (forall format_exc w,
      is_potentially_dangerous code = false ->
      exec br code (world m) = Raised format_exc w ->
      r = mkReply (Raises (ExecError format_exc)) (mkMachine (compiler m) w)
            [EvExec code false])) /\
  (~ (use_compiled ic (compiler m) = true /\ plan <> []) ->
   r = step_through_instructions ic br agent fuel m).
Proof.
  intros plan code r. split.
  - intros [Hu Hne].
    assert (Hr : r = run_compiled_instructions br code m).
    { unfold r, run. rewrite Hu. fold plan.
      destruct plan; [contradiction | reflexivity]. }
    assert (H1 : is_potentially_dangerous code = true ->
                 r = mkReply (Raises (SystemExit 1)) m [EvDanger code])
      by (intros Hd; rewrite Hr; now apply replay_rejected).
    assert (H2 : forall w,
               is_potentially_dangerous code = false ->
               exec br code (world m) = Finished w ->
               r = mkReply (Returns tt)
                     (mkMachine (compiler m) (driver_quit br w))
                     [EvExec code true; EvQuit])
      by (intros w Hd He; rewrite Hr; now apply replay_finished).
    assert (H3 : forall format_exc w,
               is_potentially_dangerous code = false ->
               exec br code (world m) = Raised format_exc w ->
               r = mkReply (Raises (ExecError format_exc))
                     (mkMachine (compiler m) w) [EvExec code false])
      by (intros tb w Hd He; rewrite Hr; now apply replay_raised).
    assert (H0 : stepped (events r) = [] /\ retries (events r) = 0).
    { destruct (is_potentially_dangerous code) eqn:Hd.
      - rewrite (H1 eq_refl). now split.
      - destruct (exec br code (world m)) as [w | tb w] eqn:He.
        + rewrite (H2 w eq_refl eq_refl). now split.
        + rewrite (H3 tb w eq_refl eq_refl). now split. }
    destruct H0 as [Hs Ht]. repeat split; assumption.
  - intros Hn. unfold r, run. fold plan.
    destruct (use_compiled ic (compiler m)); [|reflexivity].
    destruct plan; [reflexivity|].
    elim Hn. split; [reflexivity | discriminate].
Qed.

Lemma replay_path_witness :
  let r := run Bench.desk Bench.tab Bench.plain 0
             (Bench.cached ["env.get('a')"; "```env.click('b')```";
                            "env.wait(1)"]) in
  events r =
    [EvExec ("env.get('a')" ++ Py.nl ++ "env.click('b')" ++ Py.nl ++
             "env.wait(1)") true; EvQuit] /\
  stepped (events r) = [].
Proof.
  intros r.
  destruct (replay_path Bench.desk Bench.tab Bench.plain 0
              (Bench.cached ["env.get('a')"; "```env.click('b')```";
                             "env.wait(1)"])) as [H _].
  destruct H as (Hs & _ & _ & Hok & _).
  - split; [reflexivity | discriminate].
  - fold r in Hs, Hok. split; [|exact Hs].
    rewrite (Hok _ eq_refl eq_refl). reflexivity.
Defined.

(** C4, as stated, fails: with caching enabled and a cached plan of two
    actions, one of which imports a module, [run] executes nothing and
    closes no session; the process exits at the gate. *)
Lemma replay_path_counterexample :
  let m := Bench.cached ["env.get('a')"; "import os"] in
  let r := run Bench.desk Bench.tab Bench.plain 0 m in
  use_compiled Bench.desk (compiler m) = true /\
  compiled_instructions Bench.desk (compiler m) <> [] /\
  outcome r = Raises (SystemExit 1) /\
  executions (events r) = 0 /\
  teardowns (events r) = 0.
Proof. vm_compute. repeat split. discriminate. Qed.

(** ** The step loop when every action succeeds at once *)

Lemma drain_first_try {C W : Type} (ic : Compiler C) (br : Browser W)
  (agent : Agent) (L : CompilerLaws ic) (n : nat) (m m' : Machine C W)
  (evs : list Event) :
  first_try ic br n m m' evs ->
  forall fuel,
    List.length (instructions_queue ic (compiler m)) = n ->
    n <= fuel ->
    drain ic br agent fuel m = mkReply (Returns tt) m' evs /\
    instructions_queue ic (compiler m') = [] /\
    executions evs = n /\
    count is_step evs = n /\
    stepped evs = instructions_queue ic (compiler m) /\
    retries evs = 0.
Proof.
  induction 1 as [m | n m w m' evs Hgate He _ IH]; intros fuel Hq Hlen.
  - apply length_zero_iff_nil in Hq.
    rewrite (drain_empty ic br agent fuel m Hq), Hq. repeat split.
  - destruct (instructions_queue ic (compiler m)) as [|i q] eqn:Hqueue;
      [discriminate|].
    destruct fuel as [|fuel]; [lia|].
    destruct (step_dequeues ic L _ _ _ Hqueue) as [Hi Hq'].
    set (r := fst (step ic (compiler m))) in *.
    set (a := strip_fences (action_output r)) in *.
    set (m1 := mkMachine (snd (step ic (compiler m))) w) in *.
    assert (Hbody : loop_body ic br agent m =
                    mkReply (Returns tt) m1 [EvStep r; EvExec a true]).
    { apply loop_body_attempts; [exact Hgate|]. fold r a.
      unfold max_attempts. cbn [attempt_evals].
      now rewrite (bind_reply _ _ _ _ _ _
                     (try_exec_finished br a (mkMachine _ (world m)) w He)). }
    destruct (IH fuel) as (Hd & Hfin & Hx & Hc & Hs & Hr).
    { cbn in Hq. unfold m1. cbn [compiler]. rewrite Hq'. lia. }
    { lia. }
    rewrite (drain_next ic br agent fuel m i q Hqueue).
    rewrite (bind_reply _ _ _ _ _ _ Hbody), Hd.
    split; [reflexivity|]. split; [exact Hfin|].
    unfold executions, retries in *.
    change (EvStep r :: EvExec a true :: evs)
      with ([EvStep r; EvExec a true] ++ evs)%list.
    rewrite !count_app, stepped_app, Hx, Hc, Hs, Hr.
    unfold m1. cbn. rewrite Hi, Hq'. repeat split.
Qed.

(** C6.  A queue of [N] instructions each of whose actions passes the gate
    and runs to its end at the first attempt: the loop over the queue
    returns with exactly the events of the scenario, a call of [step]
    and the execution of its action for each instruction in turn, and
    leaves the browser where the last of these executions left it; the
    step loop then persists and closes the session.  It has executed
    exactly [N] actions, has called [step] exactly [N] times, receiving
    the instructions of the queue in their order, has never called
    [retry], and has emptied the queue. *)
Theorem all_succeed_first_try {C W : Type} (ic : Compiler C)
  (br : Browser W) (agent : Agent) (fuel : nat) (m m' : Machine C W)
  (evs : list Event) :
  CompilerLaws ic ->
  let N := List.length (instructions_queue ic (compiler m)) in
  first_try ic br N m m' evs ->
  N <= fuel ->
  let r := step_through_instructions ic br agent fuel m in
  drain ic br agent fuel m = mkReply (Returns tt) m' evs /\
  r = mkReply (Returns tt)
        (mkMachine (persist ic agent (compiler m'))
           (driver_quit br (world m')))
        (evs ++ persisted agent ++ [EvQuit]) /\
  outcome r = Returns tt /\
  executions (events r) = N /\
  count is_step (events r) = N /\
  stepped (events r) = instructions_queue ic (compiler m) /\
  retries (events r) = 0 /\
  instructions_queue ic (compiler (final (drain ic br agent fuel m))) = [].
Proof.
  intros L N Hft Hlen r.
  destruct (drain_first_try ic br agent L N m m' evs Hft fuel eq_refl Hlen)
    as (Hd & Hfin & Hx & Hc & Hs & Hr).
  assert (Hrun : r = mkReply (Returns tt)
                       (mkMachine (persist ic agent (compiler m'))
                          (driver_quit br (world m')))
                       (evs ++ persisted agent ++ [EvQuit])).
  { unfold r, step_through_instructions.
    now rewrite (bind_reply _ _ _ _ _ _ Hd), save_then_quit_machine. }
  split; [exact Hd|]. split; [exact Hrun|].
  rewrite Hrun, Hd. cbn [outcome events final].
  unfold executions, retries, persisted in *.
  rewrite !count_app, !stepped_app, Hx, Hc, Hs, Hr.
  destruct (instruction_output_file agent) as [file|];
    [destruct (file =? "")%string|]; cbn; rewrite ?app_nil_r;
    repeat split; try exact Hfin; fold N; lia.
Qed.

Lemma all_succeed_first_try_witness :
  let r := step_through_instructions Bench.desk Bench.tab
             (mkAgent (Some "plan.yaml") false) 3
             (Bench.start ["env.get('a')"; "env.click('b')"; "env.wait(1)"]) in
  outcome r = Returns tt /\
  events r =
    [EvStep (mkStep "env.get('a')" "env.get('a')");
     EvExec "env.get('a')" true;
     EvStep (mkStep "env.click('b')" "env.click('b')");
     EvExec "env.click('b')" true;
     EvStep (mkStep "env.wait(1)" "env.wait(1)");
     EvExec "env.wait(1)" true;
     EvSave "plan.yaml"; EvQuit] /\
  world (final r) =
    Bench.mkTab ["env.get('a')"; "env.click('b')"; "env.wait(1)"] false /\
  retries (events r) = 0.
Proof.
  intros r.
  edestruct (all_succeed_first_try Bench.desk Bench.tab
               (mkAgent (Some "plan.yaml") false) 3
               (Bench.start ["env.get('a')"; "env.click('b')"; "env.wait(1)"]))
    as (_ & Hrun & _ & _ & _ & _ & Hr & _).
  - exact bench_laws.
  - cbn [List.length instructions_queue Bench.desk Bench.start compiler
         Bench.queue].
    eapply first_try_more; [reflexivity | reflexivity |].
    eapply first_try_more; [reflexivity | reflexivity |].
    eapply first_try_more; [reflexivity | reflexivity |].
    apply first_try_none.
  - simpl. lia.
  - fold r in Hrun, Hr. rewrite Hrun. repeat split.
Defined.

(** ** The failure context extractor *)

Lemma split_from_eq (n : nat) (sep s : string) :
  Py.split_from n sep s =
  match Py.cut sep s with
  | None => [s]
  | Some (a, b) =>
      match n with
      | O => [s]
      | S k => a :: Py.split_from k sep b
      end
  end.
Proof. now destruct n. Qed.

(** The first piece of a split is the text up to the separator, or all of
    the text. *)
Lemma split_from_head (n : nat) (sep s : string) :
  exists h tl tail,
    Py.split_from n sep s = h :: tl /\
    s = h ++ tail /\
    (tail = "" \/ prefix sep tail = true).
Proof.
  rewrite split_from_eq.
  destruct (Py.cut sep s) as [[a b]|] eqn:Hcut.
  - destruct n as [|n].
    + exists s, [], "". rewrite append_nil_r. auto.
    + exists a, (Py.split_from n sep b), (sep ++ b).
      destruct (cut_some _ _ _ _ Hcut) as [Hs _].
      repeat split; [exact Hs|]. right. apply prefix_iff. now exists b.
  - exists s, [], "". rewrite append_nil_r. auto.
Qed.

(** The second piece of a split starts right after the leftmost
    separator. *)
Lemma split_second (sep s y : string) :
  nth_error (Py.split sep s) 1 = Some y ->
  exists pre tail,
    s = pre ++ sep ++ y ++ tail /\
    leftmost sep pre s /\
    (tail = "" \/ prefix sep tail = true).
Proof.
  unfold Py.split. rewrite split_from_eq.
  destruct (Py.cut sep s) as [[a b]|] eqn:Hcut; [|discriminate].
  destruct (String.length s) as [|n]; [discriminate|].
  cbn [nth_error].
  destruct (split_from_head n sep b) as (h & tl & tail & -> & Hb & Ht).
  cbn [nth_error]. intros Hy; inversion Hy; subst h; clear Hy.
  destruct (cut_some _ _ _ _ Hcut) as [Hs Hl].
  exists a, tail. rewrite <- Hb. auto.
Qed.

(** Where the number of a diagnostic comes from: it is the text that
    follows the leftmost occurrence of the delimiter in the excerpt, up
    to a comma, the next delimiter or the end. *)
Lemma line_number_leftmost (format_exc : string) (trace : StackTraceResult) :
  get_relevant_part_of_stack_trace format_exc = inr trace ->
  stack_trace trace <> "" /\
  exists pre number rest,
    stack_trace trace = pre ++ "line " ++ number ++ rest /\
    leftmost "line " pre (stack_trace trace) /\
    Py.int number = Some (line_num trace) /\
    (rest = "" \/ prefix "," rest = true \/ prefix "line " rest = true).
Proof.
  intros Htrace.
  unfold get_relevant_part_of_stack_trace in Htrace.
  destruct (nth_error (Py.split "line " (trimmed_trace format_exc)) 1)
    as [y|] eqn:Hy; [|discriminate].
  destruct (Py.int (hd "" (Py.split "," y))) as [n|] eqn:Hint;
    [|discriminate].
  inversion Htrace; subst trace; clear Htrace. cbn [stack_trace line_num].
  destruct (split_second _ _ _ Hy) as (pre & tail & Hs & Hl & Ht).
  destruct (split_from_head (String.length y) "," y)
    as (number & tl & tail2 & Hsplit & Hyn & Ht2).
  unfold Py.split in Hint. rewrite Hsplit in Hint. cbn [hd] in Hint.
  split.
  { rewrite Hs. destruct pre; discriminate. }
  exists pre, number, (tail2 ++ tail).
  split; [|split; [exact Hl | split; [exact Hint|]]].
  - rewrite Hs at 1. rewrite Hyn. now rewrite !append_assoc.
  - destruct Ht2 as [-> | Hc].
    + destruct Ht as [-> | Hp]; [now left | right; right; exact Hp].
    + right; left. apply prefix_iff in Hc. destruct Hc as [t ->].
      apply prefix_iff. exists (t ++ tail). now rewrite append_assoc.
Qed.

(** ** The persistence destination *)

(** C10.  A destination that is given and does not end in [.yaml] makes
    the constructor fail on its assertion, before the browser session is
    opened; so an agent that was built has either no destination or one
    that ends in [.yaml], and whatever a run of it persists goes to a
    destination that ends in [.yaml]. *)
Theorem yaml_destination_only {C W : Type} (ic : Compiler C) (br : Browser W)
  (instructions chromedriver_path user_data_dir : string)
  (headless dbg : bool) (output : option string) :
  let b := init ic br instructions chromedriver_path user_data_dir
             headless dbg output in
  (forall file,
     output = Some file -> Py.endswith file ".yaml" = false ->
     b = mkBuilt
           (inl (AssertionError
                   "Instruction output file must be a YAML file or None."))
           []) /\
  (forall agent m,
     built b = inr (agent, m) ->
     instruction_output_file agent = output /\
     init_events b = [EvChrome] /\
     forall fuel file,
       In (EvSave file) (events (run ic br agent fuel m)) ->
       Py.endswith file ".yaml" = true).
Proof.
  intros b. split.
  - intros file -> Hy. unfold b, init. now rewrite Hy.
  - intros agent m Hb. unfold b, init in *.
    destruct (match output with
              | Some file => Py.endswith file ".yaml"
              | None => true
              end) eqn:Hok; cbn in Hb; [|discriminate].
    inversion Hb; subst agent m; clear Hb. cbn [instruction_output_file].
    split; [reflexivity|]. split; [reflexivity|].
    intros fuel file Hin.
    apply run_saves_to_destination in Hin. cbn in Hin. subst output.
    exact Hok.
Qed.

Lemma yaml_destination_only_witness :
  built (init Bench.desk Bench.tab "env.get('a')" "/usr/bin/chromedriver"
           "user_data" true false (Some "plan.json")) =
    inl (AssertionError
           "Instruction output file must be a YAML file or None.") /\
  init_events (init Bench.desk Bench.tab "env.get('a')"
                 "/usr/bin/chromedriver" "user_data" true false
                 (Some "plan.json")) = [].
Proof.
  destruct (yaml_destination_only Bench.desk Bench.tab "env.get('a')"
              "/usr/bin/chromedriver" "user_data" true false
              (Some "plan.json")) as [H _].
  rewrite (H "plan.json" eq_refl eq_refl). split; reflexivity.
Defined.

(** ** The step loop: what the gate does not see *)

(** An action that [retry] returns is executed without passing the gate:
    when the first action of an instruction fails and the action
    regenerated after one or two failures is one the gate would reject,
    that action is executed all the same, and the turn of the loop
    returns normally without any rejection. *)
Theorem retried_action_skips_gate {C W : Type} (ic : Compiler C)
  (br : Browser W) (agent : Agent) (k : nat) (m m' : Machine C W)
  (a' : string) (evs : list Event) (w' : W) :
  let r := fst (step ic (compiler m)) in
  let a := strip_fences (action_output r) in
  is_potentially_dangerous a = false ->
  failing ic br agent (S k) a
    (mkMachine (snd (step ic (compiler m))) (world m)) a' m' evs ->
  S k < max_attempts ->
  is_potentially_dangerous a' = true ->
  exec br a' (world m') = Finished w' ->
  let reply := loop_body ic br agent m in
  outcome reply = Returns tt /\
  In (EvExec a' true) (events reply) /\
  count is_danger (events reply) = 0.
Proof.
  intros r a Hgate Hfail Hk Hbad Hexec reply.
  assert (Hbody : reply = mkReply (Returns tt) (mkMachine (compiler m') w')
                            (EvStep r :: evs ++ [EvExec a' true])).
  { apply loop_body_attempts; [exact Hgate|]. fold r a.
    replace max_attempts with (S k + S (max_attempts - S (S k))) by lia.
    rewrite (attempt_evals_failing ic br agent _ _ _ _ _ _ Hfail).
    cbn [attempt_evals].
    rewrite (bind_reply _ _ _ _ _ _ (try_exec_finished br _ _ _ Hexec)).
    reflexivity. }
  rewrite Hbody. cbn [outcome events].
  split; [reflexivity|]. split.
  - right. apply in_or_app. right. now left.
  - destruct (failing_observed ic br agent _ _ _ _ _ _ Hfail)
      as (_ & _ & _ & Hcalm).
    change (EvStep r :: evs ++ [EvExec a' true])%list
      with ([EvStep r] ++ evs ++ [EvExec a' true])%list.
    rewrite !count_app. cbn.
    assert (Hz : count is_danger evs = 0).
    { clear - Hcalm. unfold count. induction evs as [|e evs IH].
      - reflexivity.
      - cbn. destruct (Hcalm e (or_introl eq_refl)) as [_ ->].
        apply IH. intros x Hx. apply Hcalm. now right. }
    rewrite Hz. reflexivity.
Qed.

Lemma retried_action_skips_gate_witness :
  let reply := loop_body Bench.desk Bench.tab Bench.plain
                 (Bench.start ["env.missing()|import os"]) in
  is_potentially_dangerous "import os" = true /\
  outcome reply = Returns tt /\
  In (EvExec "import os" true) (events reply).
Proof.
  intros reply.
  edestruct (retried_action_skips_gate Bench.desk Bench.tab Bench.plain 0
               (Bench.start ["env.missing()|import os"]))
    as (Ho & Hin & _).
  - reflexivity.
  - eapply failing_more;
      [reflexivity | reflexivity | reflexivity | reflexivity |].
    apply failing_none.
  - unfold max_attempts. lia.
  - reflexivity.
  - reflexivity.
  - split; [reflexivity|]. split; [exact Ho | exact Hin].
Defined.

(** ** The step loop: a failure inside the handler *)

Lemma recover_raises {C W : Type} (ic : Compiler C) (agent : Agent)
  (action format_exc : string) (e : Exn) (m : Machine C W) :
  (get_relevant_part_of_stack_trace format_exc = inl e \/
   exists trace,
     get_relevant_part_of_stack_trace format_exc = inr trace /\
     problem_instruction action (line_num trace) = inl e) ->
  recover ic agent action format_exc m = mkReply (Raises e) m [].
Proof.
  intros [H | [trace [Ht Hp]]]; unfold recover, bind, lift, raise, ret.
  - now rewrite H.
  - rewrite Ht. cbn. now rewrite Hp.
Qed.

(** When the handler of the step loop cannot build its diagnostic (the
    trace has no line number where it is looked for, or the number is
    past the lines of the action), the exception of the handler leaves
    the step loop at once: [retry] is not called, nothing is persisted,
    the session is not closed and the rest of the queue stays pending. *)
Theorem handler_failure_leaves_run {C W : Type} (ic : Compiler C)
  (br : Browser W) (agent : Agent) (fuel : nat) (m : Machine C W)
  (i : string) (q : list string) (format_exc : string) (w : W) (e : Exn) :
  instructions_queue ic (compiler m) = i :: q ->
  let r := fst (step ic (compiler m)) in
  let a := strip_fences (action_output r) in
  is_potentially_dangerous a = false ->
  exec br a (world m) = Raised format_exc w ->
  (get_relevant_part_of_stack_trace format_exc = inl e \/
   exists trace,
     get_relevant_part_of_stack_trace format_exc = inr trace /\
     problem_instruction a (line_num trace) = inl e) ->
  step_through_instructions ic br agent (S fuel) m =
    mkReply (Raises e) (mkMachine (snd (step ic (compiler m))) w)
      [EvStep r; EvExec a false] /\
  (e = IndexError \/ e = ValueError).
Proof.
  intros Hq r a Hgate Hexec Hfail.
  assert (Hbody : loop_body ic br agent m =
                  mkReply (Raises e) (mkMachine (snd (step ic (compiler m))) w)
                    [EvStep r; EvExec a false]).
  { unfold loop_body.
    rewrite (bind_reply _ _ _ _ _ _ (compiler_step_reply ic m)).
    rewrite (bind_reply _ _ _ _ _ _ (check_danger_accepts _ _ Hgate)).
    fold r a. unfold max_attempts. cbn [attempt_evals].
    rewrite (bind_reply _ _ _ _ _ _
               (try_exec_raised br a (mkMachine _ (world m)) _ _ Hexec)).
    cbv beta iota.
    rewrite (bind_raises _ _ _ _ _ _
               (recover_raises ic agent a format_exc e _ Hfail)).
    reflexivity. }
  split.
  - unfold step_through_instructions.
    apply bind_raises.
    rewrite (drain_next ic br agent fuel m i q Hq).
    apply bind_raises. exact Hbody.
  - destruct Hfail as [H | [trace [_ H]]].
    + now apply get_relevant_part_of_stack_trace_raises in H.
    + left. now apply problem_instruction_raises in H.
Qed.

Lemma handler_failure_leaves_run_witness :
  let action := "env.get('a')" ++ Py.nl ++ Py.nl ++ Py.nl ++ "env.missing()" in
  let reply := step_through_instructions Bench.desk Bench.tab
                 (mkAgent (Some "plan.yaml") false) 2
                 (Bench.start [action; "env.get('b')"]) in
  reply =
    mkReply (Raises IndexError)
      (mkMachine (Bench.mkDesk ["env.get('b')"] false [action] action 0 [])
                 (Bench.mkTab [] true))
      [EvStep (mkStep action action); EvExec action false].
Proof.
  intros action reply.
  edestruct (handler_failure_leaves_run Bench.desk Bench.tab
               (mkAgent (Some "plan.yaml") false) 1
               (Bench.start [action; "env.get('b')"]) action
               ["env.get('b')"] (Bench.name_error_trace 4)
               (Bench.mkTab [] true) IndexError) as [H _].
  - reflexivity.
  - reflexivity.
  - reflexivity.
  - right. exists (mkTrace (trimmed_trace (Bench.name_error_trace 4)) 4).
    split; reflexivity.
  - exact H.
Defined.

(** ** The step loop: how much it does, and when it persists *)

Section LoopAccounts.

Context {C W : Type}.
Variable ic : Compiler C.
Variable br : Browser W.
Variable agent : Agent.

Lemma recover_counts action format_exc (m : Machine C W) :
  let evs := events (recover ic agent action format_exc m) in
  executions evs = 0 /\ count is_step evs = 0 /\ retries evs <= 1.
Proof.
  destruct (get_relevant_part_of_stack_trace format_exc) as [e | trace] eqn:Ht.
  { rewrite (recover_raises ic agent action format_exc e m (or_introl Ht)).
    cbn. auto. }
  destruct (problem_instruction action (line_num trace)) as [e | p] eqn:Hp.
  { rewrite (recover_raises ic agent action format_exc e m).
    - cbn. auto.
    - right. now exists trace. }
  destruct (retry ic (p ++ stack_trace trace) (compiler m)) as [r c] eqn:Hr.
  rewrite (recover_returns ic agent action format_exc trace p r c m Ht Hp Hr).
  destruct (debug agent); cbn; auto.
Qed.

Lemma attempt_evals_counts n action (m : Machine C W) :
  let evs := events (attempt_evals ic br agent n action m) in
  executions evs <= n /\ retries evs <= executions evs /\
  count is_step evs = 0.
Proof.
  revert action m. induction n as [|n IH]; intros action m;
    cbn [attempt_evals].
  - cbn. auto.
  - destruct (exec br action (world m)) as [w | tb w] eqn:He.
    + rewrite (bind_reply _ _ _ _ _ _ (try_exec_finished br _ _ _ He)).
      cbn. repeat split; lia.
    + rewrite (bind_reply _ _ _ _ _ _ (try_exec_raised br _ _ _ _ He)).
      cbv beta iota. cbn [after events]. rewrite events_bind.
      set (m1 := mkMachine (compiler m) w).
      destruct (recover_counts action tb m1) as (Hx & Hs & Hr).
      unfold executions, retries in *. rewrite !count_app.
      destruct (outcome (recover ic agent action tb m1)) as [a' | e |].
      * destruct (IH a' (final (recover ic agent action tb m1)))
          as (Hx' & Hr' & Hs').
        cbn [count filter is_exec is_retry is_step List.length] in *.
        repeat split; lia.
      * cbn [count filter is_exec is_retry is_step List.length] in *.
        repeat split; lia.
      * cbn [count filter is_exec is_retry is_step List.length] in *.
        repeat split; lia.
Qed.

Lemma loop_body_counts (m : Machine C W) :
  let evs := events (loop_body ic br agent m) in
  count is_step evs = 1 /\ executions evs <= max_attempts /\
  retries evs <= executions evs.
Proof.
  unfold loop_body.
  rewrite (bind_reply _ _ _ _ _ _ (compiler_step_reply ic m)).
  cbn [after events].
  set (a := strip_fences (action_output (fst (step ic (compiler m))))).
  set (m1 := mkMachine (snd (step ic (compiler m))) (world m)).
  destruct (is_potentially_dangerous a) eqn:Hd.
  - rewrite (bind_raises _ _ _ _ _ _ (check_danger_rejects a m1 Hd)).
    cbn. repeat split; lia.
  - rewrite (bind_reply _ _ _ _ _ _ (check_danger_accepts a m1 Hd)).
    cbn [after events app].
    destruct (attempt_evals_counts max_attempts a m1) as (Hx & Hr & Hs).
    unfold executions, retries in *.
    change (EvStep (fst (step ic (compiler m))) ::
            events (attempt_evals ic br agent max_attempts a m1))
      with ([EvStep (fst (step ic (compiler m)))] ++
            events (attempt_evals ic br agent max_attempts a m1))%list.
    rewrite !count_app. cbn [count filter is_exec is_retry is_step
                             List.length] in *.
    repeat split; lia.
Qed.

Lemma drain_counts fuel (m : Machine C W) :
  let evs := events (drain ic br agent fuel m) in
  executions evs <= max_attempts * count is_step evs /\
  retries evs <= executions evs.
Proof.
  revert m. induction fuel as [|fuel IH]; intros m;
    destruct (instructions_queue ic (compiler m)) as [|i q] eqn:Hq;
    try (rewrite (drain_empty ic br agent _ m Hq); cbn; lia).
  - cbn [drain]. rewrite Hq. cbn. lia.
  - rewrite (drain_next ic br agent fuel m i q Hq), events_bind.
    destruct (loop_body_counts m) as (Hs & Hx & Hr).
    unfold executions, retries in *. rewrite !count_app.
    destruct (outcome (loop_body ic br agent m)) as [u | e |].
    + destruct (IH (final (loop_body ic br agent m))) as (Hx' & Hr').
      unfold max_attempts in *. lia.
    + cbn [count filter List.length]. unfold max_attempts in *. lia.
    + cbn [count filter List.length]. unfold max_attempts in *. lia.
Qed.

Lemma save_then_quit_reply (m : Machine C W) :
  let reply :=
    bind (match instruction_output_file agent with
          | Some file =>
              if (file =? "")%string then ret tt else compiler_save ic file
          | None => ret tt
          end) (fun _ => quit br) m in
  outcome reply = Returns tt /\
  events reply = (persisted agent ++ [EvQuit])%list.
Proof.
  unfold persisted. destruct (instruction_output_file agent) as [file|];
    [destruct (file =? "")%string|]; cbn; auto.
Qed.

Lemma step_through_events fuel (m : Machine C W) :
  let d := drain ic br agent fuel m in
  let reply := step_through_instructions ic br agent fuel m in
  match outcome d with
  | Returns _ =>
      outcome reply = Returns tt /\
      events reply = (events d ++ persisted agent ++ [EvQuit])%list
  | Raises e => outcome reply = Raises e /\ events reply = events d
  | OutOfFuel => outcome reply = OutOfFuel /\ events reply = events d
  end.
Proof.
  intros d reply. unfold reply, step_through_instructions.
  rewrite outcome_bind, events_bind. fold d.
  destruct (outcome d) as [u | e |]; try (now rewrite ?app_nil_r).
  destruct (save_then_quit_reply (final d)) as [Ho He].
  now rewrite Ho, He.
Qed.

Lemma loop_events_no_save (evs : list Event) :
  Forall (fun e => of_loop e = true) evs -> count is_save evs = 0.
Proof.
  unfold count. induction 1 as [|e evs He _ IH]; [reflexivity|].
  destruct e; cbn in *; try discriminate; exact IH.
Qed.

End LoopAccounts.

(** *** One turn of the loop at a time *)

Lemma count_firstn kind j (evs : list Event) :
  count kind (firstn j evs) <= count kind evs.
Proof.
  rewrite <- (firstn_skipn j evs) at 2. rewrite count_app. lia.
Qed.

(** A stretch without a call of [step] at the front of [mine ++ others]
    stays within [mine] when [others] is empty or begins with a call of
    [step]. *)
Lemma step_free_prefix (turn rest mine others : list Event) :
  (turn ++ rest = mine ++ others)%list ->
  count is_step turn = 0 ->
  others = [] \/ (exists r tl, others = EvStep r :: tl) ->
  exists j, turn = firstn j mine.
Proof.
  revert mine. induction turn as [|t turn IH]; intros mine Heq Hfree Hothers.
  - now exists 0.
  - assert (Ht : is_step t = false /\ count is_step turn = 0).
    { unfold count in *. cbn [filter] in Hfree.
      destruct (is_step t); [discriminate | now split]. }
    destruct Ht as [Ht Hturn]. destruct mine as [|x mine].
    + cbn [app] in Heq. destruct Hothers as [-> | (r & tl & ->)];
        [discriminate|]. inversion Heq; subst. discriminate.
    + inversion Heq; subst.
      destruct (IH mine H1 Hturn Hothers) as [j ->]. now exists (S j).
Qed.

(** A call of [step] in [mine ++ others] lies in [others] when [mine]
    has none. *)
Lemma step_located (mine others before tail : list Event) r :
  (mine ++ others = before ++ EvStep r :: tail)%list ->
  count is_step mine = 0 ->
  exists b, before = (mine ++ b)%list /\ others = (b ++ EvStep r :: tail)%list.
Proof.
  revert before. induction mine as [|x mine IH]; intros before Heq Hfree.
  - now exists before.
  - assert (Hx : is_step x = false /\ count is_step mine = 0).
    { unfold count in *. cbn [filter] in Hfree.
      destruct (is_step x); [discriminate | now split]. }
    destruct Hx as [Hx Hmine]. destruct before as [|b before].
    + inversion Heq; subst. discriminate.
    + inversion Heq; subst.
      destruct (IH before H1 Hmine) as (b' & -> & ->). now exists b'.
Qed.

(** A call of [step] in [mine ++ trailer] lies in [mine] when [trailer]
    has none. *)
Lemma step_before_trailer (mine trailer before tail : list Event) r :
  (mine ++ trailer = before ++ EvStep r :: tail)%list ->
  count is_step trailer = 0 ->
  exists d, mine = (before ++ EvStep r :: d)%list /\
            (d ++ trailer = tail)%list.
Proof.
  revert mine. induction before as [|b before IH]; intros mine Heq Hfree.
  - destruct mine as [|x mine].
    + cbn [app] in Heq. subst trailer. discriminate.
    + inversion Heq; subst. now exists mine.
  - destruct mine as [|x mine].
    + cbn [app] in Heq. subst trailer. exfalso.
      change (b :: before ++ EvStep r :: tail)%list
        with ((b :: before) ++ [EvStep r] ++ tail)%list in Hfree.
      rewrite !count_app in Hfree. cbn in Hfree. lia.
    + inversion Heq; subst.
      destruct (IH mine H1 Hfree) as (d & -> & <-). now exists d.
Qed.

Section LoopTurns.

Context {C W : Type}.
Variable ic : Compiler C.
Variable br : Browser W.
Variable agent : Agent.

(** However far one looks into the attempts for one action, there are no
    more executions than attempts allowed and no more retries than
    executions. *)
Lemma attempt_evals_paced n action (m : Machine C W) j :
  let evs := events (attempt_evals ic br agent n action m) in
  executions (firstn j evs) <= n /\
  retries (firstn j evs) <= executions (firstn j evs).
Proof.
  revert action m j. induction n as [|n IH]; intros action m j;
    cbn [attempt_evals].
  - cbn. rewrite firstn_nil. cbn. lia.
  - destruct (exec br action (world m)) as [w | tb w] eqn:He.
    + rewrite (bind_reply _ _ _ _ _ _ (try_exec_finished br _ _ _ He)).
      cbn. destruct j as [|j]; cbn; rewrite ?firstn_nil; cbn; lia.
    + rewrite (bind_reply _ _ _ _ _ _ (try_exec_raised br _ _ _ _ He)).
      cbv beta iota. cbn [after events]. rewrite events_bind.
      set (m1 := mkMachine (compiler m) w).
      destruct (recover_counts ic agent action tb m1) as (Hx & _ & Hr).
      pose proof (count_firstn is_exec (j - 1)
                    (events (recover ic agent action tb m1))) as Hx1.
      pose proof (count_firstn is_retry (j - 1)
                    (events (recover ic agent action tb m1))) as Hr1.
      destruct j as [|j]; [cbn; lia|].
      cbn [app firstn]. rewrite firstn_app.
      replace (S j - 1) with j in * by lia.
      unfold executions, retries in *.
      change (EvExec action false :: ?l) with ([EvExec action false] ++ l)%list.
      set (far := j - List.length (events (recover ic agent action tb m1))).
      assert (Hrest :
        count is_exec
          (firstn far
             match outcome (recover ic agent action tb m1) with
             | Returns a' =>
                 events (attempt_evals ic br agent n a'
                           (final (recover ic agent action tb m1)))
             | _ => []
             end) <= n /\
        count is_retry
          (firstn far
             match outcome (recover ic agent action tb m1) with
             | Returns a' =>
                 events (attempt_evals ic br agent n a'
                           (final (recover ic agent action tb m1)))
             | _ => []
             end) <=
        count is_exec
          (firstn far
             match outcome (recover ic agent action tb m1) with
             | Returns a' =>
                 events (attempt_evals ic br agent n a'
                           (final (recover ic agent action tb m1)))
             | _ => []
             end)).
      { destruct (outcome (recover ic agent action tb m1)) as [a' | e |];
          [apply IH | rewrite firstn_nil; cbn; lia
                    | rewrite firstn_nil; cbn; lia]. }
      destruct Hrest as [Hn Hle].
      change (EvExec action false ::
              firstn j (events (recover ic agent action tb m1)) ++ ?l)%list
        with ([EvExec action false] ++
              firstn j (events (recover ic agent action tb m1)) ++ l)%list.
      rewrite !count_app. cbn [count filter is_exec is_retry List.length].
      lia.
Qed.

(** One turn of the loop: a call of [step], then events among which there
    is no other call of [step]. *)
Lemma loop_body_turn (m : Machine C W) :
  exists tail,
    events (loop_body ic br agent m) =
      EvStep (fst (step ic (compiler m))) :: tail /\
    count is_step tail = 0 /\
    forall j, executions (firstn j tail) <= max_attempts /\
              retries (firstn j tail) <= executions (firstn j tail).
Proof.
  unfold loop_body.
  rewrite (bind_reply _ _ _ _ _ _ (compiler_step_reply ic m)).
  cbn [after events].
  set (a := strip_fences (action_output (fst (step ic (compiler m))))).
  set (m1 := mkMachine (snd (step ic (compiler m))) (world m)).
  destruct (is_potentially_dangerous a) eqn:Hd.
  - rewrite (bind_raises _ _ _ _ _ _ (check_danger_rejects a m1 Hd)).
    exists [EvDanger a]. split; [reflexivity|]. split; [reflexivity|].
    intros [|[|j]]; cbn; lia.
  - rewrite (bind_reply _ _ _ _ _ _ (check_danger_accepts a m1 Hd)).
    cbn [after events app].
    exists (events (attempt_evals ic br agent max_attempts a m1)).
    split; [reflexivity|]. split.
    + apply attempt_evals_counts.
    + intros j. apply attempt_evals_paced.
Qed.

(** The events of the loop over the queue, turn by turn. *)
Lemma drain_turns fuel (m : Machine C W) :
  let evs := events (drain ic br agent fuel m) in
  (evs = [] \/ exists r tl, evs = EvStep r :: tl) /\
  forall before r turn rest,
    evs = (before ++ EvStep r :: turn ++ rest)%list ->
    count is_step turn = 0 ->
    executions turn <= max_attempts /\ retries turn <= executions turn.
Proof.
  assert (Hnone : forall before r (tail : list Event),
             [] = (before ++ EvStep r :: tail)%list -> False)
    by (intros [|b before] r tail H; discriminate H).
  revert m. induction fuel as [|fuel IH]; intros m;
    destruct (instructions_queue ic (compiler m)) as [|i q] eqn:Hq;
    try (rewrite (drain_empty ic br agent _ m Hq); cbn [events];
         split; [now left | intros before r turn rest H; now elim (Hnone _ _ _ H)]).
  - cbn [drain]. rewrite Hq. cbn [events].
    split; [now left | intros before r turn rest H; now elim (Hnone _ _ _ H)].
  - rewrite (drain_next ic br agent fuel m i q Hq), events_bind.
    destruct (loop_body_turn m) as (tail & -> & Hfree & Hpaced).
    set (others := match outcome (loop_body ic br agent m) with
                   | Returns a =>
                       events (drain ic br agent fuel
                                 (final (loop_body ic br agent m)))
                   | _ => []
                   end).
    assert (Hothers :
      (others = [] \/ exists r tl, others = EvStep r :: tl) /\
      forall before r turn rest,
        others = (before ++ EvStep r :: turn ++ rest)%list ->
        count is_step turn = 0 ->
        executions turn <= max_attempts /\ retries turn <= executions turn).
    { unfold others.
      destruct (outcome (loop_body ic br agent m)) as [u | e |];
        [apply IH | |];
        (split; [now left
                | intros before r turn rest H; now elim (Hnone _ _ _ H)]). }
    destruct Hothers as [Hhead Hrest].
    split; [right; eexists; eexists; reflexivity|].
    intros before r turn rest Heq Hturn.
    destruct before as [|b before]; cbn [app] in Heq;
      inversion Heq as [[Hr Htl]]; clear Heq.
    + destruct (step_free_prefix turn rest tail others (eq_sym Htl)
                  Hturn Hhead) as [j ->].
      apply Hpaced.
    + destruct (step_located tail others before (turn ++ rest) r Htl Hfree)
        as (b' & _ & Ho).
      now apply (Hrest b' r turn rest).
Qed.

End LoopTurns.

(** The step loop is bounded in what it asks of its collaborators, call
    of [step] by call of [step]: in the events of a run, whatever
    follows a call of [step] up to some point before the next call of
    [step] holds at most three executions, and no more retries than
    executions.  Over the whole run there are then at most three times as
    many executions as calls of [step], and no more retries than
    executions. *)
Theorem step_loop_work_bound {C W : Type} (ic : Compiler C) (br : Browser W)
  (agent : Agent) (fuel : nat) (m : Machine C W) :
  let evs := events (step_through_instructions ic br agent fuel m) in
  (forall before r turn rest,
     evs = (before ++ EvStep r :: turn ++ rest)%list ->
     count is_step turn = 0 ->
     executions turn <= max_attempts /\ retries turn <= executions turn) /\
  executions evs <= max_attempts * count is_step evs /\
  retries evs <= executions evs.
Proof.
  intros evs. unfold evs. split.
  - pose proof (step_through_events ic br agent fuel m) as H. cbv zeta in H.
    destruct (drain_turns ic br agent fuel m) as [_ Hturns].
    intros before r turn rest Heq Hturn.
    destruct (outcome (drain ic br agent fuel m)) as [u | e |];
      destruct H as [_ H]; rewrite H in Heq;
      try (now apply (Hturns before r turn rest)).
    assert (Htrailer : count is_step (persisted agent ++ [EvQuit]) = 0 /\
                       executions (persisted agent ++ [EvQuit]) = 0 /\
                       retries (persisted agent ++ [EvQuit]) = 0).
    { unfold persisted. destruct (instruction_output_file agent) as [file|];
        [destruct (file =? "")%string|]; repeat split. }
    destruct Htrailer as (Hs & Hx & Hr).
    destruct (step_before_trailer _ _ _ _ _ Heq Hs) as (d & Hd & Htail).
    apply app_eq_app in Htail. destruct Htail as (l & [[-> ->] | [-> Hl]]).
    + apply (Hturns before r turn l); [exact Hd | exact Hturn].
    + unfold executions, retries in *.
      rewrite Hl in Hx, Hr. rewrite !count_app in Hx, Hr, Hturn.
      destruct (Hturns before r d []) as [H1 H2];
        [now rewrite app_nil_r | lia |].
      rewrite !count_app. lia.
  - pose proof (step_through_events ic br agent fuel m) as H. cbv zeta in H.
    destruct (drain_counts ic br agent fuel m) as (Hx & Hr).
    destruct (outcome (drain ic br agent fuel m)) as [u | e |];
      destruct H as [_ ->]; try (split; assumption).
    unfold executions, retries, persisted in *. rewrite !count_app.
    destruct (instruction_output_file agent) as [file|];
      [destruct (file =? "")%string|]; cbn [count filter is_exec is_retry
                                             is_step List.length app]; lia.
Qed.

Lemma step_loop_work_bound_witness :
  let evs := events (step_through_instructions Bench.desk Bench.tab
                       Bench.plain 2
                       (Bench.start ["env.missing()"; "env.get('b')"])) in
  let turn := firstn 6 (tl evs) in
  executions turn = 3 /\ retries turn = 3 /\
  executions turn <= max_attempts /\ retries turn <= executions turn.
Proof.
  intros evs turn. split; [reflexivity|]. split; [reflexivity|].
  apply (proj1 (step_loop_work_bound Bench.desk Bench.tab Bench.plain 2
                  (Bench.start ["env.missing()"; "env.get('b')"]))
           [] (mkStep "env.missing()" "env.missing()") turn
           (skipn 6 (tl evs))).
  - reflexivity.
  - reflexivity.
Defined.

(** Persisting the compiled instructions is the last thing the step loop
    does before teardown and happens at no other time: a replay persists
    nothing, a run that is left by an exception persists nothing, and a
    step loop that returns ends with the save to the configured
    destination, if there is one, followed by the teardown. *)
Theorem persistence_discipline {C W : Type} (ic : Compiler C)
  (br : Browser W) (agent : Agent) (fuel : nat) (m : Machine C W) :
  let reply := run ic br agent fuel m in
  (replays ic m = true -> count is_save (events reply) = 0) /\
  (forall e, outcome reply = Raises e -> count is_save (events reply) = 0) /\
  (replays ic m = false -> outcome reply = Returns tt ->
   exists before,
     events reply = (before ++ persisted agent ++ [EvQuit])%list /\
     count is_save before = 0).
Proof.
  intros reply.
  assert (Hreplay : replays ic m = true ->
                    count is_save (events reply) = 0).
  { intros Hrep. unfold reply, run. unfold replays in Hrep. rewrite Hrep.
    set (code := strip_fences _).
    destruct (is_potentially_dangerous code) eqn:Hd.
    - now rewrite (replay_rejected br _ _ Hd).
    - destruct (exec br code (world m)) as [w | tb w] eqn:He.
      + now rewrite (replay_finished br _ _ _ Hd He).
      + now rewrite (replay_raised br _ _ _ _ Hd He). }
  assert (Hloop : replays ic m = false ->
                  reply = step_through_instructions ic br agent fuel m).
  { intros Hrep. unfold reply, run. unfold replays in Hrep.
    now rewrite Hrep. }
  pose proof (step_through_events ic br agent fuel m) as H. cbv zeta in H.
  pose proof (loop_events_no_save _ (loop_events_drain ic br agent fuel m))
    as Hns.
  split; [exact Hreplay|]. split.
  - intros e He. destruct (replays ic m) eqn:Hrep; [now apply Hreplay|].
    rewrite (Hloop eq_refl) in *.
    destruct (outcome (drain ic br agent fuel m)) as [u | e' |];
      destruct H as [Ho Hev]; rewrite Hev; try exact Hns.
    rewrite Ho in He. discriminate.
  - intros Hrep Ho. rewrite (Hloop Hrep) in *.
    destruct (outcome (drain ic br agent fuel m)) as [u | e' |];
      destruct H as [Ho' Hev]; try congruence.
    exists (events (drain ic br agent fuel m)). now split.
Qed.

Lemma persistence_discipline_witness :
  let reply := run Bench.desk Bench.tab (mkAgent (Some "plan.yaml") false) 2
                 (Bench.start ["env.get('a')"; "env.click('b')"]) in
  exists before,
    events reply = (before ++ [EvSave "plan.yaml"; EvQuit])%list /\
    count is_save before = 0.
Proof.
  intros reply.
  destruct (persistence_discipline Bench.desk Bench.tab
              (mkAgent (Some "plan.yaml") false) 2
              (Bench.start ["env.get('a')"; "env.click('b')"]))
    as (_ & _ & H).
  destruct H as (before & Hev & Hc); [reflexivity | reflexivity|].
  exists before. split; [exact Hev | exact Hc].
Defined.

(** ** The replay path: one flagged action is enough *)

Lemma occurs_join (sub sep a : string) (plan : list string) :
  In a plan -> occurs sub a -> occurs sub (Py.join sep plan).
Proof.
  unfold Py.join. induction plan as [|x plan IH]; intros Hin Ha; [easy|].
  destruct Hin as [-> | Hin].
  - destruct plan as [|y plan]; [exact Ha|]. cbn [concat].
    now apply occurs_append_l.
  - destruct plan as [|y plan]; [easy|]. cbn [concat].
    apply occurs_append_r, occurs_append_r. now apply IH.
Qed.

(** A cached plan is rejected as a whole as soon as one of its actions is
    flagged: with caching enabled, [run] then exits at the gate and
    executes none of the cached actions, the harmless ones included. *)
Theorem cached_danger_stops_replay {C W : Type} (ic : Compiler C)
  (br : Browser W) (agent : Agent) (fuel : nat) (m : Machine C W)
  (a : string) :
  use_compiled ic (compiler m) = true ->
  In a (compiled_instructions ic (compiler m)) ->
  flagged a ->
  let reply := run ic br agent fuel m in
  outcome reply = Raises (SystemExit 1) /\
  final reply = m /\
  executions (events reply) = 0.
Proof.
  intros Hu Hin Hf reply.
  set (code := strip_fences
                 (Py.join Py.nl (compiled_instructions ic (compiler m)))).
  assert (Hr : reply = mkReply (Raises (SystemExit 1)) m [EvDanger code]).
  { unfold reply, run. rewrite Hu.
    destruct (compiled_instructions ic (compiler m)) as [|x l] eqn:Hp;
      [easy|]. cbn [andb].
    apply replay_rejected. fold code.
    apply dangerous_iff, flagged_strip_fences.
    destruct Hf as [H | [name [Hn H]]].
    - left. now apply occurs_join with a.
    - right. exists name. split; [exact Hn|]. now apply occurs_join with a. }
  rewrite Hr. repeat split.
Qed.

Lemma cached_danger_stops_replay_witness :
  let reply := run Bench.desk Bench.tab Bench.plain 0
                 (Bench.cached ["env.get('a')"; "x = requests.get(u)";
                                "env.click('b')"]) in
  outcome reply = Raises (SystemExit 1) /\
  Bench.ran (world (final reply)) = [].
Proof.
  intros reply.
  destruct (cached_danger_stops_replay Bench.desk Bench.tab Bench.plain 0
              (Bench.cached ["env.get('a')"; "x = requests.get(u)";
                             "env.click('b')"]) "x = requests.get(u)")
    as (Ho & Hf & _).
  - reflexivity.
  - right. now left.
  - right. exists "requests". split; [right; now left|].
    now exists "x = ", ".get(u)".
  - fold reply in Ho, Hf. split; [exact Ho|]. now rewrite Hf.
Defined.

(** ** The failure context extractor: when it fails, what it reports *)

Lemma cut_contains (sep s a b : string) :
  Py.cut sep s = Some (a, b) -> Py.contains sep s = true.
Proof.
  intros H. destruct (cut_some _ _ _ _ H) as [Hs _].
  apply contains_iff. now exists a, b.
Qed.

Lemma split_second_none (sep s : string) :
  sep <> "" ->
  (nth_error (Py.split sep s) 1 = None <-> Py.contains sep s = false).
Proof.
  intros Hsep. unfold Py.split. rewrite split_from_eq.
  destruct (Py.cut sep s) as [[a b]|] eqn:Hcut.
  - rewrite (cut_contains _ _ _ _ Hcut).
    destruct (cut_some _ _ _ _ Hcut) as [Hs _].
    destruct (String.length s) as [|n] eqn:Hlen.
    + exfalso. rewrite Hs, !length_append in Hlen.
      destruct sep; [now apply Hsep | cbn in Hlen; lia].
    + cbn [nth_error].
      destruct (split_from_head n sep b) as (h & tl & tail & -> & _).
      cbn. split; discriminate.
  - rewrite (cut_none _ _ Hcut). cbn. tauto.
Qed.

(** The extractor raises IndexError exactly when the delimiter does not
    occur in the two lines of the trace it keeps; in particular a trace
    of fewer than four lines always makes it raise. *)
Theorem extractor_index_error_iff (format_exc : string) :
  (get_relevant_part_of_stack_trace format_exc = inl IndexError <->
   Py.contains "line " (trimmed_trace format_exc) = false) /\
  (List.length (Py.split Py.nl format_exc) <= 3 ->
   get_relevant_part_of_stack_trace format_exc = inl IndexError).
Proof.
  assert (Hiff : get_relevant_part_of_stack_trace format_exc = inl IndexError
                 <-> Py.contains "line " (trimmed_trace format_exc) = false).
  { unfold get_relevant_part_of_stack_trace.
    rewrite <- (split_second_none "line " (trimmed_trace format_exc))
      by discriminate.
    destruct (nth_error (Py.split "line " (trimmed_trace format_exc)) 1)
      as [y|].
    - destruct (Py.int (hd "" (Py.split "," y))); split; discriminate.
    - tauto. }
  split; [exact Hiff|].
  intros Hlen. apply Hiff. unfold trimmed_trace, Py.slice.
  now rewrite (skipn_all2 (Py.split Py.nl format_exc) Hlen).
Qed.

Lemma extractor_index_error_iff_witness :
  get_relevant_part_of_stack_trace
    ("Traceback (most recent call last):" ++ Py.nl ++
     "SystemExit: 1" ++ Py.nl) = inl IndexError.
Proof.
  apply (proj2 (extractor_index_error_iff _)). cbn. lia.
Defined.

(** The line the handler reports, by its number [n]: from 1 to the number
    of lines of the action (double newlines collapsed) it is line [n];
    past the last line it is an IndexError; and from 0 downwards the
    number wraps around, 0 giving the last line.  When the action has no
    blank line, the lines are those of the action as it was executed. *)
Theorem reported_line_bounds (action : string) (n : Z) :
  let lines := action_lines action in
  let len := Z.of_nat (List.length lines) in
  let report := fun line => Py.nl ++ "Failed on line: " ++ line ++ Py.nl in
  ((1 <= n <= len)%Z ->
   problem_instruction action n =
     inr (report (nth (Z.to_nat (n - 1)) lines ""))) /\
  ((len < n)%Z -> problem_instruction action n = inl IndexError) /\
  ((1 - len <= n <= 0)%Z ->
   problem_instruction action n =
     inr (report (nth (Z.to_nat (len + n - 1)) lines ""))) /\
  ((n < 1 - len)%Z -> problem_instruction action n = inl IndexError) /\
  (Py.contains (Py.nl ++ Py.nl) action = false ->
   lines = Py.split Py.nl action).
Proof.
  intros lines len report. unfold problem_instruction, Py.index.
  fold lines. fold len.
  assert (Hget : forall k, k < List.length lines ->
                 nth_error lines k = Some (nth k lines "")).
  { intros k Hk. now apply nth_error_nth'. }
  assert (Hnone : forall k, List.length lines <= k ->
                  nth_error lines k = None).
  { intros k Hk. now apply nth_error_None. }
  repeat split.
  - intros Hn. destruct (Z.leb_spec 0 (n - 1)); [|lia].
    rewrite Hget by lia. reflexivity.
  - intros Hn. destruct (Z.leb_spec 0 (n - 1)); [|lia].
    rewrite Hnone by lia. reflexivity.
  - intros Hn. destruct (Z.leb_spec 0 (n - 1)); [lia|].
    destruct (Z.leb_spec 0 (len + (n - 1))); [|lia].
    replace (len + (n - 1))%Z with (len + n - 1)%Z by lia.
    rewrite Hget by lia. reflexivity.
  - intros Hn. destruct (Z.leb_spec 0 (n - 1)); [lia|].
    destruct (Z.leb_spec 0 (len + (n - 1))); [lia|]. reflexivity.
  - intros Hc. unfold lines, action_lines. f_equal.
    unfold Py.replace.
    destruct (String.length action) as [|k]; cbn [Py.replace_from];
      destruct (Py.cut (Py.nl ++ Py.nl) action) as [[a b]|] eqn:Hcut;
      try reflexivity;
      rewrite (cut_contains _ _ _ _ Hcut) in Hc; discriminate.
Qed.

Lemma reported_line_bounds_witness :
  let action := "env.get('a')" ++ Py.nl ++ "env.click('b')" in
  problem_instruction action 2 =
    inr (Py.nl ++ "Failed on line: env.click('b')" ++ Py.nl) /\
  problem_instruction action 3 = inl IndexError /\
  problem_instruction action 0 =
    inr (Py.nl ++ "Failed on line: env.click('b')" ++ Py.nl).
Proof.
  intros action.
  destruct (reported_line_bounds action 2) as (H2 & _).
  destruct (reported_line_bounds action 3) as (_ & H3 & _).
  destruct (reported_line_bounds action 0) as (_ & _ & H0 & _).
  split; [|split].
  - rewrite H2; [reflexivity | cbn; lia].
  - rewrite H3; [reflexivity | cbn; lia].
  - rewrite H0; [reflexivity | cbn; lia].
Defined.

(** ** [retrieve_information]: the documents cover the sentences *)

Lemma range_from_nonempty rounds start stop step i rest :
  range_from rounds start stop step = i :: rest -> (start < stop)%nat.
Proof.
  destruct rounds as [|k]; cbn [range_from]; [intros H; inversion H|].
  destruct (start <? stop)%nat eqn:E; [|intros H; inversion H].
  intros _. now apply Nat.ltb_lt.
Qed.

Lemma range_from_length rounds start stop :
  (stop - start <= rounds)%nat ->
  List.length (range_from rounds start stop 5) = ((stop - start + 4) / 5)%nat.
Proof.
  revert start. induction rounds as [|k IH]; intros start Hr;
    cbn [range_from].
  - replace (stop - start) with 0 by lia. reflexivity.
  - destruct (start <? stop)%nat eqn:E.
    + apply Nat.ltb_lt in E. cbn [List.length]. rewrite IH by lia.
      destruct (Nat.le_gt_cases 5 (stop - start)) as [Hbig | Hsmall].
      * replace (stop - start + 4) with (stop - (start + 5) + 4 + 1 * 5)
          by lia.
        rewrite Nat.div_add by discriminate. lia.
      * replace (stop - (start + 5)) with 0 by lia.
        replace (stop - start + 4) with (stop - start - 1 + 1 * 5) by lia.
        rewrite Nat.div_add by discriminate.
        rewrite (Nat.div_small (stop - start - 1)) by lia. reflexivity.
    + apply Nat.ltb_ge in E. replace (stop - start) with 0 by lia.
      reflexivity.
Qed.

Section Chunks.

Local Open Scope nat_scope.

Variable sentences : list string.

Let len := List.length sentences.
Let group := fun i => Py.slice i (i + 5) sentences.

Lemma group_slice (i : nat) : group i = firstn 5 (skipn i sentences).
Proof. unfold group, Py.slice. now replace (i + 5 - i) with 5 by lia. Qed.

Lemma groups_from rounds start :
  len - start <= rounds ->
  concat (map group (range_from rounds start len 5)) = skipn start sentences.
Proof.
  revert start. induction rounds as [|k IH]; intros start Hr;
    cbn [range_from].
  - symmetry. apply skipn_all2. fold len. lia.
  - destruct (start <? len) eqn:E.
    + apply Nat.ltb_lt in E. cbn [map concat]. rewrite IH by lia.
      rewrite group_slice. replace (start + 5) with (5 + start) by lia.
      rewrite <- (skipn_skipn 5 start sentences). apply firstn_skipn.
    + apply Nat.ltb_ge in E. symmetry. now apply skipn_all2.
Qed.

Lemma groups_full rounds start :
  len - start <= rounds ->
  full_but_last 5 (map group (range_from rounds start len 5)).
Proof.
  revert start. induction rounds as [|k IH]; intros start Hr;
    cbn [range_from map]; [exact I|].
  destruct (start <? len) eqn:E; [|exact I].
  apply Nat.ltb_lt in E.
  assert (Hg : forall i, List.length (group i) = Nat.min 5 (len - i)).
  { intros i. rewrite group_slice, length_firstn, length_skipn.
    reflexivity. }
  specialize (IH (start + 5)).
  destruct (range_from k (start + 5) len 5) as [|j rest] eqn:Er.
  - cbn. rewrite Hg. lia.
  - apply range_from_nonempty in Er as Hlt.
    cbn [map full_but_last] in *. split; [rewrite Hg; lia|].
    apply IH. lia.
Qed.

End Chunks.

(** The documents indexed by [retrieve_information] are the sentences cut
    into consecutive groups: put back together, the groups are the list
    of sentences, none lost, none repeated, in their order; and each
    document is the sentences of its group joined by a space. *)
Theorem sentence_groups_partition (sentences : list string) :
  concat (sentence_groups sentences) = sentences /\
  sentence_docs sentences = map (Py.join " ") (sentence_groups sentences).
Proof.
  split.
  - unfold sentence_groups, range0.
    pose proof (groups_from sentences (List.length sentences) 0) as H.
    cbv zeta in H. apply H. clear H. lia.
  - unfold sentence_docs, sentence_groups. now rewrite map_map.
Qed.

(** Every document but the last holds exactly five sentences, the last
    between one and five, and there are as many documents as the number
    of sentences divided by five, rounded up; no sentence, no document. *)
Theorem sentence_groups_sizes (sentences : list string) :
  full_but_last 5 (sentence_groups sentences) /\
  List.length (sentence_docs sentences) = (List.length sentences + 4) / 5 /\
  (sentences = [] -> sentence_docs sentences = []).
Proof.
  split; [|split].
  - unfold sentence_groups, range0.
    pose proof (groups_full sentences (List.length sentences) 0) as H.
    cbv zeta in H. apply H. clear H. lia.
  - unfold sentence_docs, range0.
    rewrite length_map, range_from_length by lia.
    now rewrite Nat.sub_0_r.
  - now intros ->.
Qed.

Lemma sentence_groups_sizes_witness :
  List.length (sentence_docs ["A."; "B."; "C."; "D."; "E."; "F."; "G."]) = 2 /\
  sentence_docs [] = [].
Proof.
  split.
  - now rewrite (proj1 (proj2 (sentence_groups_sizes
                                 ["A."; "B."; "C."; "D."; "E."; "F."; "G."]))).
  - now apply (proj2 (proj2 (sentence_groups_sizes []))).
Defined.

(** ** [get_llm_response]: what a retry after a rate limit asks for *)

Lemma get_llm_response_limited {X : Type} (sv : Service X) (prompt : string)
  (k : nat) (t m : PyValue) (s : X) (t' m' : PyValue) (s' : X) :
  rate_limited sv prompt k t m s t' m' s' ->
  forall depth text more s'',
    completion_create sv (mkRequest m' prompt t') s' =
      (ApiResponse (text :: more), s'') ->
    k < depth ->
    exists evs,
      get_llm_response sv depth prompt t m s = (LlmText text, s'', evs) /\
      llm_requests evs =
        firstn (S k)
          (mkRequest m prompt t :: mkRequest default_model prompt m ::
           repeat (mkRequest default_model prompt default_model) k) /\
      llm_sleeps evs = repeat 5%Z k.
Proof.
  induction 1 as [t m s | k t m s message s1 t' m' s' Hcall _ IH];
    intros depth text more s'' Hlast Hdepth.
  - destruct depth as [|d]; [lia|]. cbn [get_llm_response].
    rewrite Hlast. eexists. repeat split.
  - destruct depth as [|d]; [lia|]. cbn [get_llm_response].
    rewrite Hcall.
    destruct (IH d text more s'' Hlast) as (evs & -> & Hreq & Hsleep);
      [lia|].
    eexists. split; [reflexivity|].
    unfold llm_requests, llm_sleeps in *. cbn [flat_map app].
    rewrite Hreq, Hsleep. split; [|reflexivity].
    cbn [firstn repeat]. reflexivity.
Qed.

(** When the completion service answers the first [k] calls with a rate
    limit error and the next with a response, [get_llm_response] returns
    the text of the first choice of that response after [k + 1] requests
    and [k] sleeps of five seconds.  Only the first request carries the
    caller's temperature and model: the second is made with the default
    model and with the caller's model in the place of the temperature,
    and every later one with the default model in both places. *)
Theorem rate_limit_retries_drop_temperature {X : Type} (sv : Service X)
  (prompt : string) (k depth : nat) (temperature model : PyValue) (s : X)
  (t' m' : PyValue) (s' s'' : X) (text : string) (more : list string) :
  rate_limited sv prompt k temperature model s t' m' s' ->
  completion_create sv (mkRequest m' prompt t') s' =
    (ApiResponse (text :: more), s'') ->
  k < depth ->
  exists evs,
    get_llm_response sv depth prompt temperature model s =
      (LlmText text, s'', evs) /\
    llm_requests evs =
      firstn (S k)
        (mkRequest model prompt temperature ::
         mkRequest default_model prompt model ::
         repeat (mkRequest default_model prompt default_model) k) /\
    llm_sleeps evs = repeat 5%Z k.
Proof.
  intros Hlimited Hlast Hdepth.
  now apply (get_llm_response_limited sv prompt k temperature model s
               t' m' s' Hlimited depth text more s'').
Qed.

Lemma rate_limit_retries_drop_temperature_witness :
  let script := [ApiRateLimit "slow down"; ApiRateLimit "slow down";
                 ApiResponse ["//button[1]"; "//a"]] in
  exists evs,
    get_llm_response scripted 3 "find the button" (PyInt 0) (PyStr "gpt-x")
      script = (LlmText "//button[1]", [], evs) /\
    llm_requests evs =
      [mkRequest (PyStr "gpt-x") "find the button" (PyInt 0);
       mkRequest default_model "find the button" (PyStr "gpt-x");
       mkRequest default_model "find the button" default_model].
Proof.
  intros script.
  edestruct (rate_limit_retries_drop_temperature scripted "find the button"
               2 3 (PyInt 0) (PyStr "gpt-x") script)
    as (evs & Hrun & Hreq & _).
  - eapply limited_more; [reflexivity|].
    eapply limited_more; [reflexivity|].
    apply limited_none.
  - reflexivity.
  - lia.
  - exists evs. split; [exact Hrun | exact Hreq].
Defined.

(** ** [_clean_html]: which attributes go, and that removing them is safe *)

Lemma match_here_literals (stem : string) (tail : list Re.Atom) :
  (forall t, Re.match_here tail t = true) ->
  forall s, Re.match_here (literal_atoms stem ++ tail) s = prefix stem s.
Proof.
  intros Htail. unfold literal_atoms.
  induction stem as [|c stem IH]; intros s; cbn [list_ascii_of_string map app].
  - rewrite Htail. symmetry. apply prefix_nil.
  - cbn [Re.match_here]. destruct s as [|d s]; [reflexivity|].
    cbn [prefix]. rewrite IH.
    destruct (Ascii.eqb_spec c d) as [-> | Hne];
      destruct (ascii_dec _ d); try reflexivity; congruence.
Qed.

Lemma match_here_nil (t : string) : Re.match_here [] t = true.
Proof. reflexivity. Qed.

Lemma match_here_star (c : ascii) (t : string) :
  Re.match_here [Re.Star c] t = true.
Proof. destruct t; reflexivity. Qed.

(** What each of the seven patterns matches. *)
Lemma blacklisted_patterns_match (attr : string) :
  map (fun pattern => Re.matches pattern attr) blacklisted_attributes =
  map (fun stem => prefix stem attr) blacklisted_stems.
Proof.
  unfold blacklisted_attributes, blacklisted_stems, Re.matches.
  cbn [map]. repeat f_equal.
  - apply (match_here_literals "style" [] match_here_nil).
  - apply (match_here_literals "ping" [] match_here_nil).
  - apply (match_here_literals "src" [] match_here_nil).
  - apply (match_here_literals "ite" [Re.Star "m"] (match_here_star "m")).
  - apply (match_here_literals "ari" [Re.Star "a"] (match_here_star "a")).
  - apply (match_here_literals "j" [Re.Star "s"] (match_here_star "s")).
  - apply (match_here_literals "data" [Re.Star "-"] (match_here_star "-")).
Qed.

Lemma existsb_map {A : Type} (f : A -> bool) (l : list A) :
  existsb f l = existsb (fun b => b) (map f l).
Proof. induction l as [|x l IH]; cbn; [reflexivity | now rewrite IH]. Qed.

Lemma blacklisted_by_stem (attr : string) :
  existsb (fun pattern => Re.matches pattern attr) blacklisted_attributes =
  has_blacklisted_stem attr.
Proof.
  unfold has_blacklisted_stem.
  rewrite (existsb_map (fun pattern => Re.matches pattern attr)),
          (existsb_map (fun stem => prefix stem attr)).
  now rewrite blacklisted_patterns_match.
Qed.

(** An attribute is removed exactly when its name begins with one of
    [style], [ping], [src], [ite], [ari], [j] or [data]: a pattern is
    matched at the start of the name only, and a star makes the
    character before it optional, so that [js*] takes every name that
    begins with [j], and [data-*] every name that begins with [data]. *)
Theorem blacklisted_attribute_iff (attr : string) :
  existsb (fun pattern => Re.matches pattern attr) blacklisted_attributes
    = true <->
  exists stem rest,
    In stem ["style"; "ping"; "src"; "ite"; "ari"; "j"; "data"] /\
    attr = stem ++ rest.
Proof.
  rewrite blacklisted_by_stem. unfold has_blacklisted_stem.
  rewrite existsb_exists. unfold blacklisted_stems. split.
  - intros [stem [Hin Hp]]. apply prefix_iff in Hp. destruct Hp as [rest ->].
    now exists stem, rest.
  - intros [stem [rest [Hin ->]]]. exists stem. split; [exact Hin|].
    apply prefix_iff. now exists rest.
Qed.

Lemma blacklisted_attribute_iff_witness :
  existsb (fun pattern => Re.matches pattern "jsaction")
          blacklisted_attributes = true.
Proof.
  apply (proj2 (blacklisted_attribute_iff "jsaction")).
  exists "j", "saction". split; [|reflexivity].
  do 5 right. now left.
Defined.

Lemma filter_length_map {A : Type} (f : A -> bool) (l : list A) :
  List.length (filter f l) = List.length (filter (fun b => b) (map f l)).
Proof.
  induction l as [|x l IH]; cbn; [reflexivity|].
  destruct (f x); cbn; now rewrite IH.
Qed.

(** No name is matched by two of the patterns. *)
Lemma match_count_blacklisted (attr : string) :
  match_count blacklisted_attributes attr <= 1.
Proof.
  unfold match_count.
  rewrite filter_length_map, blacklisted_patterns_match.
  unfold blacklisted_stems. cbn [map].
  destruct (prefix "style" attr) eqn:H1, (prefix "ping" attr) eqn:H2,
           (prefix "src" attr) eqn:H3, (prefix "ite" attr) eqn:H4,
           (prefix "ari" attr) eqn:H5, (prefix "j" attr) eqn:H6,
           (prefix "data" attr) eqn:H7;
    cbn; try lia; exfalso;
    repeat match goal with
           | H : prefix _ attr = false |- _ => clear H
           | H : prefix _ attr = true |- _ =>
               apply prefix_iff in H; destruct H as [? H]; cbn in H
           end;
    congruence.
Qed.

Lemma match_count_permutation (l l' : list string) (attr : string) :
  Permutation l l' -> match_count l attr = match_count l' attr.
Proof.
  unfold match_count.
  induction 1 as [| x l l' _ IH | x y l | l l' l'' _ IH1 _ IH2]; cbn.
  - reflexivity.
  - destruct (Re.matches x attr); cbn; now rewrite IH.
  - destruct (Re.matches x attr), (Re.matches y attr); reflexivity.
  - now rewrite IH1.
Qed.

Lemma existsb_permutation (l l' : list string) (f : string -> bool) :
  Permutation l l' -> existsb f l = existsb f l'.
Proof.
  intros HP. destruct (existsb f l') eqn:E.
  - apply existsb_exists in E. destruct E as [x [Hin Hx]].
    apply existsb_exists. exists x. split; [|exact Hx].
    apply Permutation_in with l'; [now apply Permutation_sym | exact Hin].
  - destruct (existsb f l) eqn:E'; [|reflexivity].
    apply existsb_exists in E'. destruct E' as [x [Hin Hx]].
    assert (existsb f l' = true) as Habs.
    { apply existsb_exists. exists x. split; [|exact Hx].
      now apply Permutation_in with l. }
    congruence.
Qed.

Section Attributes.

Context {V : Type}.
Variable patterns : list string.
Hypothesis one_match : forall attr, match_count patterns attr <= 1.

Let blacklisted := fun attr =>
  existsb (fun pattern => Re.matches pattern attr) patterns.

Lemma delete_matching_none (rest : list string) (attr : string)
  (attrs : list (string * V)) :
  match_count rest attr = 0 -> delete_matching rest attr attrs = inr attrs.
Proof.
  unfold match_count. induction rest as [|p rest IH]; cbn; [reflexivity|].
  destruct (Re.matches p attr); cbn; [discriminate | exact IH].
Qed.

Lemma delete_matching_once (rest : list string) (attr : string)
  (attrs attrs' : list (string * V)) :
  match_count rest attr <= 1 ->
  del_key attr attrs = Some attrs' ->
  delete_matching rest attr attrs =
  inr (if existsb (fun pattern => Re.matches pattern attr) rest
       then attrs' else attrs).
Proof.
  unfold match_count. intros Hc Hdel.
  induction rest as [|p rest IH]; cbn in *; [reflexivity|].
  destruct (Re.matches p attr); cbn in *.
  - rewrite Hdel. apply delete_matching_none. unfold match_count. lia.
  - now apply IH.
Qed.

Lemma del_key_some (attr : string) (attrs : list (string * V)) :
  In attr (map fst attrs) -> NoDup (map fst attrs) ->
  del_key attr attrs =
  Some (filter (fun kv => negb (attr =? fst kv)%string) attrs).
Proof.
  induction attrs as [|[k v] attrs IH]; cbn; [easy|].
  intros Hin Hnd. inversion Hnd as [|? ? Hk Hnd']; subst.
  destruct (String.eqb_spec attr k) as [-> | Hne]; cbn.
  - f_equal. symmetry. apply forallb_filter_id. apply forallb_forall.
    intros [k' v'] Hin'. cbn. destruct (String.eqb_spec k k'); [|reflexivity].
    subst. elim Hk. apply in_map_iff. now exists (k', v').
  - destruct Hin as [Heq | Hin]; [congruence|].
    now rewrite (IH Hin Hnd').
Qed.

Lemma nodup_keys_filter (f : string * V -> bool) (attrs : list (string * V)) :
  NoDup (map fst attrs) -> NoDup (map fst (filter f attrs)).
Proof.
  induction attrs as [|kv attrs IH]; cbn; [easy|].
  intros Hnd. inversion Hnd as [|? ? Hk Hnd']; subst.
  destruct (f kv); cbn; [|now apply IH].
  constructor; [|now apply IH].
  intros Hin. apply Hk. apply in_map_iff in Hin.
  destruct Hin as [x [Hx Hin]]. apply filter_In in Hin.
  apply in_map_iff. exists x. tauto.
Qed.

Lemma filter_twice {A : Type} (f g : A -> bool) (l : list A) :
  filter f (filter g l) = filter (fun x => g x && f x) l.
Proof.
  induction l as [|x l IH]; cbn; [reflexivity|].
  destruct (g x); cbn; [destruct (f x)|]; now rewrite IH.
Qed.

Lemma delete_all_filter (names : list string) :
  forall attrs : list (string * V),
    NoDup names -> NoDup (map fst attrs) -> incl names (map fst attrs) ->
    delete_all patterns names attrs =
    inr (filter (fun kv =>
                   negb (existsb (String.eqb (fst kv)) names &&
                         blacklisted (fst kv))) attrs).
Proof.
  induction names as [|name names IH]; intros attrs Hn Hk Hincl;
    cbn [delete_all].
  - f_equal. symmetry. apply forallb_filter_id. apply forallb_forall.
    now intros kv _.
  - inversion Hn as [|? ? Hname Hn']; subst.
    assert (Hin : In name (map fst attrs)) by (apply Hincl; now left).
    rewrite (delete_matching_once patterns name attrs _ (one_match name)
               (del_key_some name attrs Hin Hk)).
    fold (blacklisted name).
    destruct (blacklisted name) eqn:Hb.
    + rewrite IH.
      * f_equal. rewrite filter_twice. apply filter_ext_in.
        intros [k v] _. cbn.
        destruct (String.eqb_spec name k) as [<- | Hne].
        -- rewrite String.eqb_refl, Hb. reflexivity.
        -- rewrite (proj2 (String.eqb_neq k name)) by congruence.
           reflexivity.
      * exact Hn'.
      * now apply nodup_keys_filter.
      * intros x Hx. assert (Hx' : In x (map fst attrs))
          by (apply Hincl; now right).
        apply in_map_iff in Hx'. destruct Hx' as [[k v] [Hkx Hkv]].
        cbn in Hkx. subst k. apply in_map_iff. exists (x, v).
        split; [reflexivity|]. apply filter_In. split; [exact Hkv|].
        cbn. destruct (String.eqb_spec name x); [|reflexivity].
        subst. contradiction.
    + rewrite IH.
      * f_equal. apply filter_ext_in. intros [k v] _. cbn.
        destruct (String.eqb_spec k name) as [-> | Hne]; [|reflexivity].
        now rewrite Hb, !andb_false_r.
      * exact Hn'.
      * exact Hk.
      * intros x Hx. apply Hincl. now right.
Qed.

End Attributes.

Lemma attributes_removed_total {V : Type} (patterns : list string)
  (attrs : list (string * V)) :
  Permutation patterns blacklisted_attributes ->
  NoDup (map fst attrs) ->
  remove_blacklisted_attributes patterns attrs =
  inr (filter (fun kv => negb (has_blacklisted_stem (fst kv))) attrs).
Proof.
  intros HP Hk. unfold remove_blacklisted_attributes.
  rewrite (delete_all_filter patterns).
  - f_equal. apply filter_ext_in. intros [k v] Hin. cbn.
    rewrite (existsb_permutation _ _ _ HP), blacklisted_by_stem.
    replace (existsb (String.eqb k) (map fst attrs)) with true;
      [reflexivity|].
    symmetry. apply existsb_exists. exists k. split.
    + apply in_map_iff. now exists (k, v).
    + apply String.eqb_refl.
  - intros attr. rewrite (match_count_permutation _ _ attr HP).
    apply match_count_blacklisted.
  - exact Hk.
  - exact Hk.
  - apply incl_refl.
Qed.

(** Whatever the order in which the set of patterns is gone through, and
    whatever the attributes of the tag, [remove_blacklisted_attributes]
    never deletes an attribute that is already gone, and it leaves
    exactly the attributes whose names begin with none of the seven
    stems, in their order and with their values. *)
Theorem attributes_removed_safely {V : Type} (patterns : list string)
  (attrs : list (string * V)) :
  Permutation patterns blacklisted_attributes ->
  NoDup (map fst attrs) ->
  remove_blacklisted_attributes patterns attrs =
  inr (filter (fun kv => negb (has_blacklisted_stem (fst kv))) attrs).
Proof. exact (attributes_removed_total patterns attrs). Qed.

Lemma attributes_removed_safely_witness :
  remove_blacklisted_attributes
    ["data-*"; "js*"; "aria*"; "item*"; "src"; "ping"; "style"]
    [("id", "q"); ("jsaction", "x"); ("class", "box"); ("style", "top:0");
     ("aria-label", "Search"); ("href", "/a"); ("data-ved", "0")] =
  inr [("id", "q"); ("class", "box"); ("href", "/a")].
Proof.
  rewrite attributes_removed_safely.
  - reflexivity.
  - change ["data-*"; "js*"; "aria*"; "item*"; "src"; "ping"; "style"]
      with (rev blacklisted_attributes).
    apply Permutation_sym, Permutation_rev.
  - repeat constructor; cbn; intuition discriminate.
Defined.

(** ** Removing every occurrence of a run of one character *)

Lemma prefix_append (p u v : string) :
  prefix p u = true -> prefix p (u ++ v) = true.
Proof.
  intros H. apply prefix_iff in H. destruct H as [t ->].
  apply prefix_iff. exists (t ++ v). now rewrite append_assoc.
Qed.

Lemma prefix_empty_text (p : string) : p <> "" -> prefix p "" = false.
Proof. destruct p; [congruence | reflexivity]. Qed.

Lemma cut_before_clean (old s a b : string) :
  old <> "" -> Py.cut old s = Some (a, b) -> Py.contains old a = false.
Proof.
  intros Hne. revert a. induction s as [|x t IH]; intros a; cbn [Py.cut].
  - rewrite (prefix_empty_text old Hne). discriminate.
  - destruct (prefix old (String x t)) eqn:Hp.
    + intros H; inversion H; subst. cbn [Py.contains].
      now rewrite (prefix_empty_text old Hne).
    + destruct (Py.cut old t) as [[a' b']|] eqn:Hc; [|discriminate].
      intros H; inversion H; subst. cbn [Py.contains].
      rewrite (IH a' eq_refl), orb_false_r.
      destruct (prefix old (String x a')) eqn:Hpa; [|reflexivity].
      destruct (cut_some _ _ _ _ Hc) as [Ht _].
      apply (prefix_append _ _ (old ++ b)) in Hpa.
      cbn [append] in Hpa. rewrite <- Ht in Hpa. congruence.
Qed.

Section Runs.

Variable c : ascii.
Variable old : string.
Hypothesis old_run : all_char c old = true.
Hypothesis old_nonempty : old <> "".

Lemma run_shift (run b : string) :
  all_char c run = true -> String c (run ++ b) = run ++ String c b.
Proof.
  induction run as [|d run IH]; cbn; [reflexivity|].
  intros H. apply andb_true_iff in H. destruct H as [Hd Hr].
  apply Ascii.eqb_eq in Hd. subst d. now rewrite <- (IH Hr).
Qed.

Lemma cut_before_last (s a b : string) :
  Py.cut old s = Some (a, b) -> last_char a <> Some c.
Proof.
  revert a. induction s as [|x t IH]; intros a; cbn [Py.cut].
  - rewrite (prefix_empty_text old old_nonempty). discriminate.
  - destruct (prefix old (String x t)) eqn:Hp.
    + intros H; inversion H; subst. discriminate.
    + destruct (Py.cut old t) as [[a' b']|] eqn:Hc; [|discriminate].
      intros H; inversion H; subst.
      destruct a' as [|y a'].
      * cbn. intros Hx. inversion Hx; subst x.
        destruct (cut_some _ _ _ _ Hc) as [Ht _]. cbn [append] in Ht.
        rewrite Ht, (run_shift old b old_run) in Hp.
        assert (prefix old (old ++ String c b) = true) as Habs
          by (apply prefix_iff; now exists (String c b)).
        congruence.
      * change (last_char (String x (String y a')))
          with (last_char (String y a')).
        now apply IH.
Qed.

Lemma prefix_spill (run u r : string) :
  all_char c run = true ->
  prefix run (u ++ r) = true -> prefix run u = false ->
  all_char c u = true.
Proof.
  revert u. induction run as [|o run IH]; intros u Hrun Hp Hn.
  - now rewrite prefix_nil in Hn.
  - cbn in Hrun. apply andb_true_iff in Hrun. destruct Hrun as [Ho Hrun].
    apply Ascii.eqb_eq in Ho. subst o.
    destruct u as [|y u]; [reflexivity|]. cbn in Hp, Hn |- *.
    destruct (ascii_dec c y) as [<- | Hne]; [|discriminate].
    rewrite Ascii.eqb_refl. cbn. now apply IH.
Qed.

Lemma all_char_last (u : string) :
  all_char c u = true -> u <> "" -> last_char u = Some c.
Proof.
  induction u as [|y u IH]; [congruence|]. cbn [all_char].
  intros H _. apply andb_true_iff in H. destruct H as [Hy Hu].
  apply Ascii.eqb_eq in Hy. subst y.
  destruct u as [|z u]; [reflexivity|].
  change (last_char (String c (String z u))) with (last_char (String z u)).
  apply IH; [exact Hu | discriminate].
Qed.

Lemma contains_across (a r : string) :
  Py.contains old a = false -> last_char a <> Some c ->
  Py.contains old r = false ->
  Py.contains old (a ++ r) = false.
Proof.
  intros Ha Hl Hr. induction a as [|x a IH]; [exact Hr|].
  cbn [append Py.contains]. cbn [Py.contains] in Ha.
  apply orb_false_iff in Ha. destruct Ha as [Hp Ha].
  apply orb_false_iff. split.
  - destruct (prefix old (String x (a ++ r))) eqn:Hp'; [|reflexivity].
    exfalso. apply Hl. apply all_char_last; [|discriminate].
    now apply (prefix_spill old (String x a) r old_run).
  - apply IH; [exact Ha|].
    destruct a as [|y a]; [discriminate | exact Hl].
Qed.

Lemma replace_from_clean (n : nat) :
  forall s, String.length s <= n ->
            Py.contains old (Py.replace_from n old "" s) = false.
Proof.
  induction n as [|n IH]; intros s Hlen; cbn [Py.replace_from];
    destruct (Py.cut old s) as [[a b]|] eqn:Hcut;
    try (now apply cut_none).
  - exfalso. destruct (cut_some _ _ _ _ Hcut) as [Hs _].
    rewrite Hs, !length_append in Hlen.
    destruct old; [now apply old_nonempty | cbn in Hlen; lia].
  - cbn [append]. apply contains_across.
    + now apply (cut_before_clean old s a b).
    + now apply (cut_before_last s a b).
    + apply IH. destruct (cut_some _ _ _ _ Hcut) as [Hs _].
      rewrite Hs, !length_append in Hlen.
      destruct old; [now elim old_nonempty | cbn in Hlen; lia].
Qed.

End Runs.

Lemma replace_from_absent (n : nat) (old new s : string) :
  Py.contains old s = false -> Py.replace_from n old new s = s.
Proof.
  intros Hc. destruct n; cbn [Py.replace_from];
    destruct (Py.cut old s) as [[a b]|] eqn:Hcut; try reflexivity;
    rewrite (cut_contains _ _ _ _ Hcut) in Hc; discriminate.
Qed.

(** After the code fences are removed no code fence is left, whatever the
    number and the arrangement of backticks in the action; removing them
    once more changes nothing. *)
Theorem strip_fences_leaves_no_fence (action : string) :
  Py.contains "```" (strip_fences action) = false /\
  strip_fences (strip_fences action) = strip_fences action.
Proof.
  assert (H : Py.contains "```" (strip_fences action) = false).
  { unfold strip_fences, Py.replace.
    apply (replace_from_clean "`" "```"); [reflexivity | discriminate | lia]. }
  split; [exact H|].
  unfold strip_fences at 1. unfold Py.replace.
  now apply replace_from_absent.
Qed.

(** ** [ask_llm_to_find_element]: no quote reaches the driver *)

(** The XPath handed to [find_element] never contains a double quote,
    whatever the language model answered. *)
Theorem xpath_has_no_quote (response : string) :
  Py.contains quote (xpath_of_response response) = false.
Proof.
  unfold xpath_of_response, Py.replace.
  apply (replace_from_clean (ascii_of_nat 34) quote);
    [reflexivity | discriminate | lia].
Qed.

(** ** [get]: the address handed to the driver *)

(** The address [get] hands to the driver always begins with [http]; an
    address that already does is passed on as it is, every other one
    with [http://] before it, so that calling [get] on its own result
    asks for the same address. *)
Theorem get_target_begins_with_http (url : string) :
  startswith (get_target url) "http" = true /\
  (startswith url "http" = true -> get_target url = url) /\
  (startswith url "http" = false -> get_target url = "http://" ++ url) /\
  get_target (get_target url) = get_target url.
Proof.
  assert (H : startswith (get_target url) "http" = true).
  { unfold get_target. destruct (startswith url "http") eqn:E; cbn [negb].
    - exact E.
    - unfold startswith. apply prefix_iff. now exists ("://" ++ url). }
  split; [exact H|]. split; [|split].
  - unfold get_target. now intros ->.
  - unfold get_target. now intros ->.
  - unfold get_target at 1. now rewrite H.
Qed.

Lemma get_target_begins_with_http_witness :
  get_target "https://example.com" = "https://example.com" /\
  get_target "example.com" = "http://example.com".
Proof.
  split.
  - now apply (proj1 (proj2 (get_target_begins_with_http _))).
  - now apply (proj1 (proj2 (proj2 (get_target_begins_with_http _)))).
Defined.

(** ** The failure context extractor on a trace of the usual shape *)

Lemma lacks_append (c : ascii) (a b : string) :
  lacks c (a ++ b) = lacks c a && lacks c b.
Proof.
  induction a as [|x a IH]; cbn; [reflexivity|].
  now rewrite IH, andb_assoc.
Qed.

Lemma cut_skip (c0 : ascii) (sep' u x : string) :
  lacks c0 u = true ->
  Py.cut (String c0 sep') (u ++ x) =
  match Py.cut (String c0 sep') x with
  | Some (a, b) => Some (u ++ a, b)
  | None => None
  end.
Proof.
  intros H. induction u as [|y u IH]; cbn [append].
  - destruct (Py.cut _ x) as [[a b]|]; reflexivity.
  - cbn [lacks] in H. apply andb_true_iff in H. destruct H as [Hy Hu].
    cbn [Py.cut prefix]. destruct (ascii_dec c0 y) as [-> | Hne].
    + rewrite Ascii.eqb_refl in Hy. discriminate.
    + rewrite (IH Hu). destruct (Py.cut _ x) as [[a b]|]; reflexivity.
Qed.

Lemma cut_absent (sep s : string) :
  Py.contains sep s = false -> Py.cut sep s = None.
Proof.
  intros H. destruct (Py.cut sep s) as [[a b]|] eqn:Hc; [|reflexivity].
  rewrite (cut_contains _ _ _ _ Hc) in H. discriminate.
Qed.

(** Splitting at a separator that occurs: the first piece and the rest. *)
Lemma split_cut (sep s a b : string) :
  sep <> "" -> Py.cut sep s = Some (a, b) ->
  exists k, Py.split sep s = a :: Py.split_from k sep b.
Proof.
  intros Hsep Hcut. unfold Py.split. rewrite split_from_eq, Hcut.
  destruct (String.length s) as [|k] eqn:Hlen.
  - exfalso. destruct (cut_some _ _ _ _ Hcut) as [Hs _].
    rewrite Hs, !length_append in Hlen.
    destruct sep; [now apply Hsep | cbn in Hlen; lia].
  - now exists k.
Qed.

Lemma cut_here (sep x : string) : Py.cut sep (sep ++ x) = Some ("", x).
Proof.
  assert (Hp : prefix sep (sep ++ x) = true)
    by (apply prefix_iff; now exists x).
  pose proof (drop_append sep x) as Hd.
  destruct (sep ++ x); cbn [Py.cut]; now rewrite Hp, Hd.
Qed.

Lemma split_from_lines (lines : list string) :
  lines <> [] ->
  Forall (fun l => lacks (ascii_of_nat 10) l = true) lines ->
  forall n, String.length (Py.join Py.nl lines) <= n ->
            Py.split_from n Py.nl (Py.join Py.nl lines) = lines.
Proof.
  unfold Py.join. set (sep := Py.nl).
  induction lines as [|l lines IH]; intros Hne Hall n Hlen; [congruence|].
  inversion Hall as [|? ? Hl Hrest]; subst.
  destruct lines as [|l' lines].
  - change (String.concat sep [l]) with l in *. rewrite split_from_eq.
    pose proof (cut_skip (ascii_of_nat 10) "" l "" Hl) as Hc.
    rewrite append_nil_r in Hc. fold Py.nl in Hc. fold sep in Hc.
    rewrite Hc. reflexivity.
  - change (String.concat sep (l :: l' :: lines))
      with (l ++ sep ++ String.concat sep (l' :: lines)) in *.
    set (rest := String.concat sep (l' :: lines)) in *.
    rewrite split_from_eq.
    pose proof (cut_skip (ascii_of_nat 10) "" l (sep ++ rest) Hl) as Hc.
    fold Py.nl in Hc. fold sep in Hc.
    rewrite cut_here, append_nil_r in Hc. rewrite Hc.
    rewrite !length_append in Hlen.
    change (String.length sep) with 1 in Hlen.
    destruct n as [|n]; [lia|].
    f_equal. apply IH; [discriminate | exact Hrest|].
    fold rest. lia.
Qed.

Lemma replace_from_keeps (c0 : ascii) (old' new u : string) (n : nat)
  (v : string) :
  lacks c0 u = true ->
  exists z, Py.replace_from n (String c0 old') new (u ++ v) = u ++ z.
Proof.
  intros Hu. destruct n as [|n]; cbn [Py.replace_from];
    rewrite (cut_skip c0 old' u v Hu);
    destruct (Py.cut (String c0 old') v) as [[a b]|];
    try (now exists v).
  eexists. now rewrite append_assoc.
Qed.

(** The digits of a number: no other character, and [int] reads the
    number back. *)
Lemma lacks_digits (c : ascii) (d : Decimal.uint) :
  Py.digit_val c = None -> lacks c (NilEmpty.string_of_uint d) = true.
Proof.
  intros Hc.
  induction d; cbn [NilEmpty.string_of_uint lacks]; try reflexivity;
    rewrite IHd, andb_true_r;
    match goal with
    | |- negb (c =? ?k)%char = true =>
        destruct (Ascii.eqb_spec c k) as [E | _];
          [subst c; vm_compute in Hc; discriminate | reflexivity]
    end.
Qed.

Lemma rstrip_digits (d : Decimal.uint) :
  Py.rstrip_of Py.is_int_space (NilEmpty.string_of_uint d) =
  NilEmpty.string_of_uint d.
Proof.
  induction d; cbn [NilEmpty.string_of_uint]; [reflexivity | ..];
    match goal with
    | |- Py.rstrip_of ?f (String ?k ?s) = _ =>
        change (Py.rstrip_of f (String k s))
          with (String k (Py.rstrip_of f s))
    end; now rewrite IHd.
Qed.

Lemma digits_uint (d : Decimal.uint) :
  forall (acc : nat) (b : bool),
    d <> Decimal.Nil \/ b = true ->
    Py.digits (Z.of_nat acc) b (NilEmpty.string_of_uint d) =
    Some (Z.of_nat (Nat.of_uint_acc d acc)).
Proof.
  induction d; intros acc b Hd;
    cbn [NilEmpty.string_of_uint Nat.of_uint_acc].
  1: { destruct Hd as [Hd | ->]; [congruence | reflexivity]. }
  all: match goal with
       | |- Py.digits ?a ?b (String ?k ?s) = _ =>
           transitivity
             (Py.digits (10 * a + Z.of_nat (nat_of_ascii k - 48)) true s);
             [reflexivity|]
       end.
  all: rewrite <- (IHd _ true) by (now right).
  all: f_equal; rewrite Nat.tail_mul_spec; vm_compute (nat_of_ascii _); lia.
Qed.

Lemma int_digits (d : Decimal.uint) :
  d <> Decimal.Nil ->
  Py.int (NilEmpty.string_of_uint d) = Some (Z.of_nat (Nat.of_uint d)).
Proof.
  intros Hd. unfold Py.int.
  assert (Hl : Py.lstrip_of Py.is_int_space (NilEmpty.string_of_uint d) =
               NilEmpty.string_of_uint d)
    by (destruct d; reflexivity).
  rewrite Hl, rstrip_digits. unfold Nat.of_uint.
  rewrite <- (digits_uint d 0 false (or_introl Hd)).
  destruct d; [congruence | ..]; reflexivity.
Qed.

Lemma revapp_not_nil (d acc : Decimal.uint) :
  acc <> Decimal.Nil -> Decimal.revapp d acc <> Decimal.Nil.
Proof.
  revert acc. induction d; intros acc Hacc; cbn; try exact Hacc;
    apply IHd; discriminate.
Qed.

Lemma to_little_uint_not_nil (n : nat) (acc : Decimal.uint) :
  acc <> Decimal.Nil -> Nat.to_little_uint n acc <> Decimal.Nil.
Proof.
  revert acc. induction n as [|n IH]; intros acc Hacc; cbn; [exact Hacc|].
  apply IH. destruct acc; cbn; try discriminate; congruence.
Qed.

Lemma int_str_of_nat (n : nat) : Py.int (str_of_nat n) = Some (Z.of_nat n).
Proof.
  unfold str_of_nat. rewrite int_digits.
  - now rewrite DecimalNat.Unsigned.of_to.
  - unfold Nat.to_uint, Decimal.rev.
    destruct (Nat.to_little_uint n Decimal.zero) eqn:E;
      try (cbn; apply revapp_not_nil; discriminate).
    exfalso. revert E. apply to_little_uint_not_nil. discriminate.
Qed.

Lemma cut_step (sep : string) (c : ascii) (t : string) :
  prefix sep (String c t) = false ->
  Py.cut sep (String c t) =
  match Py.cut sep t with
  | Some (a, b) => Some (String c a, b)
  | None => None
  end.
Proof. intros H. cbn [Py.cut]. now rewrite H. Qed.

Lemma lacks_string_frame_line (c : ascii) (n : nat) :
  Py.digit_val c = None ->
  lacks c ("  File " ++ quote ++ "<string>" ++ quote ++ ", line ") = true ->
  lacks c ", in <module>" = true ->
  lacks c (string_frame_line n) = true.
Proof.
  intros Hd Hpre Hpost. unfold string_frame_line.
  replace ("  File " ++ quote ++ "<string>" ++ quote ++ ", line " ++
           str_of_nat n ++ ", in <module>")
    with (("  File " ++ quote ++ "<string>" ++ quote ++ ", line ") ++
          str_of_nat n ++ ", in <module>")
    by (now rewrite !append_assoc).
  set (pre := "  File " ++ quote ++ "<string>" ++ quote ++ ", line ") in *.
  rewrite (lacks_append c pre), (lacks_append c (str_of_nat n)), Hpre, Hpost.
  unfold str_of_nat. now rewrite lacks_digits.
Qed.

(** The number part of the frame line, as the extractor cuts it out. *)
Lemma frame_line_number (n : nat) (z : string) :
  exists after,
    nth_error (Py.split "line " (string_frame_line n ++ z)) 1 = Some after /\
    hd "" (Py.split "," after) = str_of_nat n.
Proof.
  assert (Hdigits : forall c, Py.digit_val c = None ->
                              lacks c (str_of_nat n) = true)
    by (intros c Hc; now apply lacks_digits).
  set (number := str_of_nat n) in *.
  assert (Hshape : string_frame_line n ++ z =
                   ("  File " ++ quote ++ "<string>" ++ quote ++ ", ") ++
                   "line " ++ number ++ ", in <module>" ++ z).
  { unfold string_frame_line. fold number. unfold quote.
    cbn [append]. now rewrite append_assoc. }
  assert (Hcut : Py.cut "line " (string_frame_line n ++ z) =
                 Some ("  File " ++ quote ++ "<string>" ++ quote ++ ", ",
                       number ++ ", in <module>" ++ z)).
  { rewrite Hshape. unfold quote. cbn [append].
    repeat (rewrite cut_step by reflexivity).
    change (String "l" (String "i" (String "n" (String "e" (String " "
              (number ++ String "," (String " " (String "i" (String "n"
                 (String " " (String "<" (String "m" (String "o"
                    (String "d" (String "u" (String "l" (String "e"
                       (String ">" z))))))))))))))))))
      with ("line " ++ number ++ ", in <module>" ++ z).
    now rewrite cut_here. }
  destruct (split_cut "line " _ _ _ ltac:(discriminate) Hcut) as [k ->].
  cbn [nth_error].
  assert (Hrest : exists more,
             nth_error (Py.split_from k "line "
                          (number ++ ", in <module>" ++ z)) 0 =
             Some (number ++ "," ++ more)).
  { rewrite split_from_eq.
    rewrite (cut_skip "l" "ine " number _ (Hdigits "l"%char eq_refl)).
    cbn [append].
    repeat (rewrite cut_step by reflexivity).
    destruct (Py.cut "line " z) as [[a b]|].
    - destruct k as [|k]; cbn [nth_error]; eexists; reflexivity.
    - cbn [nth_error]. eexists; reflexivity. }
  destruct Hrest as [more Hn]. exists (number ++ "," ++ more).
  split; [exact Hn|].
  assert (Hcomma : Py.cut "," (number ++ "," ++ more) = Some (number, more)).
  { rewrite (cut_skip "," "" number _ (Hdigits ","%char eq_refl)).
    now rewrite cut_here, append_nil_r. }
  destruct (split_cut "," _ _ _ ltac:(discriminate) Hcomma) as [k' ->].
  reflexivity.
Qed.

(** On a trace of the usual shape the extractor reads the right number:
    when the fourth line of the trace is the frame line of the executed
    code for line [n], and no earlier line breaks off, the extractor
    succeeds and reports [n], with an excerpt that begins with that
    frame line. *)
Theorem extractor_reads_line_number (l0 l1 l2 l4 : string)
  (rest : list string) (n : nat) :
  Forall (fun l => lacks (ascii_of_nat 10) l = true)
         (l0 :: l1 :: l2 :: l4 :: rest) ->
  let format_exc :=
    Py.join Py.nl (l0 :: l1 :: l2 :: string_frame_line n :: l4 :: rest) in
  get_relevant_part_of_stack_trace format_exc =
    inr (mkTrace (trimmed_trace format_exc) (Z.of_nat n)) /\
  exists z, trimmed_trace format_exc = string_frame_line n ++ z.
Proof.
  intros Hlines format_exc.
  assert (Hsplit : Py.split Py.nl format_exc =
                   l0 :: l1 :: l2 :: string_frame_line n :: l4 :: rest).
  { unfold Py.split, format_exc. apply split_from_lines.
    - discriminate.
    - inversion Hlines as [|? ? H0 Hl1]; subst.
      inversion Hl1 as [|? ? H1 Hl2]; subst.
      inversion Hl2 as [|? ? H2 Hl3]; subst.
      repeat (constructor; [assumption|]).
      constructor; [|exact Hl3].
      now apply lacks_string_frame_line.
    - apply le_n. }
  assert (Htrim : exists z,
             trimmed_trace format_exc = string_frame_line n ++ z).
  { unfold trimmed_trace. rewrite Hsplit.
    change (Py.join Py.nl
              (Py.slice 3 5
                 (l0 :: l1 :: l2 :: string_frame_line n :: l4 :: rest)))
      with (string_frame_line n ++ Py.nl ++ l4).
    unfold Py.replace.
    apply (replace_from_keeps "G" "PTSeleniumAgent" "env").
    now apply lacks_string_frame_line. }
  split; [|exact Htrim].
  destruct Htrim as [z Hz].
  unfold get_relevant_part_of_stack_trace. rewrite Hz.
  destruct (frame_line_number n z) as (after & -> & ->).
  now rewrite int_str_of_nat.
Qed.

Lemma extractor_reads_line_number_witness :
  get_relevant_part_of_stack_trace (Bench.name_error_trace 17) =
  inr (mkTrace (trimmed_trace (Bench.name_error_trace 17)) 17).
Proof.
  pose proof (extractor_reads_line_number
                "Traceback (most recent call last):"
                ("  File " ++ quote ++
                 "/app/browserpilot/agents/gpt_selenium_agent.py" ++ quote ++
                 ", line 182, in __step_through_instructions")
                "    exec(action, globals(), ldict)"
                "NameError: name 'missing' is not defined" [""] 17) as H.
  destruct H as [H _].
  - repeat constructor.
  - exact H.
Defined.

(** ** The diagnostic for a failure at line 2 of three *)

(** With room for the text, [replace] does the same whatever the number
    of rounds it is given. *)
Lemma replace_from_enough (old new : string) :
  old <> "" ->
  forall n m s,
    String.length s <= n -> String.length s <= m ->
    Py.replace_from n old new s = Py.replace_from m old new s.
Proof.
  intros Hold. induction n as [|n IH]; intros m s Hn Hm.
  - destruct s; [|cbn in Hn; lia].
    assert (Hc : Py.cut old "" = None)
      by (cbn [Py.cut]; now rewrite (prefix_empty_text old Hold)).
    destruct m; cbn [Py.replace_from]; now rewrite Hc.
  - cbn [Py.replace_from]. destruct (Py.cut old s) as [[a b]|] eqn:Hc.
    + destruct (cut_some _ _ _ _ Hc) as [Hs _].
      assert (Hlen : String.length b < String.length s).
      { rewrite Hs, !length_append. destruct old; [congruence | cbn; lia]. }
      destruct m as [|m]; [lia|]. cbn [Py.replace_from]. rewrite Hc.
      do 2 f_equal. apply IH; lia.
    + destruct m; cbn [Py.replace_from]; now rewrite Hc.
Qed.

(** [replace] leaves alone a beginning in which the first character of
    what it looks for does not occur. *)
Lemma replace_skip (c0 : ascii) (old' new u v : string) :
  lacks c0 u = true ->
  Py.replace (String c0 old') new (u ++ v) =
  u ++ Py.replace (String c0 old') new v.
Proof.
  intros Hu. unfold Py.replace.
  destruct (String.length (u ++ v)) as [|n] eqn:Hn;
    destruct (String.length v) as [|k] eqn:Hk;
    cbn [Py.replace_from]; rewrite (cut_skip c0 old' u v Hu);
    destruct (Py.cut (String c0 old') v) as [[a b]|] eqn:Hc;
    try reflexivity;
    destruct (cut_some _ _ _ _ Hc) as [Hs _];
    try (rewrite Hs, !length_append in Hk; cbn in Hk; lia);
    try (rewrite Hs, !length_append in Hn; cbn in Hn; lia).
  rewrite !append_assoc. do 3 f_equal.
  apply replace_from_enough; [discriminate | |];
    rewrite Hs, !length_append in *; cbn in *; lia.
Qed.

(** Collapsing double line breaks, one gap at a time: the line before
    the gap has no line break, and after a single line break the text does
    not go on with another. *)
Lemma collapse_gap (u v : string) (blank : bool) (n k : nat) :
  lacks (ascii_of_nat 10) u = true ->
  (blank = false -> prefix Py.nl v = false) ->
  String.length (u ++ line_gap blank ++ v) <= n ->
  String.length v <= k ->
  Py.replace_from n (Py.nl ++ Py.nl) Py.nl (u ++ line_gap blank ++ v) =
  u ++ Py.nl ++ Py.replace_from k (Py.nl ++ Py.nl) Py.nl v.
Proof.
  intros Hu Hv Hn Hk.
  change (Py.nl ++ Py.nl)
    with (String (ascii_of_nat 10) (String (ascii_of_nat 10) "")) in *.
  destruct blank; unfold line_gap in *.
  - change (Py.nl ++ Py.nl)
      with (String (ascii_of_nat 10) (String (ascii_of_nat 10) "")) in *.
    rewrite !length_append in Hn. cbn [String.length] in Hn.
    destruct n as [|n]; [lia|]. cbn [Py.replace_from].
    rewrite (cut_skip _ _ u _ Hu), cut_here, append_nil_r.
    do 2 f_equal. apply replace_from_enough; [discriminate | lia | lia].
  - specialize (Hv eq_refl).
    assert (Hcut :
      Py.cut (String (ascii_of_nat 10) (String (ascii_of_nat 10) ""))
        (u ++ Py.nl ++ v) =
      match Py.cut (String (ascii_of_nat 10) (String (ascii_of_nat 10) ""))
              v with
      | Some (a, b) => Some (u ++ Py.nl ++ a, b)
      | None => None
      end).
    { rewrite (cut_skip _ _ u _ Hu).
      change (Py.nl ++ v) with (String (ascii_of_nat 10) v).
      rewrite cut_step.
      - destruct (Py.cut _ v) as [[a b]|]; reflexivity.
      - exact Hv. }
    rewrite !length_append in Hn. cbn [String.length] in Hn.
    destruct (Py.cut (String (ascii_of_nat 10) (String (ascii_of_nat 10) ""))
                v) as [[a b]|] eqn:Hc.
    + destruct (cut_some _ _ _ _ Hc) as [Hs _].
      assert (Hb : String.length b + 2 <= String.length v)
        by (rewrite Hs, !length_append; cbn; lia).
      destruct n as [|n]; [lia|]. destruct k as [|k]; [lia|].
      cbn [Py.replace_from]. rewrite Hcut, Hc.
      rewrite !append_assoc. do 4 f_equal.
      apply replace_from_enough; [discriminate | lia | lia].
    + destruct n, k; cbn [Py.replace_from]; now rewrite Hcut, Hc.
Qed.

Lemma lacks_prefix (c : ascii) (s : string) :
  lacks c s = true -> prefix (String c "") s = false.
Proof.
  destruct s as [|d s]; [reflexivity|]. cbn [lacks prefix].
  intros H. apply andb_true_iff in H. destruct H as [H _].
  destruct (ascii_dec c d) as [-> | _]; [|reflexivity].
  rewrite Ascii.eqb_refl in H. discriminate H.
Qed.

Lemma lacks_prefix_append (c : ascii) (s t : string) :
  lacks c s = true -> s <> "" -> prefix (String c "") (s ++ t) = false.
Proof.
  destruct s as [|d s]; [congruence|]. cbn [lacks prefix append].
  intros H _. apply andb_true_iff in H. destruct H as [H _].
  destruct (ascii_dec c d) as [-> | _]; [|reflexivity].
  rewrite Ascii.eqb_refl in H. discriminate H.
Qed.

(** Three lines, a blank line or none between them: with the double line
    breaks collapsed these are the lines of the action. *)
Lemma action_lines_three (l1 l2 l3 : string) (blank1 blank2 : bool) :
  lacks (ascii_of_nat 10) l1 = true ->
  lacks (ascii_of_nat 10) l2 = true ->
  lacks (ascii_of_nat 10) l3 = true ->
  l2 <> "" ->
  action_lines (l1 ++ line_gap blank1 ++ l2 ++ line_gap blank2 ++ l3) =
  [l1; l2; l3].
Proof.
  intros H1 H2 H3 Hne. unfold action_lines, Py.replace.
  rewrite (collapse_gap l1 _ blank1 _
             (String.length (l2 ++ line_gap blank2 ++ l3)) H1);
    [| | apply le_n | apply le_n].
  2: { intros _. now apply lacks_prefix_append. }
  rewrite (collapse_gap l2 l3 blank2 _ (String.length l3) H2);
    [| | apply le_n | apply le_n].
  2: { intros _. now apply lacks_prefix. }
  assert (Hl3 : Py.replace_from (String.length l3) (Py.nl ++ Py.nl) Py.nl l3
                = l3).
  { pose proof (cut_skip (ascii_of_nat 10) (String (ascii_of_nat 10) "")
                  l3 "" H3) as Hc.
    rewrite append_nil_r in Hc.
    change (Py.nl ++ Py.nl)
      with (String (ascii_of_nat 10) (String (ascii_of_nat 10) "")).
    destruct (String.length l3); cbn [Py.replace_from]; now rewrite Hc. }
  rewrite Hl3.
  apply (split_from_lines [l1; l2; l3]).
  - discriminate.
  - repeat constructor; assumption.
  - apply le_n.
Qed.

(** C7.  An action of three lines, with or without blank lines between
    them, and a trace of the usual shape whose fourth line is the frame
    line of the executed code for line 2.  The lines of the action with
    double line breaks collapsed are the three lines; the extractor
    succeeds with the number 2 and with an excerpt that is the fourth and
    the fifth line of the trace, the class name replaced in it; the line
    reported as failing is exactly the second line of the action; the
    excerpt is not empty; and the number is the text that follows the
    leftmost occurrence of the delimiter in the excerpt, up to a comma,
    the next delimiter or the end. *)
Theorem failing_line_reconstructed (l1 l2 l3 : string) (blank1 blank2 : bool)
  (t0 t1 t2 t4 : string) (more : list string) :
  lacks (ascii_of_nat 10) l1 = true ->
  lacks (ascii_of_nat 10) l2 = true ->
  lacks (ascii_of_nat 10) l3 = true ->
  l2 <> "" ->
  Forall (fun l => lacks (ascii_of_nat 10) l = true)
         (t0 :: t1 :: t2 :: t4 :: more) ->
  let action := l1 ++ line_gap blank1 ++ l2 ++ line_gap blank2 ++ l3 in
  let format_exc :=
    Py.join Py.nl (t0 :: t1 :: t2 :: string_frame_line 2 :: t4 :: more) in
  let excerpt :=
    string_frame_line 2 ++ Py.nl ++ Py.replace class_name "env" t4 in
  action_lines action = [l1; l2; l3] /\
  get_relevant_part_of_stack_trace format_exc = inr (mkTrace excerpt 2) /\
  problem_instruction action 2 =
    inr (Py.nl ++ "Failed on line: " ++ l2 ++ Py.nl) /\
  excerpt <> "" /\
  exists pre number rest,
    excerpt = pre ++ "line " ++ number ++ rest /\
    leftmost "line " pre excerpt /\
    Py.int number = Some 2%Z /\
    (rest = "" \/ prefix "," rest = true \/ prefix "line " rest = true).
Proof.
  intros H1 H2 H3 Hne Hlines action format_exc excerpt.
  assert (Hact : action_lines action = [l1; l2; l3])
    by now apply action_lines_three.
  assert (Hsplit : Py.split Py.nl format_exc =
                   t0 :: t1 :: t2 :: string_frame_line 2 :: t4 :: more).
  { unfold Py.split, format_exc. apply split_from_lines.
    - discriminate.
    - inversion Hlines as [|? ? Ht0 Hl1]; subst.
      inversion Hl1 as [|? ? Ht1 Hl2]; subst.
      inversion Hl2 as [|? ? Ht2 Hl3]; subst.
      repeat (constructor; [assumption|]).
      constructor; [|exact Hl3].
      now apply lacks_string_frame_line.
    - apply le_n. }
  assert (Htrim : trimmed_trace format_exc = excerpt).
  { unfold trimmed_trace. rewrite Hsplit.
    change (Py.join Py.nl
              (Py.slice 3 5
                 (t0 :: t1 :: t2 :: string_frame_line 2 :: t4 :: more)))
      with (string_frame_line 2 ++ Py.nl ++ t4).
    unfold excerpt, class_name.
    rewrite <- (append_assoc (string_frame_line 2) Py.nl t4).
    rewrite (replace_skip "G" "PTSeleniumAgent" "env"
               (string_frame_line 2 ++ Py.nl) t4).
    - now rewrite append_assoc.
    - rewrite lacks_append, lacks_string_frame_line; reflexivity. }
  assert (Htrace : get_relevant_part_of_stack_trace format_exc =
                   inr (mkTrace excerpt 2)).
  { unfold get_relevant_part_of_stack_trace. rewrite Htrim. unfold excerpt.
    destruct (frame_line_number 2
                (Py.nl ++ Py.replace class_name "env" t4))
      as (after & -> & ->).
    now rewrite int_str_of_nat. }
  split; [exact Hact|]. split; [exact Htrace|]. split.
  { unfold problem_instruction. now rewrite Hact. }
  exact (line_number_leftmost format_exc (mkTrace excerpt 2) Htrace).
Qed.

Lemma failing_line_reconstructed_witness :
  let action := "env.get('a')" ++ Py.nl ++ "env.missing()" ++ Py.nl ++ Py.nl ++
                "env.click('b')" in
  let format_exc :=
    "Traceback (most recent call last):" ++ Py.nl ++
    "  File " ++ quote ++ "/app/browserpilot/agents/gpt_selenium_agent.py"
      ++ quote ++ ", line 182, in __step_through_instructions" ++ Py.nl ++
    "    exec(action, globals(), ldict)" ++ Py.nl ++
    "  File " ++ quote ++ "<string>" ++ quote ++ ", line 2, in <module>"
      ++ Py.nl ++
    "AttributeError: 'GPTSeleniumAgent' object has no attribute 'missing'"
      ++ Py.nl in
  get_relevant_part_of_stack_trace format_exc =
    inr (mkTrace
           ("  File " ++ quote ++ "<string>" ++ quote ++ ", line 2, in <module>"
              ++ Py.nl ++
            "AttributeError: 'env' object has no attribute 'missing'") 2) /\
  problem_instruction action 2 =
    inr (Py.nl ++ "Failed on line: env.missing()" ++ Py.nl).
Proof.
  intros action format_exc.
  destruct (failing_line_reconstructed
              "env.get('a')" "env.missing()" "env.click('b')" false true
              "Traceback (most recent call last):"
              ("  File " ++ quote ++
               "/app/browserpilot/agents/gpt_selenium_agent.py" ++ quote ++
               ", line 182, in __step_through_instructions")
              "    exec(action, globals(), ldict)"
              "AttributeError: 'GPTSeleniumAgent' object has no attribute 'missing'"
              [""])
    as (_ & Htrace & Hproblem & _).
  - reflexivity.
  - reflexivity.
  - reflexivity.
  - discriminate.
  - repeat constructor.
  - split; [exact Htrace | exact Hproblem].
Defined.

(** ** [_clean_html]: what is left of the page *)

Lemma each_map {A B : Type} (f : A -> string + B) (g : A -> B)
  (l : list A) :
  Forall (fun x => f x = inr (g x)) l -> each f l = inr (map g l).
Proof.
  induction 1 as [|x l Hx _ IH]; cbn; [reflexivity|]. now rewrite Hx, IH.
Qed.

Lemma clean_attributes_cleaned (patterns : list string) (n : Node) :
  Permutation patterns blacklisted_attributes ->
  (forall ta, In ta (tags n) -> NoDup (map fst (snd ta))) ->
  clean_attributes patterns n = inr (cleaned n).
Proof.
  intros HP.
  induction n as [s | t attrs children IH] using Node_induction; intros Hwf.
  - reflexivity.
  - cbn [clean_attributes cleaned].
    rewrite (attributes_removed_total patterns attrs HP).
    2:{ apply (Hwf (t, attrs)). now left. }
    fold (kept_attributes attrs).
    rewrite (each_map _ cleaned); [reflexivity|].
    rewrite Forall_forall in *. intros kid Hkid. apply IH; [exact Hkid|].
    intros ta Hta. apply Hwf. right. apply in_flat_map. now exists kid.
Qed.

Lemma tags_cleaned (n : Node) :
  tags (cleaned n) =
  map (fun ta => (fst ta, kept_attributes (snd ta))) (tags n).
Proof.
  induction n as [s | t attrs children IH] using Node_induction;
    [reflexivity|].
  cbn [cleaned tags map]. f_equal.
  induction IH as [|kid kids Hkid _ IHkids]; [reflexivity|].
  cbn [map flat_map]. now rewrite map_app, Hkid, IHkids.
Qed.

Lemma flat_map_twice {A B D : Type} (f : B -> list D) (g : A -> list B)
  (l : list A) :
  flat_map f (flat_map g l) = flat_map (fun x => flat_map f (g x)) l.
Proof.
  induction l as [|x l IH]; cbn; [reflexivity|].
  now rewrite flat_map_app, IH.
Qed.

Lemma flat_map_pointwise {A B : Type} (f g : A -> list B) (l : list A) :
  Forall (fun x => f x = g x) l -> flat_map f l = flat_map g l.
Proof. induction 1 as [|x l Hx _ IH]; cbn; [reflexivity|]. now rewrite Hx, IH. Qed.

Lemma decompose_after_prune (name : string) (names : list string)
  (n : Node) :
  flat_map (decompose_named name) (prune names n) = prune (name :: names) n.
Proof.
  induction n as [s | t attrs children IH] using Node_induction;
    [reflexivity|].
  cbn [prune existsb].
  destruct (existsb (String.eqb t) names) eqn:Hin.
  - now rewrite orb_true_r.
  - rewrite orb_false_r. cbn [flat_map decompose_named].
    destruct (t =? name)%string; [reflexivity|]. cbn [app].
    rewrite flat_map_twice. do 2 f_equal.
    now apply flat_map_pointwise.
Qed.

Lemma prune_nothing (n : Node) : prune [] n = [n].
Proof.
  induction n as [s | t attrs children IH] using Node_induction;
    [reflexivity|].
  cbn [prune existsb]. do 2 f_equal.
  induction IH as [|kid kids Hkid _ IHkids]; [reflexivity|].
  cbn [flat_map]. now rewrite Hkid, IHkids.
Qed.

Lemma remove_elements_prune (names : list string) (soup : list Node) :
  remove_elements names soup = flat_map (prune (rev names)) soup.
Proof.
  unfold remove_elements.
  assert (H : forall done page,
             fold_left (fun page name =>
                          flat_map (decompose_named name) page) names
               (flat_map (prune done) page) =
             flat_map (prune (rev names ++ done)) page).
  { induction names as [|name names IH]; intros done page; cbn [fold_left].
    - reflexivity.
    - rewrite flat_map_twice.
      rewrite (flat_map_pointwise _ (prune (name :: done))).
      + rewrite IH. cbn [rev]. now rewrite <- app_assoc.
      + apply Forall_forall. intros n _. apply decompose_after_prune. }
  specialize (H [] soup). rewrite app_nil_r in H. rewrite <- H.
  f_equal. clear H. induction soup as [|n soup IH]; [reflexivity|].
  cbn [flat_map]. now rewrite prune_nothing, <- IH.
Qed.

Lemma prune_same_members (names names' : list string) (n : Node) :
  (forall t, existsb (String.eqb t) names = existsb (String.eqb t) names') ->
  prune names n = prune names' n.
Proof.
  intros Hsame.
  induction n as [s | t attrs children IH] using Node_induction;
    [reflexivity|].
  cbn [prune]. rewrite Hsame.
  destruct (existsb (String.eqb t) names'); [reflexivity|].
  do 2 f_equal. now apply flat_map_pointwise.
Qed.

Lemma remove_elements_any_order (names : list string) (soup : list Node) :
  Permutation names blacklisted_elements ->
  remove_elements names soup =
  flat_map (prune blacklisted_elements) soup.
Proof.
  intros HP. rewrite remove_elements_prune.
  apply flat_map_pointwise, Forall_forall. intros n _.
  apply prune_same_members. intros t. apply existsb_permutation.
  apply Permutation_trans with names; [|exact HP].
  apply Permutation_sym, Permutation_rev.
Qed.

Lemma tags_prune (names : list string) (n : Node) :
  forall ta, In ta (flat_map tags (prune names n)) ->
             existsb (String.eqb (fst ta)) names = false /\ In ta (tags n).
Proof.
  induction n as [s | t attrs children IH] using Node_induction; intros ta.
  - intros [].
  - cbn [prune]. destruct (existsb (String.eqb t) names) eqn:Hin.
    + intros [].
    + cbn [flat_map tags]. rewrite app_nil_r. intros [<- | Hta].
      * split; [exact Hin | now left].
      * apply in_flat_map in Hta. destruct Hta as [n' [Hn' Hta]].
        apply in_flat_map in Hn'. destruct Hn' as [kid [Hkid Hn']].
        rewrite Forall_forall in IH.
        destruct (IH kid Hkid ta) as [Hname Htag].
        { apply in_flat_map. now exists n'. }
        split; [exact Hname|]. right. apply in_flat_map. now exists kid.
Qed.

(** [_clean_html] is safe and does what its two lists say, whatever the
    order in which Python goes through the two sets: on a page whose
    tags have no attribute twice no deletion finds its attribute already
    gone, the result is the page without the nine elements and their
    content and with only the kept attributes on the tags that are left,
    and so no tag of the result bears one of the nine names and no
    attribute of the result begins with one of the seven stems. *)
Theorem clean_html_safe_and_clean (names patterns : list string)
  (soup : list Node) :
  Permutation names blacklisted_elements ->
  Permutation patterns blacklisted_attributes ->
  (forall ta, In ta (flat_map tags soup) -> NoDup (map fst (snd ta))) ->
  let page := map cleaned (flat_map (prune blacklisted_elements) soup) in
  clean_html names patterns soup = inr page /\
  clean_html names patterns soup =
    clean_html blacklisted_elements blacklisted_attributes soup /\
  forall t attrs,
    In (t, attrs) (flat_map tags page) ->
    ~ In t blacklisted_elements /\
    forall k v, In (k, v) attrs -> has_blacklisted_stem k = false.
Proof.
  intros Hnames Hpatterns Hwf page.
  assert (Hrun : forall names' patterns',
             Permutation names' blacklisted_elements ->
             Permutation patterns' blacklisted_attributes ->
             clean_html names' patterns' soup = inr page).
  { intros names' patterns' Hn Hp. unfold clean_html.
    rewrite (remove_elements_any_order names' soup Hn).
    apply each_map. apply Forall_forall. intros n Hn'.
    apply clean_attributes_cleaned; [exact Hp|].
    intros ta Hta. apply Hwf.
    apply in_flat_map in Hn'. destruct Hn' as [n0 [Hn0 Hn']].
    destruct (tags_prune blacklisted_elements n0 ta) as [_ Hin].
    { apply in_flat_map. now exists n. }
    apply in_flat_map. now exists n0. }
  split; [now apply Hrun|]. split.
  { rewrite (Hrun names patterns Hnames Hpatterns).
    symmetry. apply Hrun; apply Permutation_refl. }
  intros t attrs Hin. unfold page in Hin.
  apply in_flat_map in Hin. destruct Hin as [n' [Hn' Hta]].
  apply in_map_iff in Hn'. destruct Hn' as [n [<- Hn]].
  rewrite tags_cleaned in Hta. apply in_map_iff in Hta.
  destruct Hta as [[t0 attrs0] [Heq Hta]]. cbn in Heq.
  inversion Heq; subst t attrs; clear Heq.
  apply in_flat_map in Hn. destruct Hn as [n0 [Hn0 Hn]].
  destruct (tags_prune blacklisted_elements n0 (t0, attrs0)) as [Hname _].
  { apply in_flat_map. now exists n. }
  split.
  - intros Hbad. cbn [fst] in Hname.
    assert (existsb (String.eqb t0) blacklisted_elements = true) as Habs.
    { apply existsb_exists. exists t0. split; [exact Hbad|].
      apply String.eqb_refl. }
    congruence.
  - intros k v Hkv. unfold kept_attributes in Hkv.
    apply filter_In in Hkv. destruct Hkv as [_ Hkeep]. cbn in Hkeep.
    now apply negb_true_iff in Hkeep.
Qed.

Lemma clean_html_safe_and_clean_witness :
  clean_html
    ["::marker"; "br"; "svg"; "path"; "style"; "script"; "meta"; "title";
     "head"]
    ["data-*"; "js*"; "aria*"; "item*"; "src"; "ping"; "style"]
    [Tag "html" [("lang", "en"); ("data-x", "1")]
       [Tag "head" [] [Tag "title" [] [Text "Search"]];
        Tag "body" [("style", "margin:0"); ("id", "b")]
          [Tag "script" [("src", "a.js")] [Text "x()"];
           Tag "div" [("jsname", "q"); ("class", "c")]
             [Text "hello"; Tag "br" [] [];
              Tag "svg" [] [Tag "path" [("d", "M0")] []]]]]] =
  inr [Tag "html" [("lang", "en")]
         [Tag "body" [("id", "b")]
            [Tag "div" [("class", "c")] [Text "hello"]]]].
Proof.
  edestruct (clean_html_safe_and_clean
               ["::marker"; "br"; "svg"; "path"; "style"; "script"; "meta";
                "title"; "head"]
               ["data-*"; "js*"; "aria*"; "item*"; "src"; "ping"; "style"])
    as [H _]; [| | | rewrite H; reflexivity].
  - change ["::marker"; "br"; "svg"; "path"; "style"; "script"; "meta";
            "title"; "head"] with (rev blacklisted_elements).
    apply Permutation_sym, Permutation_rev.
  - change ["data-*"; "js*"; "aria*"; "item*"; "src"; "ping"; "style"]
      with (rev blacklisted_attributes).
    apply Permutation_sym, Permutation_rev.
  - cbn. intros ta Hta.
    repeat (destruct Hta as [<- | Hta];
            [cbn; repeat constructor; cbn; intuition discriminate|]).
    destruct Hta.
Defined.

(** ** The step loop: the queue is taken in order *)

Section QueueOrder.

Context {C W : Type}.
Variable ic : Compiler C.
Variable br : Browser W.
Variable agent : Agent.
Hypothesis laws : CompilerLaws ic.

Lemma loop_body_stepped (m : Machine C W) i q :
  instructions_queue ic (compiler m) = i :: q ->
  stepped (events (loop_body ic br agent m)) = [i].
Proof.
  intros Hq. destruct (step_dequeues ic laws _ _ _ Hq) as [Hi _].
  unfold loop_body.
  rewrite (bind_reply _ _ _ _ _ _ (compiler_step_reply ic m)).
  cbn [after events app stepped]. rewrite Hi. f_equal.
  set (a := strip_fences _). set (m1 := mkMachine _ _).
  apply no_step_stepped. rewrite events_bind.
  unfold count. rewrite filter_app, length_app.
  assert (Hc : List.length (filter is_step (events (check_danger a m1))) = 0).
  { unfold check_danger. now destruct (is_potentially_dangerous a). }
  rewrite Hc.
  destruct (outcome (check_danger a m1)); try reflexivity.
  now destruct (attempt_evals_counts ic br agent max_attempts a
                  (final (check_danger a m1))) as (_ & _ & Hs).
Qed.

Lemma drain_stepped fuel :
  forall m : Machine C W,
    List.length (instructions_queue ic (compiler m)) <= fuel ->
    let reply := drain ic br agent fuel m in
    instructions_queue ic (compiler m) =
      (stepped (events reply) ++
       instructions_queue ic (compiler (final reply)))%list /\
    (outcome reply = Returns tt ->
     instructions_queue ic (compiler (final reply)) = []).
Proof.
  induction fuel as [|fuel IH]; intros m Hlen;
    destruct (instructions_queue ic (compiler m)) as [|i q] eqn:Hq;
    try (rewrite (drain_empty ic br agent _ m Hq); cbn; now rewrite Hq).
  - cbn in Hlen. lia.
  - cbv zeta. rewrite (drain_next ic br agent fuel m i q Hq).
    rewrite events_bind, outcome_bind, final_bind, stepped_app.
    rewrite (loop_body_stepped m i q Hq).
    destruct (loop_body_dequeues ic br agent m i q laws Hq) as [Ho Hq'].
    destruct (outcome (loop_body ic br agent m)) as [u | e |].
    + destruct (IH (final (loop_body ic br agent m))) as [Hs Hr].
      { rewrite Hq'. cbn in Hlen. lia. }
      rewrite Hq' in Hs. cbn [app]. split; [now rewrite Hs | exact Hr].
    + cbn [stepped app]. rewrite Hq'. split; [reflexivity | discriminate].
    + contradiction.
Qed.

End QueueOrder.

(** The step loop never skips an instruction and never takes one out of
    turn: whatever happens during the run, the instructions handed out
    by [step] are the front of the queue as it was at the start, in
    order; when the loop returns normally they are the whole queue, and
    when it is left by an exception the instructions not yet handed out
    are still pending in the compiler. *)
Theorem instructions_stepped_in_order {C W : Type} (ic : Compiler C)
  (br : Browser W) (agent : Agent) (fuel : nat) (m : Machine C W) :
  CompilerLaws ic ->
  List.length (instructions_queue ic (compiler m)) <= fuel ->
  let reply := step_through_instructions ic br agent fuel m in
  exists pending,
    instructions_queue ic (compiler m) =
      (stepped (events reply) ++ pending)%list /\
    (outcome reply = Returns tt -> pending = []) /\
    (forall e, outcome reply = Raises e ->
               pending = instructions_queue ic (compiler (final reply))).
Proof.
  intros L Hlen reply.
  destruct (drain_stepped ic br agent L fuel m Hlen) as [Hs Hr].
  pose proof (step_through_events ic br agent fuel m) as H. cbv zeta in H.
  exists (instructions_queue ic
            (compiler (final (drain ic br agent fuel m)))).
  assert (Hfinal : forall e,
             outcome (drain ic br agent fuel m) = Raises e ->
             final reply = final (drain ic br agent fuel m)).
  { intros e He. unfold reply, step_through_instructions.
    now rewrite final_bind, He. }
  destruct (outcome (drain ic br agent fuel m)) as [u | e |] eqn:Ho;
    destruct H as [Hout Hev]; fold reply in Hout, Hev; rewrite Hev, Hout.
  - rewrite !stepped_app.
    assert (Hp : stepped (persisted agent ++ [EvQuit]) = []).
    { unfold persisted. destruct (instruction_output_file agent) as [f|];
        [destruct (f =? "")%string|]; reflexivity. }
    rewrite <- stepped_app, Hp, app_nil_r.
    destruct u. split; [exact Hs|]. split; [intros _; now apply Hr|].
    discriminate.
  - split; [exact Hs|]. split; [discriminate|].
    intros e' _. now rewrite (Hfinal e eq_refl).
  - split; [exact Hs|]. split; discriminate.
Qed.

Lemma instructions_stepped_in_order_witness :
  let reply := step_through_instructions Bench.desk Bench.tab Bench.plain 3
                 (Bench.start ["env.get('a')"; "import os"; "env.get('c')"]) in
  stepped (events reply) = ["env.get('a')"; "import os"] /\
  Bench.queue (compiler (final reply)) = ["env.get('c')"].
Proof.
  intros reply.
  destruct (instructions_stepped_in_order Bench.desk Bench.tab Bench.plain 3
              (Bench.start ["env.get('a')"; "import os"; "env.get('c')"])
              bench_laws) as (pending & Hq & _ & Hp).
  - simpl. lia.
  - fold reply in Hq, Hp. split; reflexivity.
Defined.
